(** * Text-recovery pipeline of the social-media content analyzer backend

    A shallow embedding of [utils/ocrExtractor.js] (image preprocessing,
    recognition runs, [cleanOCRText], [scoreOCRQuality], selection) and of
    [utils/pdfExtractor.js] ([extractTextFromPDF]).

    - JavaScript strings are sequences of UTF-16 code units; they are
      modelled as lists of code units ([N]).
    - Regular expressions are modelled by an abstract syntax and a
      backtracking matcher that follows the matcher semantics of the
      ECMAScript specification (greedy quantifiers, leftmost match,
      non-unicode mode); [replace], [test], [match] and [split] scan with it.
    - Numbers are binary64; scores are computed with the primitive floats.
    - Exceptions and the calls to sharp, tesseract.js, pdf-parse and the
      file system live in a state and exception monad over an abstract world,
      which also logs the calls. *)

From Stdlib Require Import String Ascii.
From Stdlib Require Import List NArith ZArith Arith Bool Lia QArith Lqa Floats.
From Stdlib Require Import Sorting.Sorted Sorting.Permutation.
Import ListNotations.

Set Implicit Arguments.
Local Open Scope nat_scope.

(** ** JavaScript strings *)

Module JS.

Definition char := N.
Definition jsstring := list char.

(** An ASCII literal as a JavaScript string. *)
Definition js (s : string) : jsstring :=
  List.map N_of_ascii (list_ascii_of_string s).

Definition NL : char := 10%N.

Definition in_range (lo hi c : char) : bool := (lo <=? c)%N && (c <=? hi)%N.
Arguments in_range (lo hi c)%_N_scope.

(** [\d] *)
Definition is_digit (c : char) : bool := in_range 48 57 c.
Definition is_upper (c : char) : bool := in_range 65 90 c.
Definition is_lower (c : char) : bool := in_range 97 122 c.

(** [[a-zA-Z0-9]] *)
Definition is_alnum (c : char) : bool := is_lower c || is_upper c || is_digit c.

(** [\w]: letters, digits and the underscore. *)
Definition is_word (c : char) : bool := is_alnum c || (c =? 95)%N.

(** LineTerminator: LF, CR, LS, PS. *)
Definition is_line_terminator (c : char) : bool :=
  (c =? 10)%N || (c =? 13)%N || (c =? 0x2028)%N || (c =? 0x2029)%N.

(** [\s], which is also the set [String.prototype.trim] strips: WhiteSpace
    (TAB, VT, FF, SP, NBSP, ZWNBSP and the space separators) and
    LineTerminator. *)
Definition is_space (c : char) : bool :=
  in_range 9 13 c || (c =? 32)%N || (c =? 0xA0)%N || (c =? 0x1680)%N
  || in_range 0x2000 0x200A c || (c =? 0x2028)%N || (c =? 0x2029)%N
  || (c =? 0x202F)%N || (c =? 0x205F)%N || (c =? 0x3000)%N || (c =? 0xFEFF)%N.

(** *** [trim], [split('\n')], [join('\n')] *)

Fixpoint trimStart (s : jsstring) : jsstring :=
  match s with
  | [] => []
  | c :: t => if is_space c then trimStart t else s
  end.

Definition trimEnd (s : jsstring) : jsstring := rev (trimStart (rev s)).

Definition trim (s : jsstring) : jsstring := trimEnd (trimStart s).

(** [s.split('\n')]: never empty; the empty string gives one empty line. *)
Fixpoint split_nl (s : jsstring) : list jsstring :=
  match s with
  | [] => [[]]
  | c :: t =>
      if (c =? NL)%N then [] :: split_nl t
      else match split_nl t with
           | [] => [[c]]
           | l :: ls => (c :: l) :: ls
           end
  end.

(** [lines.join('\n')] *)
Fixpoint join_nl (ls : list jsstring) : jsstring :=
  match ls with
  | [] => []
  | [l] => l
  | l :: ls' => l ++ NL :: join_nl ls'
  end.

(** [a === b] on strings *)
Fixpoint str_eqb (a b : jsstring) : bool :=
  match a, b with
  | [], [] => true
  | x :: a', y :: b' => (x =? y)%N && str_eqb a' b'
  | _, _ => false
  end.

(** [s.startsWith(needle)] *)
Fixpoint starts_with (needle s : jsstring) : bool :=
  match needle, s with
  | [], _ => true
  | _ :: _, [] => false
  | a :: n', b :: s' => (a =? b)%N && starts_with n' s'
  end.

(** [s.includes(needle)] *)
Fixpoint includes (needle s : jsstring) : bool :=
  starts_with needle s ||
  match s with
  | [] => false
  | _ :: t => includes needle t
  end.

End JS.
Import JS.

(** ** Regular expressions *)

Module RegExp.

(** Members of a character class. *)
Inductive citem :=
  | Ch (c : char)             (* a literal code unit *)
  | Rg (lo hi : char)         (* a range [lo-hi] *)
  | Dg                        (* \d *)
  | Wd                        (* \w *)
  | Sp.                       (* \s *)
Arguments Ch c%_N_scope.
Arguments Rg (lo hi)%_N_scope.

Inductive regex :=
  | Eps
  | Cls (neg : bool) (items : list citem)    (* [...] and [^...] *)
  | Dot                                      (* . *)
  | Bol                                      (* ^ *)
  | Eol                                      (* $ *)
  | Seq (r1 r2 : regex)
  | Alt (r1 r2 : regex)
  | Rep (min : nat) (max : option nat) (r : regex).   (* greedy {min,max} *)

Record flags := { ignoreCase : bool; multiline : bool }.

(** Canonicalize of the non-unicode case-insensitive mode.  On code units
    below 128 it is the ASCII upper-casing.  A code unit of 128 or more is
    never canonicalized to one below 128, so against the ASCII-only
    patterns of this program it behaves as a code unit that is left alone. *)
Definition canonicalize (c : char) : char :=
  if is_lower c then (c - 32)%N else c.

Definition item_mem (it : citem) (c : char) : bool :=
  match it with
  | Ch a => (a =? c)%N
  | Rg lo hi => in_range lo hi c
  | Dg => is_digit c
  | Wd => is_word c
  | Sp => is_space c
  end.

(** With [ignoreCase] a class holds [c] when it holds some [a] with the same
    canonical form: the canonical form itself or its lower-case letter. *)
Definition item_match (fl : flags) (it : citem) (c : char) : bool :=
  if ignoreCase fl then
    let u := canonicalize c in
    item_mem it u || (is_upper u && item_mem it (u + 32)%N)
  else item_mem it c.

Definition cls_match (fl : flags) (neg : bool) (items : list citem) (c : char) : bool :=
  xorb neg (existsb (fun it => item_match fl it c) items).

(** A matcher takes the code unit before the current position, the rest of
    the input and a continuation; it answers with the length of the input
    left after the whole match, or [None] on failure. *)
Definition cont := option char -> jsstring -> option nat.
Definition matcher := option char -> jsstring -> cont -> option nat.

Definition at_bol (fl : flags) (prev : option char) : bool :=
  match prev with
  | None => true
  | Some c => multiline fl && is_line_terminator c
  end.

Definition at_eol (fl : flags) (s : jsstring) : bool :=
  match s with
  | [] => true
  | c :: _ => multiline fl && is_line_terminator c
  end.

(** RepeatMatcher, greedy.  Every round after the mandatory ones has to
    consume input, so [min + length s + 1] rounds of fuel are never used up
    (see [repeat_fuel]). *)
Fixpoint repeatMatcher (fuel : nat) (m : matcher) (min : nat) (max : option nat)
    (prev : option char) (s : jsstring) (k : cont) : option nat :=
  match fuel with
  | O => None
  | S fuel' =>
      match max with
      | Some O => k prev s
      | _ =>
          let d : cont := fun prev' s' =>
            if (min =? 0) && (length s' =? length s) then None
            else repeatMatcher fuel' m (pred min) (option_map pred max) prev' s' k in
          if min =? 0 then
            match m prev s d with
            | Some z => Some z
            | None => k prev s
            end
          else m prev s d
      end
  end.

Fixpoint run (fl : flags) (r : regex) : matcher :=
  fun prev s k =>
    match r with
    | Eps => k prev s
    | Cls neg items =>
        match s with
        | c :: t => if cls_match fl neg items c then k (Some c) t else None
        | [] => None
        end
    | Dot =>
        match s with
        | c :: t => if is_line_terminator c then None else k (Some c) t
        | [] => None
        end
    | Bol => if at_bol fl prev then k prev s else None
    | Eol => if at_eol fl s then k prev s else None
    | Seq r1 r2 => run fl r1 prev s (fun prev' s' => run fl r2 prev' s' k)
    | Alt r1 r2 =>
        match run fl r1 prev s k with
        | Some z => Some z
        | None => run fl r2 prev s k
        end
    | Rep min max r' => repeatMatcher (S (min + length s)) (run fl r') min max prev s k
    end.

(** One match attempt at the current position: the length of the match. *)
Definition match_here (fl : flags) (r : regex) (prev : option char) (s : jsstring)
  : option nat :=
  match run fl r prev s (fun _ s' => Some (length s')) with
  | Some rest => Some (length s - rest)
  | None => None
  end.

(** [s.replace(re, by)] for a global [re] whose replacement text has no [$]
    pattern: scan from the left; a match is replaced and the scan resumes
    behind it ([skip] counts the matched code units still to be passed);
    after an empty match the scan advances by one code unit. *)
Fixpoint replace_go (fl : flags) (r : regex) (by_ : jsstring)
    (prev : option char) (s : jsstring) (skip : nat) : jsstring :=
  match skip with
  | S skip' =>
      match s with
      | [] => []
      | c :: t => replace_go fl r by_ (Some c) t skip'
      end
  | O =>
      match match_here fl r prev s with
      | Some n =>
          by_ ++ match s with
                 | [] => []
                 | c :: t =>
                     match n with
                     | O => c :: replace_go fl r by_ (Some c) t 0
                     | S n' => replace_go fl r by_ (Some c) t n'
                     end
                 end
      | None =>
          match s with
          | [] => []
          | c :: t => c :: replace_go fl r by_ (Some c) t 0
          end
      end
  end.

Definition replace_all (fl : flags) (r : regex) (by_ : jsstring) (s : jsstring)
  : jsstring :=
  replace_go fl r by_ None s 0.

(** [s.replace(re, by)] for a [re] without the global flag: the leftmost
    match only. *)
Fixpoint replace_first_go (fl : flags) (r : regex) (by_ : jsstring)
    (prev : option char) (s : jsstring) : jsstring :=
  match match_here fl r prev s with
  | Some n => by_ ++ skipn n s
  | None =>
      match s with
      | [] => []
      | c :: t => c :: replace_first_go fl r by_ (Some c) t
      end
  end.

Definition replace_first (fl : flags) (r : regex) (by_ : jsstring) (s : jsstring)
  : jsstring :=
  replace_first_go fl r by_ None s.

(** [re.test(s)] for a [re] without the global flag. *)
Fixpoint test_go (fl : flags) (r : regex) (prev : option char) (s : jsstring) : bool :=
  match match_here fl r prev s with
  | Some _ => true
  | None =>
      match s with
      | [] => false
      | c :: t => test_go fl r (Some c) t
      end
  end.

Definition test (fl : flags) (r : regex) (s : jsstring) : bool := test_go fl r None s.

(** [s.match(re)] for a global [re]: the matched substrings, in order. *)
Fixpoint match_go (fl : flags) (r : regex) (prev : option char) (s : jsstring)
    (skip : nat) : list jsstring :=
  match skip with
  | S skip' =>
      match s with
      | [] => []
      | c :: t => match_go fl r (Some c) t skip'
      end
  | O =>
      match match_here fl r prev s with
      | Some n =>
          firstn n s ::
          match s with
          | [] => []
          | c :: t => match_go fl r (Some c) t (pred n)
          end
      | None =>
          match s with
          | [] => []
          | c :: t => match_go fl r (Some c) t 0
          end
      end
  end.

Definition match_all (fl : flags) (r : regex) (s : jsstring) : list jsstring :=
  match_go fl r None s 0.

(** [s.split(re)] without a limit, after the steps of
    [RegExp.prototype[@@split]]: at each position [q] short of the end the
    separator is matched at [q]; a match that ends where the current piece
    starts is passed over, any other match closes the piece.  [cur] is the
    piece being collected, in reverse ([cur = []] when [q] is its start). *)
Fixpoint split_go (fl : flags) (r : regex) (prev : option char) (s : jsstring)
    (cur : jsstring) (skip : nat) : list jsstring :=
  match skip with
  | S skip' =>
      match s with
      | [] => [rev cur]
      | c :: t => split_go fl r (Some c) t cur skip'
      end
  | O =>
      match s with
      | [] => [rev cur]
      | c :: t =>
          match match_here fl r prev s with
          | Some (S n') => rev cur :: split_go fl r (Some c) t [] n'
          | Some O =>
              match cur with
              | [] => split_go fl r (Some c) t [c] 0
              | _ :: _ => rev cur :: split_go fl r (Some c) t [c] 0
              end
          | None => split_go fl r (Some c) t (c :: cur) 0
          end
      end
  end.

Definition split_re (fl : flags) (r : regex) (s : jsstring) : list jsstring :=
  match s with
  | [] => match match_here fl r None [] with Some _ => [] | None => [[]] end
  | _ => split_go fl r None s [] 0
  end.

(** *** Notation for patterns *)

Definition lit_char (c : char) : regex := Cls false [Ch c].

Fixpoint lit_list (cs : list char) : regex :=
  match cs with
  | [] => Eps
  | [c] => lit_char c
  | c :: cs' => Seq (lit_char c) (lit_list cs')
  end.

Definition lit (s : string) : regex := lit_list (js s).

Definition plus (r : regex) : regex := Rep 1 None r.
Definition star (r : regex) : regex := Rep 0 None r.
Definition opt (r : regex) : regex := Rep 0 (Some 1) r.

Fixpoint sequence (rs : list regex) : regex :=
  match rs with
  | [] => Eps
  | [r] => r
  | r :: rs' => Seq r (sequence rs')
  end.

Fixpoint choice (rs : list regex) : regex :=
  match rs with
  | [] => Cls false []
  | [r] => r
  | r :: rs' => Alt r (choice rs')
  end.

Definition digit : regex := Cls false [Dg].
Definition space : regex := Cls false [Sp].

Definition no_flags : flags := {| ignoreCase := false; multiline := false |}.
Definition flags_m : flags := {| ignoreCase := false; multiline := true |}.
Definition flags_i : flags := {| ignoreCase := true; multiline := false |}.
Definition flags_mi : flags := {| ignoreCase := true; multiline := true |}.

End RegExp.
Import RegExp.

(** ** Numbers *)

Module Number.

(** The numbers of the source are binary64 values.  What is computed with them is
    written once over the arithmetic it needs and read at two instances:
    exact rationals, and binary64 itself. *)
Record arith := {
  num : Type;
  of_nat : nat -> num;
  add : num -> num -> num;
  mul : num -> num -> num;
  div : num -> num -> num;
  at_least : nat -> nat -> nat -> bool     (* k >= n * 0.d *)
}.

(** The decimal literal [0.d]: the quotient [d / 10], which in binary64 is
    the value the literal denotes (the division is correctly rounded). *)
Definition dec (A : arith) (d : nat) : num A := div A (of_nat A d) (of_nat A 10).

(** Lengths are far below 2^63, where [of_uint63] is exact. *)
Definition float_of_nat (n : nat) : float :=
  PrimFloat.of_uint63 (Uint63.of_Z (Z.of_nat n)).

(** [k >= n * 0.d] for lengths [k] and [n], as the program computes it. *)
Definition at_least_ratio_binary64 (k n d : nat) : bool :=
  PrimFloat.leb (PrimFloat.mul (float_of_nat n)
                               (PrimFloat.div (float_of_nat d) (float_of_nat 10)))
                (float_of_nat k).

(** [k >= n * 0.d] in exact arithmetic.  The binary64 literals 0.3 and 0.4
    are within 2^-54 of 3/10 and 4/10 in relative terms, so for lengths of
    strings the rounded product [n * 0.d] is on the same side of every
    integer as the exact one (it is that integer when the exact product
    is), and the comparison of the program has the same outcome as this one
    for all lengths below 10^15 (checked on a range of lengths by
    [at_least_ratio_agrees]). *)
Definition at_least_ratio (k n d : nat) : bool := d * n <=? 10 * k.

Definition exact : arith :=
  {| num := Q;
     of_nat := fun n => inject_Z (Z.of_nat n);
     add := Qplus; mul := Qmult; div := Qdiv;
     at_least := at_least_ratio |}.

Definition binary64 : arith :=
  {| num := float;
     of_nat := float_of_nat;
     add := PrimFloat.add; mul := PrimFloat.mul; div := PrimFloat.div;
     at_least := at_least_ratio_binary64 |}.

(** The rational a finite binary64 number denotes (infinities and NaN,
    which the program never computes, read as 0). *)
Definition value (f : float) : Q :=
  match Prim2SF f with
  | S754_finite s m e =>
      let q := (inject_Z (Z.pos m) * Qpower 2 e)%Q in
      if s then Qopp q else q
  | _ => 0%Q
  end.

End Number.
Import Number.

(** ** Text Sanitizer: [cleanOCRText] *)

Module Sanitizer.

Definition name_word : regex :=            (* [A-Z][a-z]+ *)
  Seq (Cls false [Rg 65 90]) (plus (Cls false [Rg 97 122])).

Definition non_word_space : regex := Cls true [Wd; Sp].     (* [^\w\s] *)

(** [/^[^\w\s]{1,2}$/gm] *)
Definition re_noise_short : regex := sequence [Bol; Rep 1 (Some 2) non_word_space; Eol].

(** [/^[^\w\s]{3,}$/gm] *)
Definition re_noise_long : regex := sequence [Bol; Rep 3 None non_word_space; Eol].

(** [/[€@®©™]/g] *)
Definition re_glyphs : regex :=
  Cls false [Ch 0x20AC; Ch 64; Ch 0xAE; Ch 0xA9; Ch 0x2122].

(** [/[\[\]{}]/g] *)
Definition re_brackets : regex := Cls false [Ch 91; Ch 93; Ch 123; Ch 125].

(** [/[""]/g] and [/['']/g]: in the source both members of either class
    are the ASCII quote character that also is the replacement. *)
Definition re_dquotes : regex := Cls false [Ch 34; Ch 34].
Definition re_squotes : regex := Cls false [Ch 39; Ch 39].

(** [/^\d+\s+(others?|comments?)$/gmi] *)
Definition re_count_line : regex :=
  sequence [Bol; plus digit; plus space;
       Alt (Seq (lit "other") (opt (lit "s"))) (Seq (lit "comment") (opt (lit "s")));
       Eol].

(** [/and\s+\d+\s+others?\s+\d+\s+comments?/gi] *)
Definition re_and_others : regex :=
  sequence [lit "and"; plus space; plus digit; plus space; lit "other"; opt (lit "s");
       plus space; plus digit; plus space; lit "comment"; opt (lit "s")].

(** [/^\d+\s+comments?$/gmi] *)
Definition re_comments_line : regex :=
  sequence [Bol; plus digit; plus space; lit "comment"; opt (lit "s"); Eol].

(** [/[A-Z][a-z]+\s+[A-Z][a-z]+\s+[A-Z][a-z]+.*and\s+\d+\s+others.*\d+\s+comments?/gi] *)
Definition re_names_metric : regex :=
  sequence [name_word; plus space; name_word; plus space; name_word; star Dot;
       lit "and"; plus space; plus digit; plus space; lit "others"; star Dot;
       plus digit; plus space; lit "comment"; opt (lit "s")].

(** [/\n{3,}/g] *)
Definition re_blank_lines : regex := Rep 3 None (Cls false [Ch 10]).

(** [/[ \t]+/g] *)
Definition re_blanks : regex := plus (Cls false [Ch 32; Ch 9]).

(** [/[a-zA-Z0-9]/g] *)
Definition re_alnum : regex := Cls false [Rg 97 122; Rg 65 90; Rg 48 57].

(** The array [engagementPatterns], each with its flags. *)
Definition engagementPatterns : list (flags * regex) :=
  [ (* /^\d+\s*(like|comment|share|repost)/i *)
    (flags_i, sequence [Bol; plus digit; star space;
                 choice [lit "like"; lit "comment"; lit "share"; lit "repost"]]);
    (* /^(like|comment|share|repost|send)$/i *)
    (flags_i, sequence [Bol;
                 choice [lit "like"; lit "comment"; lit "share"; lit "repost"; lit "send"];
                 Eol]);
    (* /^[^\w]*$/ *)
    (no_flags, sequence [Bol; star (Cls true [Wd]); Eol]);
    (* /^[A-Z][a-z]+\s+[A-Z][a-z]+\s+and\s+\d+\s+others/i *)
    (flags_i, sequence [Bol; name_word; plus space; name_word; plus space; lit "and";
                 plus space; plus digit; plus space; lit "others"]) ].

(** [(line.match(/[a-zA-Z0-9]/g) || []).length] *)
Definition wordChars_length (line : jsstring) : nat :=
  length (match_all no_flags re_alnum line).

(** The density filter of the first line pass, with its comparison in
    exact arithmetic. *)
Definition keep_line (line : jsstring) : bool :=
  if length line <? 3 then false
  else at_least_ratio (wordChars_length line) (length line) 3.

(** The filter of the second line pass. *)
Definition keep_final (line : jsstring) : bool :=
  let trimmed := trim line in
  match trimmed with
  | [] => false
  | _ => negb (existsb (fun p => test (fst p) (snd p) trimmed) engagementPatterns)
  end.

(** The text after the replacements that precede the first line pass. *)
Definition strip_patterns (text : jsstring) : jsstring :=
  let cleaned := text in
  let cleaned := replace_all flags_m re_noise_short [] cleaned in
  let cleaned := replace_all flags_m re_noise_long [] cleaned in
  let cleaned := replace_all no_flags re_glyphs [] cleaned in
  let cleaned := replace_all no_flags re_brackets [] cleaned in
  let cleaned := replace_all no_flags re_dquotes [34%N] cleaned in
  let cleaned := replace_all no_flags re_squotes [39%N] cleaned in
  let cleaned := replace_all flags_mi re_count_line [] cleaned in
  let cleaned := replace_all flags_i re_and_others [] cleaned in
  let cleaned := replace_all flags_mi re_comments_line [] cleaned in
  replace_all flags_i re_names_metric [] cleaned.

(** The lines kept by the first line pass. *)
Definition dense_lines (cleaned : jsstring) : list jsstring :=
  filter keep_line (map trim (split_nl cleaned)).

(** The whitespace clean-up between the two line passes. *)
Definition squeeze_whitespace (cleaned : jsstring) : jsstring :=
  let cleaned := replace_all no_flags re_blank_lines [NL; NL] cleaned in
  let cleaned := replace_all no_flags re_blanks [32%N] cleaned in
  trim cleaned.

(** The lines kept by the second line pass. *)
Definition final_lines (cleaned : jsstring) : list jsstring :=
  filter keep_final (split_nl cleaned).

Definition cleanOCRText (text : jsstring) : jsstring :=
  let cleaned := strip_patterns text in
  let cleaned := join_nl (dense_lines cleaned) in
  let cleaned := squeeze_whitespace cleaned in
  let cleaned := join_nl (final_lines cleaned) in
  trim cleaned.

End Sanitizer.
Import Sanitizer.

(** ** Quality Scorer: [scoreOCRQuality] *)

Module Scorer.

Definition sum_lengths (words : list jsstring) : nat :=
  fold_left (fun sum w => sum + length w) words 0.

Definition scoreOCRQuality_in (A : arith) (text : jsstring) : num A :=
  match text with
  | [] => of_nat A 0
  | _ =>
      let words := filter (fun w => 0 <? length w) (split_re no_flags (plus space) text) in
      match words with
      | [] => of_nat A 0
      | _ =>
          let avgWordLength :=
            div A (of_nat A (sum_lengths words)) (of_nat A (length words)) in
          let reasonableWords :=
            length (filter (fun w => (3 <=? length w) && (length w <=? 20)) words) in
          let reasonableRatio :=
            div A (of_nat A reasonableWords) (of_nat A (length words)) in
          let lines := filter (fun l => 0 <? length (trim l)) (split_nl text) in
          let meaningfulLines :=
            length (filter (fun l => at_least A (wordChars_length l) (length l) 4)
                           lines) in
          let meaningfulRatio :=
            if 0 <? length lines
            then div A (of_nat A meaningfulLines) (of_nat A (length lines))
            else of_nat A 0 in
          add A (add A (mul A (div A avgWordLength (of_nat A 10)) (dec A 3))
                       (mul A reasonableRatio (dec A 4)))
                (mul A meaningfulRatio (dec A 3))
      end
  end.

(** The score as the program computes it. *)
Definition scoreOCRQuality (text : jsstring) : float := scoreOCRQuality_in binary64 text.

(** The score read in exact arithmetic. *)
Definition scoreOCRQuality_exact (text : jsstring) : Q := scoreOCRQuality_in exact text.

End Scorer.
Import Scorer.

(** ** Effects: exceptions and calls to the outside *)

Module Effects.

(** A thrown [Error] is modelled by its [message]. *)
Inductive result (A : Type) :=
  | Ok (a : A)
  | Throw (message : jsstring).
Arguments Ok {A} a.
Arguments Throw {A} message.

(** Calls that leave the program, recorded in the order they are made. *)
Inductive event :=
  | EvCreateWorker (lang : jsstring)
  | EvSetParameters (pageseg_mode engine_mode : jsstring)
  | EvRecognize (imagePath : jsstring)
  | EvTerminate
  | EvUnlink (path : jsstring)
  | EvMetadata (path : jsstring)
  | EvToFile (inputPath outputPath : jsstring)
  | EvReadFile (path : jsstring)
  | EvPdfParse (relaxed : bool).

(** How a call ended. *)
Inductive outcome := Returned | Threw.

Definition outcome_of {A} (r : result A) : outcome :=
  match r with
  | Ok _ => Returned
  | Throw _ => Threw
  end.

(** The log of the outside calls made so far, each with how it ended. *)
Definition log := list (event * outcome).

Section Monad.

Variable World : Type.

(** A computation runs in a world (the state of everything outside the
    program) and appends to the log of outside calls. *)
Definition M (A : Type) : Type := World * log -> result A * (World * log).

Definition ret {A} (a : A) : M A := fun st => (Ok a, st).

Definition throw {A} (message : jsstring) : M A := fun st => (Throw message, st).

Definition bind {A B} (m : M A) (k : A -> M B) : M B :=
  fun st =>
    match m st with
    | (Ok a, st') => k a st'
    | (Throw e, st') => (Throw e, st')
    end.

(** [try { m } catch (error) { handler(error.message) }] *)
Definition try_catch {A} (m : M A) (handler : jsstring -> M A) : M A :=
  fun st =>
    match m st with
    | (Ok a, st') => (Ok a, st')
    | (Throw e, st') => handler e st'
    end.

(** [promise.catch(() => {})] *)
Definition swallow (m : M unit) : M unit := try_catch m (fun _ => ret tt).

(** A call to the outside: it may change the world, may throw, and is
    logged. *)
Definition call {A} (ev : event) (op : World -> result A * World) : M A :=
  fun st =>
    let (r, w') := op (fst st) in (r, (w', snd st ++ [(ev, outcome_of r)])).

End Monad.

Arguments ret {World A} a.
Arguments throw {World A} message.
Arguments bind {World A B} m k.
Arguments try_catch {World A} m handler.
Arguments swallow {World} m.
Arguments call {World A} ev op.

End Effects.
Import Effects.

Declare Scope js_scope.
Delimit Scope js_scope with js.
Notation "x <- m ;; k" := (bind m (fun x => k))
  (at level 61, m at next level, right associativity) : js_scope.
Notation "m ;;; k" := (bind m (fun _ => k))
  (at level 61, right associativity) : js_scope.

(** ** The OCR path: [utils/ocrExtractor.js]

    The calls to [console] are left out; they return nothing and do not
    throw. *)

Module Ocr.

(** [metadata.width], absent for some inputs. *)
Record metadata := { width : option N }.

(** The steps of a sharp pipeline. *)
Inductive sharp_op :=
  | Greyscale
  | Normalize
  | Sharpen (sigma flat jagged : Q)
  | Linear (a b : Q)
  | Median (size : N)
  | ResizeLanczos3 (width : N).

(** The sharp library: what [metadata()] and [toFile()] do to the world. *)
Record Sharp (World : Type) := {
  sharp_metadata : jsstring -> World -> result metadata * World;
  sharp_toFile : jsstring -> list sharp_op -> jsstring -> World -> result unit * World
}.

(** One entry of [configurations]. *)
Record configuration := {
  name : jsstring;
  tessedit_pageseg_mode : jsstring;
  tessedit_ocr_engine_mode : jsstring
}.

(** tesseract.js and [fs.promises], as far as the OCR path uses them. *)
Record Runtime (World : Type) := {
  sharp : option (Sharp World);      (* null when [require('sharp')] failed *)
  createWorker : jsstring -> World -> result unit * World;
  setParameters : jsstring -> jsstring -> World -> result unit * World;
  recognize : jsstring -> World -> result jsstring * World;
  terminate : World -> result unit * World;
  unlink : jsstring -> World -> result unit * World
}.

(** An element of [results].  The [quality] is a finite binary64 number,
    kept as the rational it denotes. *)
Record candidate := {
  text : jsstring;
  quality : Q;
  config : jsstring
}.

Definition configurations : list configuration :=
  [ {| name := js "PSM 6 - Single Block";
       tessedit_pageseg_mode := js "6"; tessedit_ocr_engine_mode := js "1" |};
    {| name := js "PSM 3 - Auto";
       tessedit_pageseg_mode := js "3"; tessedit_ocr_engine_mode := js "1" |};
    {| name := js "PSM 11 - Sparse";
       tessedit_pageseg_mode := js "11"; tessedit_ocr_engine_mode := js "1" |};
    {| name := js "PSM 6 - Legacy";
       tessedit_pageseg_mode := js "6"; tessedit_ocr_engine_mode := js "0" |} ].

(** [Math.max(2, Math.ceil(1000 / width))] for a width in 1..999. *)
Definition scaleFactor (w : N) : N := N.max 2 ((1000 + w - 1) / w).

(** The pipeline built by [preprocessImage]. *)
Definition pipeline_for (md : metadata) : list sharp_op :=
  [Greyscale; Normalize; Sharpen 1 1 2; Linear (12 # 10) (- (128 * (2 # 10)))%Q; Median 2]
  ++ match width md with
     | Some w =>
         if negb (w =? 0)%N && (w <? 1000)%N
         then [ResizeLanczos3 (w * scaleFactor w)]
         else []
     | None => []
     end.

(** [results.sort(compare)]: the sort of the language is stable, so with a
    comparator that orders consistently the result is the stable ordering,
    whichever algorithm the engine runs.  [compare a b <= 0] keeps [a]
    before [b]. *)
Fixpoint insert_by {A} (compare : A -> A -> Q) (a : A) (sorted : list A) : list A :=
  match sorted with
  | [] => [a]
  | b :: rest =>
      if Qle_bool (compare a b) 0 then a :: sorted
      else b :: insert_by compare a rest
  end.

Fixpoint sort_by {A} (compare : A -> A -> Q) (l : list A) : list A :=
  match l with
  | [] => []
  | a :: rest => insert_by compare a (sort_by compare rest)
  end.

(** [(a, b) => b.quality - a.quality]: the exact difference, whose sign is
    that of the rounded difference of the two binary64 numbers. *)
Definition by_quality (a b : candidate) : Q := (quality b - quality a)%Q.

(** [/\.[^.]+$/] *)
Definition re_extension : regex := sequence [lit "."; plus (Cls true [Ch 46]); Eol].

Definition msg_no_text : jsstring := js "No text could be extracted from the image".
Definition msg_failed_prefix : jsstring := js "Failed to extract text from image: ".

(** The selection step: sort, take the first, check it. *)
Definition select (results : list candidate) : result jsstring :=
  match sort_by by_quality results with
  | [] => Throw msg_no_text
  | bestResult :: _ =>
      if length (text bestResult) =? 0 then Throw msg_no_text
      else Ok (text bestResult)
  end.

Section Pipeline.

Variable World : Type.
Variable rt : Runtime World.

Local Open Scope js_scope.

Definition preprocessImage (inputPath outputPath : jsstring) : M World jsstring :=
  match sharp rt with
  | None => ret inputPath
  | Some lib =>
      try_catch
        (md <- call (EvMetadata inputPath) (sharp_metadata lib inputPath) ;;
         call (EvToFile inputPath outputPath)
              (sharp_toFile lib inputPath (pipeline_for md) outputPath) ;;;
         ret outputPath)
        (fun _ => ret inputPath)
  end.

(** The body of the [for] loop: one configuration, with its own [try]. *)
Definition attempt (imagePath : jsstring) (results : list candidate)
    (cfg : configuration) : M World (list candidate) :=
  try_catch
    (call (EvSetParameters (tessedit_pageseg_mode cfg) (tessedit_ocr_engine_mode cfg))
          (setParameters rt (tessedit_pageseg_mode cfg) (tessedit_ocr_engine_mode cfg)) ;;;
     raw <- call (EvRecognize imagePath) (recognize rt imagePath) ;;
     let cleanedText := cleanOCRText raw in
     let quality := value (scoreOCRQuality cleanedText) in
     ret (results ++ [ {| text := cleanedText; quality := quality; config := name cfg |} ]))
    (fun _ => ret results).

Fixpoint run_configurations (imagePath : jsstring) (cfgs : list configuration)
    (results : list candidate) : M World (list candidate) :=
  match cfgs with
  | [] => ret results
  | cfg :: rest =>
      results' <- attempt imagePath results cfg ;;
      run_configurations imagePath rest results'
  end.

(** [if (preprocessedPath && preprocessedPath !== filePath) unlink(...)] *)
Definition cleanup (preprocessedPath filePath : jsstring) : M World unit :=
  if negb (length preprocessedPath =? 0)
     && negb (str_eqb preprocessedPath filePath)
  then swallow (call (EvUnlink preprocessedPath) (unlink rt preprocessedPath))
  else ret tt.

Definition lift {A} (r : result A) : M World A :=
  match r with
  | Ok a => ret a
  | Throw e => throw e
  end.

Definition extractTextFromImage (filePath : jsstring) : M World jsstring :=
  call (EvCreateWorker (js "eng")) (createWorker rt (js "eng")) ;;;
  let preprocessedPath :=
    replace_first no_flags re_extension (js "_preprocessed.png") filePath in
  try_catch
    (imagePath <- preprocessImage filePath preprocessedPath ;;
     results <- run_configurations imagePath configurations [] ;;
     best <- lift (select results) ;;
     call EvTerminate (terminate rt) ;;;
     cleanup preprocessedPath filePath ;;;
     ret best)
    (fun message =>
       call EvTerminate (terminate rt) ;;;
       cleanup preprocessedPath filePath ;;;
       throw (msg_failed_prefix ++ message)).

End Pipeline.

End Ocr.

(** ** The PDF path: [utils/pdfExtractor.js]

    The call to [console.log] is left out. *)

Module Pdf.

(** [fs.promises.readFile] and [pdfParse].  A parse answers with
    [data.text]; [None] stands for a [data] without text. *)
Record Runtime (World : Type) := {
  readFile : jsstring -> World -> result jsstring * World;
  pdfParse : jsstring -> bool -> World -> result (option jsstring) * World
}.

Definition mentions_xref (message : jsstring) : bool :=
  includes (js "XRef") message || includes (js "xref") message.

Definition mentions_password (message : jsstring) : bool :=
  includes (js "password") message || includes (js "encrypted") message.

Definition msg_corrupted (parseMessage : jsstring) : jsstring :=
  js "PDF appears to be corrupted or uses unsupported features. "
  ++ js "Error: " ++ parseMessage ++ js ". "
  ++ js "Please try converting the PDF to a standard format or use an image version of the document.".

Definition msg_no_text : jsstring :=
  js "No text could be extracted from the PDF. The PDF may contain only images.".

Definition hint_image : jsstring :=
  js "Please try uploading as an image file instead.".

Definition msg_no_extractable : jsstring :=
  js "PDF appears to contain no extractable text. "
  ++ js "It may be an image-based PDF. " ++ hint_image.

Definition hint_structural : jsstring :=
  js "Try: 1) Re-saving the PDF, 2) Converting to an image and uploading as PNG/JPEG, or 3) Using a different PDF file.".

Definition msg_structural (message : jsstring) : jsstring :=
  js "PDF parsing error: The PDF file appears to have structural issues ("
  ++ message ++ js "). "
  ++ js "This can happen with corrupted PDFs or PDFs created with certain software. "
  ++ hint_structural.

Definition hint_password : jsstring := js "Please remove the password and try again.".

Definition msg_password : jsstring :=
  js "PDF is password-protected or encrypted. " ++ hint_password.

Definition msg_failed (message : jsstring) : jsstring :=
  js "Failed to extract text from PDF: " ++ message.

(** The message chosen by the outer [catch]. *)
Definition failure_message (message : jsstring) : jsstring :=
  if mentions_xref message then msg_structural message
  else if mentions_password message then msg_password
  else msg_failed message.

(** The whitespace clean-up: [text.replace(/\n{3,}/g, '\n\n').trim()]. *)
Definition normalize (text : jsstring) : jsstring :=
  trim (replace_all no_flags re_blank_lines [NL; NL] text).

Section Extractor.

Variable World : Type.
Variable rt : Runtime World.

Local Open Scope js_scope.

(** The inner [try]: the default parse and, on an XRef error, one more. *)
Definition parse (dataBuffer : jsstring) : M World (option jsstring) :=
  try_catch
    (call (EvPdfParse false) (pdfParse rt dataBuffer false))
    (fun parseMessage =>
       if mentions_xref parseMessage then
         try_catch
           (call (EvPdfParse true) (pdfParse rt dataBuffer true))
           (fun _ => throw (msg_corrupted parseMessage))
       else throw parseMessage).

Definition extractTextFromPDF (filePath : jsstring) : M World jsstring :=
  try_catch
    (dataBuffer <- call (EvReadFile filePath) (readFile rt filePath) ;;
     data <- parse dataBuffer ;;
     match data with
     | None | Some [] => throw msg_no_text
     | Some text =>
         let text := normalize text in
         if length text =? 0 then throw msg_no_extractable else ret text
     end)
    (fun message => throw (failure_message message)).

End Extractor.

End Pdf.

(** ** The upload route: [routes/upload.js]

    The handler of [POST /api/upload], after multer has stored the upload.
    The calls to [console] are left out. *)

Module Upload.

(** The values the handler puts into a response body. *)
Inductive json :=
  | JString (s : jsstring)
  | JBool (b : bool).

(** How the handler ends: [res.status(status).json(body)], the body with
    its keys in the order of the object literal, or [next(error)]. *)
Inductive answer :=
  | Respond (status : nat) (body : list (jsstring * json))
  | Next (message : jsstring).

(** [req.file], as far as the handler reads it. *)
Record file := {
  path : jsstring;
  originalname : jsstring
}.

(** [path.extname] of Node and [toLowerCase] of the language. *)
Record Library := {
  extname : jsstring -> jsstring;
  toLowerCase : jsstring -> jsstring
}.

(** What the two extractors run on; [fs.promises.unlink] is the one of the
    OCR runtime. *)
Record Runtime (World : Type) := {
  ocr : Ocr.Runtime World;
  pdf : Pdf.Runtime World
}.

Definition msg_no_file : jsstring := js "No file uploaded".

Definition suggestion_structural : jsstring :=
  js "This PDF appears to have structural issues. Try converting it to an image (PNG/JPEG) and uploading that instead, or re-save the PDF using a different PDF creator.".

Definition msg_unsupported : jsstring := js "Unsupported file type".

Definition msg_no_text : jsstring := js "No text could be extracted from the file".

Definition suggestion_pdf : jsstring :=
  js "The PDF may contain only images. Try converting it to an image file and uploading that instead.".

Definition suggestion_image : jsstring :=
  js "The image may not contain readable text, or the text may be too small or unclear.".

(** [fileExtension === '.pdf'] *)
Definition is_pdf (fileExtension : jsstring) : bool := str_eqb fileExtension (js ".pdf").

(** [['.png', '.jpg', '.jpeg'].includes(fileExtension)] *)
Definition is_image (fileExtension : jsstring) : bool :=
  existsb (fun known => str_eqb known fileExtension) [js ".png"; js ".jpg"; js ".jpeg"].

(** The body sent for a PDF the extractor found broken. *)
Definition structural_body (message : jsstring) : list (jsstring * json) :=
  [ (js "error", JString message); (js "suggestion", JString suggestion_structural) ].

(** The end of the [try] block: the check of the extracted text and the
    response. *)
Definition respond (f : file) (fileExtension extractionMethod extractedText : jsstring)
    : answer :=
  if (length extractedText =? 0) || (length (trim extractedText) =? 0) then
    Respond 400
      [ (js "error", JString msg_no_text);
        (js "suggestion",
         JString (if is_pdf fileExtension then suggestion_pdf else suggestion_image)) ]
  else
    Respond 200
      [ (js "success", JBool true);
        (js "fileName", JString (originalname f));
        (js "fileType", JString (if is_pdf fileExtension then js "pdf" else js "image"));
        (js "extractedText", JString extractedText);
        (js "extractionMethod", JString extractionMethod) ].

Section Handler.

Variable World : Type.
Variable lib : Library.
Variable rt : Runtime World.

Local Open Scope js_scope.

(** The choice of the extractor.  [inl] is a [return] out of the handler,
    [inr] the value of [extractedText]. *)
Definition extract (filePath fileExtension : jsstring) : M World (answer + jsstring) :=
  if is_pdf fileExtension then
    try_catch
      (extractedText <- Pdf.extractTextFromPDF (pdf rt) filePath ;;
       ret (inr extractedText))
      (fun message =>
         if includes (js "XRef") message || includes (js "corrupted") message
         then ret (inl (Respond 400 (structural_body message)))
         else throw message)
  else if is_image fileExtension then
    extractedText <- Ocr.extractTextFromImage (ocr rt) filePath ;;
    ret (inr extractedText)
  else
    call (EvUnlink filePath) (Ocr.unlink (ocr rt) filePath) ;;;
    ret (inl (Respond 400 [ (js "error", JString msg_unsupported) ])).

(** The handler; [req_file] is [req.file], absent when no file came. *)
Definition handler (req_file : option file) : M World answer :=
  try_catch
    (match req_file with
     | None => ret (Respond 400 [ (js "error", JString msg_no_file) ])
     | Some f =>
         let filePath := path f in
         let fileExtension := toLowerCase lib (extname lib (originalname f)) in
         let extractionMethod := if is_pdf fileExtension then js "pdf" else js "ocr" in
         outcome <- extract filePath fileExtension ;;
         match outcome with
         | inl early => ret early
         | inr extractedText =>
             swallow (call (EvUnlink filePath) (Ocr.unlink (ocr rt) filePath)) ;;;
             ret (respond f fileExtension extractionMethod extractedText)
         end
     end)
    (fun message =>
       match req_file with
       | Some f =>
           if negb (length (path f) =? 0)
           then swallow (call (EvUnlink (path f)) (Ocr.unlink (ocr rt) (path f)))
           else ret tt
       | None => ret tt
       end ;;;
       ret (Next message)).

End Handler.

End Upload.

(** ** The error handler of [server.js]

    An error is its message here, so [err.status] is absent, as it is for
    the errors the extractors make with [new Error]. *)

Module Server.

Definition msg_internal : jsstring := js "Internal server error".

(** [res.status(err.status || 500).json({ error: err.message || '...' })] *)
Definition errorHandler (message : jsstring) : Upload.answer :=
  Upload.Respond 500
    [ (js "error",
       Upload.JString (if length message =? 0 then msg_internal else message)) ].

(** What the client of [POST /api/upload] is sent. *)
Definition upload (World : Type) (lib : Upload.Library) (rt : Upload.Runtime World)
    (req_file : option Upload.file) : M World Upload.answer :=
  bind (Upload.handler lib rt req_file)
       (fun a => match a with
                 | Upload.Next message => ret (errorHandler message)
                 | Upload.Respond _ _ => ret a
                 end).

End Server.

(** * Notions the properties are stated with *)

Module Notions.

(** [subseq a b]: [a] is [b] with some code units deleted. *)
Inductive subseq {A : Type} : list A -> list A -> Prop :=
  | subseq_nil : subseq [] []
  | subseq_drop : forall x a b, subseq a b -> subseq a (x :: b)
  | subseq_keep : forall x a b, subseq a b -> subseq (x :: a) (x :: b).

(** The first, or the last, code unit is there and is no white space. *)
Definition starts_tight (l : jsstring) : Prop :=
  exists c t, l = c :: t /\ is_space c = false.

Definition ends_tight (l : jsstring) : Prop :=
  exists t c, l = t ++ [c] /\ is_space c = false.

(** A non-empty string with no white space at either end. *)
Definition tight (l : jsstring) : Prop := starts_tight l /\ ends_tight l.

(** Without a line feed. *)
Definition nl_free (l : jsstring) : Prop := Forall (fun c => (c =? NL)%N = false) l.

(** Lines dropped, lines shortened. *)
Inductive sub_lines : list jsstring -> list jsstring -> Prop :=
  | sub_lines_nil : forall ls, sub_lines [] ls
  | sub_lines_drop : forall (l : jsstring) ls' ls,
      sub_lines ls' ls -> sub_lines ls' (l :: ls)
  | sub_lines_keep : forall (l' l : jsstring) ls' ls,
      subseq l' l -> sub_lines ls' ls -> sub_lines (l' :: ls') (l :: ls).

(** A matcher hands its continuation a suffix of its input only, so two
    continuations that agree on strings no longer than the input are
    interchangeable. *)
Definition local (m : matcher) : Prop :=
  forall prev s (k1 k2 : cont),
    (forall p s', length s' <= length s -> k1 p s' = k2 p s') ->
    m prev s k1 = m prev s k2.

(** The length of the longest prefix of [s] within [P]. *)
Fixpoint prefix_len (P : char -> bool) (s : jsstring) : nat :=
  match s with
  | c :: t => if P c then S (prefix_len P t) else 0
  | [] => 0
  end.

(** Membership in [[ \t]] and in [[\n]]. *)
Definition is_blank : char -> bool := cls_match no_flags false [Ch 32; Ch 9].
Definition is_nl : char -> bool := cls_match no_flags false [Ch 10].

(** Every run of blanks becomes one space; [in_run] tells that the code
    unit before was a blank. *)
Fixpoint collapse_blanks_aux (in_run : bool) (s : jsstring) : jsstring :=
  match s with
  | [] => []
  | c :: t =>
      if is_blank c then
        if in_run then collapse_blanks_aux true t
        else 32%N :: collapse_blanks_aux true t
      else c :: collapse_blanks_aux false t
  end.

Definition collapse_blanks (s : jsstring) : jsstring := collapse_blanks_aux false s.

(** No three line feeds in a row, anywhere. *)
Fixpoint short_nl_runs (s : jsstring) : Prop :=
  match s with
  | [] => True
  | _ :: t => prefix_len is_nl s <= 2 /\ short_nl_runs t
  end.

(** The number of code units in [[a-zA-Z0-9]]. *)
Definition count_alnum (l : jsstring) : nat := length (filter is_alnum l).

(** What the density filter asks of a line. *)
Definition dense (l : jsstring) : Prop :=
  3 <= length l /\ 3 * length l <= 10 * count_alnum l.

(** TAB read as SPACE. *)
Definition tab_as_space (c : char) : char := if (c =? 9)%N then 32%N else c.

(** What the lines between the two passes have in common. *)
Definition solid (l : jsstring) : Prop := tight l /\ dense l /\ nl_free l.

(** The lines of the result: the dense lines of the stripped text, their
    blanks collapsed, without those the second pass rejects. *)
Definition result_lines (text : jsstring) : list jsstring :=
  filter keep_final (map collapse_blanks (dense_lines (strip_patterns text))).

(** Descending by quality. *)
Definition descending : list Ocr.candidate -> Prop :=
  StronglySorted (fun a b => (Ocr.quality b <= Ocr.quality a)%Q).

(** The candidates of quality [q]. *)
Definition of_quality (q : Q) (l : list Ocr.candidate) : list Ocr.candidate :=
  filter (fun c => Qeq_bool (Ocr.quality c) q) l.

(** The [setParameters] calls in a log, in order. *)
Definition is_setParameters (entry : event * outcome) : bool :=
  match fst entry with
  | EvSetParameters _ _ => true
  | _ => false
  end.

(** The [recognize] calls that returned. *)
Definition is_recognized (entry : event * outcome) : bool :=
  match entry with
  | (EvRecognize _, Returned) => true
  | _ => false
  end.

(** The [setParameters] call for a configuration. *)
Definition setParameters_event (cfg : Ocr.configuration) : event :=
  EvSetParameters (Ocr.tessedit_pageseg_mode cfg) (Ocr.tessedit_ocr_engine_mode cfg).

(** The candidate a configuration yields from the raw text [raw]. *)
Definition candidate_of (cfg : Ocr.configuration) (raw : jsstring) : Ocr.candidate :=
  {| Ocr.text := cleanOCRText raw;
     Ocr.quality := value (scoreOCRQuality (cleanOCRText raw));
     Ocr.config := Ocr.name cfg |}.

(** A candidate as the recognition loop builds it. *)
Definition produced (c : Ocr.candidate) : Prop :=
  exists raw, Ocr.text c = cleanOCRText raw
              /\ Ocr.quality c = value (scoreOCRQuality (Ocr.text c)).

(** The [pdfParse] calls in a log, in order. *)
Definition pdfParse_calls (evs : log) : list bool :=
  flat_map (fun entry => match fst entry with
                         | EvPdfParse relaxed => [relaxed]
                         | _ => []
                         end) evs.

(** What [extractTextFromPDF] does with the outcome of the parses. *)
Definition finish (data : option jsstring) : result jsstring :=
  match data with
  | None | Some [] => Throw (Pdf.failure_message Pdf.msg_no_text)
  | Some text =>
      if length (Pdf.normalize text) =? 0 then Throw (Pdf.failure_message Pdf.msg_no_extractable)
      else Ok (Pdf.normalize text)
  end.

End Notions.
Import Notions.

(** * Concrete runtimes *)

Module Examples.

(** An OCR runtime without sharp in which nothing fails and every
    recognition reads the same text. *)
Definition reading (raw : jsstring) : Ocr.Runtime unit :=
  {| Ocr.sharp := None;
     Ocr.createWorker := fun _ w => (Ok tt, w);
     Ocr.setParameters := fun _ _ w => (Ok tt, w);
     Ocr.recognize := fun _ w => (Ok raw, w);
     Ocr.terminate := fun w => (Ok tt, w);
     Ocr.unlink := fun _ w => (Ok tt, w) |}.

(** An OCR runtime in which every recognition throws. *)
Definition blind : Ocr.Runtime unit :=
  {| Ocr.sharp := None;
     Ocr.createWorker := fun _ w => (Ok tt, w);
     Ocr.setParameters := fun _ _ w => (Ok tt, w);
     Ocr.recognize := fun _ w => (Throw (js "recognition failed"), w);
     Ocr.terminate := fun w => (Ok tt, w);
     Ocr.unlink := fun _ w => (Ok tt, w) |}.

(** An OCR runtime whose world tells whether the legacy engine is set;
    recognition throws with the legacy engine and reads a text otherwise. *)
Definition without_legacy : Ocr.Runtime bool :=
  {| Ocr.sharp := None;
     Ocr.createWorker := fun _ w => (Ok tt, w);
     Ocr.setParameters := fun _ engine_mode _ => (Ok tt, str_eqb engine_mode (js "0"));
     Ocr.recognize := fun _ legacy =>
       (if legacy then Throw (js "legacy engine not available")
        else Ok (js "Hello World"), legacy);
     Ocr.terminate := fun w => (Ok tt, w);
     Ocr.unlink := fun _ w => (Ok tt, w) |}.

(** A sharp whose [toFile] throws. *)
Definition broken_sharp : Ocr.Sharp unit :=
  {| Ocr.sharp_metadata := fun _ w => (Ok {| Ocr.width := Some 500%N |}, w);
     Ocr.sharp_toFile := fun _ _ _ w => (Throw (js "unsupported image format"), w) |}.

Definition with_broken_sharp : Ocr.Runtime unit :=
  {| Ocr.sharp := Some broken_sharp;
     Ocr.createWorker := fun _ w => (Ok tt, w);
     Ocr.setParameters := fun _ _ w => (Ok tt, w);
     Ocr.recognize := fun _ w => (Ok (js "Hello World"), w);
     Ocr.terminate := fun w => (Ok tt, w);
     Ocr.unlink := fun _ w => (Ok tt, w) |}.

(** A PDF runtime whose parser throws [message], on both attempts. *)
Definition unparsable (message : jsstring) : Pdf.Runtime unit :=
  {| Pdf.readFile := fun _ w => (Ok [], w);
     Pdf.pdfParse := fun _ _ w => (Throw message, w) |}.

(** A PDF runtime whose parser answers with [text]. *)
Definition parsed (text : jsstring) : Pdf.Runtime unit :=
  {| Pdf.readFile := fun _ w => (Ok [], w);
     Pdf.pdfParse := fun _ _ w => (Ok (Some text), w) |}.

Definition two_even_candidates : list Ocr.candidate :=
  [ {| Ocr.text := js "first"; Ocr.quality := 1 # 2; Ocr.config := js "PSM 6 - Single Block" |};
    {| Ocr.text := js "second"; Ocr.quality := 2 # 4; Ocr.config := js "PSM 3 - Auto" |};
    {| Ocr.text := js "third"; Ocr.quality := 1 # 4; Ocr.config := js "PSM 11 - Sparse" |} ].

End Examples.

Create HintDb subseq.
#[export] Hint Constructors subseq : subseq.

(** * Further notions: texts, traces and requests *)

Module Texts.

(** Blanks come one at a time, and each is a space. *)
Fixpoint single_spaced (s : jsstring) : Prop :=
  match s with
  | [] => True
  | c :: t =>
      (is_blank c = true -> c = 32%N /\ prefix_len is_blank t = 0) /\ single_spaced t
  end.

(** The code units the sanitizer deletes wherever they stand: the members
    of [[€@®©™]] and of [[\[\]{}]]. *)
Definition stripped_symbols : list char :=
  [0x20AC; 64; 0xAE; 0xA9; 0x2122; 91; 93; 123; 125]%N.

(** The code units of a text other than its line feeds. *)
Definition without_nl (s : jsstring) : jsstring := filter (fun c => negb (is_nl c)) s.

(** The code units of a text other than its white space. *)
Definition without_space (s : jsstring) : jsstring :=
  filter (fun c => negb (is_space c)) s.

(** Membership in [[\s]]. *)
Definition is_sp : char -> bool := cls_match no_flags false [Sp].

(** The array [words] of the scorer. *)
Definition words (text : jsstring) : list jsstring :=
  filter (fun w => 0 <? length w) (split_re no_flags (plus space) text).

(** [preprocessedPath] of the OCR extractor. *)
Definition preprocessedPath (filePath : jsstring) : jsstring :=
  replace_first no_flags Ocr.re_extension (js "_preprocessed.png") filePath.

(** The five steps every preprocessing pipeline starts with: greyscale,
    normalize, sharpen with sigma 1, flat 1 and jagged 2, the linear map
    of factor 1.2 and offset -(128 * 0.2), and the median of size 2. *)
Definition fixed_steps : list Ocr.sharp_op :=
  [ Ocr.Greyscale; Ocr.Normalize; Ocr.Sharpen 1 1 2;
    Ocr.Linear (12 # 10) (- (128 * (2 # 10)))%Q; Ocr.Median 2 ].

End Texts.
Import Texts.

Module Traces.

(** The calls a computation adds to the log are within [P], whatever the
    state it starts in. *)
Definition emits {World A : Type} (P : event * outcome -> bool) (m : M World A) : Prop :=
  forall st, exists evs, snd (snd (m st)) = snd st ++ evs /\ forallb P evs = true.

(** The calls by which the OCR extractor works on the image. *)
Definition is_work (entry : event * outcome) : bool :=
  match fst entry with
  | EvMetadata _ | EvToFile _ _ | EvSetParameters _ _ | EvRecognize _ => true
  | _ => false
  end.

Definition is_terminate (entry : event * outcome) : bool :=
  match fst entry with
  | EvTerminate => true
  | _ => false
  end.

(** The calls of the PDF extractor. *)
Definition is_pdf_call (entry : event * outcome) : bool :=
  match fst entry with
  | EvReadFile _ | EvPdfParse _ => true
  | _ => false
  end.

(** [unlink] of the file [p]. *)
Definition is_unlink_of (p : jsstring) (entry : event * outcome) : bool :=
  match fst entry with
  | EvUnlink q => str_eqb q p
  | _ => false
  end.

(** The calls of the OCR extractor on [filePath]: the worker's, sharp's,
    and [unlink] of a file other than [filePath]. *)
Definition is_ocr_call (filePath : jsstring) (entry : event * outcome) : bool :=
  match fst entry with
  | EvCreateWorker _ | EvTerminate => true
  | EvUnlink q => negb (str_eqb q filePath)
  | _ => is_work entry
  end.

End Traces.
Import Traces.

Module Requests.

(** The body [{ error: message }]. *)
Definition error_body (message : jsstring) : list (jsstring * Upload.json) :=
  [ (js "error", Upload.JString message) ].

(** The body of the response that carries the extracted text. *)
Definition success_body (fileName fileType extractedText extractionMethod : jsstring)
  : list (jsstring * Upload.json) :=
  [ (js "success", Upload.JBool true);
    (js "fileName", Upload.JString fileName);
    (js "fileType", Upload.JString fileType);
    (js "extractedText", Upload.JString extractedText);
    (js "extractionMethod", Upload.JString extractionMethod) ].

(** [fileExtension] of the handler. *)
Definition fileExtension (lib : Upload.Library) (f : Upload.file) : jsstring :=
  Upload.toLowerCase lib (Upload.extname lib (Upload.originalname f)).

(** How often a log has [unlink] of the file [p]. *)
Definition unlinks_of (p : jsstring) (evs : log) : nat :=
  length (filter (is_unlink_of p) evs).

(** The calls the handler may make for an upload stored at [p], by the
    extension of its name: those of the one extractor it chooses, and
    [unlink] of [p]. *)
Definition is_upload_call (fileExtension p : jsstring) (entry : event * outcome) : bool :=
  if Upload.is_pdf fileExtension then is_pdf_call entry || is_unlink_of p entry
  else if Upload.is_image fileExtension then is_ocr_call p entry || is_unlink_of p entry
  else is_unlink_of p entry.

(** The lower case of an ASCII letter. *)
Definition ascii_lower (c : char) : char := if is_upper c then (c + 32)%N else c.

(** The part of [s] from its last dot on, if it has a dot. *)
Fixpoint from_last_dot (s : jsstring) : option jsstring :=
  match s with
  | [] => None
  | c :: t =>
      match from_last_dot t with
      | Some e => Some e
      | None => if (c =? 46)%N then Some s else None
      end
  end.

(** A library for file names of ASCII characters without directory
    separators: the extension is the part from the last dot on, unless
    that dot starts the name. *)
Definition plain_names : Upload.Library :=
  {| Upload.extname := fun name =>
       match name with
       | [] => []
       | _ :: t => match from_last_dot t with Some e => e | None => [] end
       end;
     Upload.toLowerCase := map ascii_lower |}.

(** A runtime in which nothing fails: every image reads as [raw], every
    PDF parses to [text]. *)
Definition serving (raw text : jsstring) : Upload.Runtime unit :=
  {| Upload.ocr := Examples.reading raw; Upload.pdf := Examples.parsed text |}.

(** A runtime whose PDF parser throws [message]. *)
Definition rejecting (message : jsstring) : Upload.Runtime unit :=
  {| Upload.ocr := Examples.reading []; Upload.pdf := Examples.unparsable message |}.

(** A runtime in which [unlink] throws. *)
Definition read_only : Upload.Runtime unit :=
  {| Upload.ocr :=
       {| Ocr.sharp := None;
          Ocr.createWorker := fun _ w => (Ok tt, w);
          Ocr.setParameters := fun _ _ w => (Ok tt, w);
          Ocr.recognize := fun _ w => (Ok (js "Hello World"), w);
          Ocr.terminate := fun w => (Ok tt, w);
          Ocr.unlink := fun _ w => (Throw (js "EACCES: permission denied"), w) |};
     Upload.pdf := Examples.parsed (js "Hello World") |}.

End Requests.
Import Requests.

Module Runs.

(** What the runner owes one profile, from the world [w] on: it sets the
    parameters of the profile; when that call returns it has the image
    recognized; and the profile leaves a candidate exactly when the
    recognition returns.  The world, the calls and the candidates after
    the step are the last three arguments. *)
Inductive profile_step {World : Type} (rt : Ocr.Runtime World) (imagePath : jsstring)
    (cfg : Ocr.configuration) : World -> World -> log -> list Ocr.candidate -> Prop :=
  | profile_rejected : forall w e w1,
      Ocr.setParameters rt (Ocr.tessedit_pageseg_mode cfg) (Ocr.tessedit_ocr_engine_mode cfg) w
      = (Throw e, w1) ->
      profile_step rt imagePath cfg w w1 [(setParameters_event cfg, Threw)] []
  | profile_failed : forall w u w1 e w2,
      Ocr.setParameters rt (Ocr.tessedit_pageseg_mode cfg) (Ocr.tessedit_ocr_engine_mode cfg) w
      = (Ok u, w1) ->
      Ocr.recognize rt imagePath w1 = (Throw e, w2) ->
      profile_step rt imagePath cfg w w2
        [(setParameters_event cfg, Returned); (EvRecognize imagePath, Threw)] []
  | profile_read : forall w u w1 raw w2,
      Ocr.setParameters rt (Ocr.tessedit_pageseg_mode cfg) (Ocr.tessedit_ocr_engine_mode cfg) w
      = (Ok u, w1) ->
      Ocr.recognize rt imagePath w1 = (Ok raw, w2) ->
      profile_step rt imagePath cfg w w2
        [(setParameters_event cfg, Returned); (EvRecognize imagePath, Returned)]
        [candidate_of cfg raw].

(** The profiles in turn, each from the world the one before left,
    whatever the one before did. *)
Inductive profiles_run {World : Type} (rt : Ocr.Runtime World) (imagePath : jsstring)
    : list Ocr.configuration -> World -> World -> log -> list Ocr.candidate -> Prop :=
  | profiles_done : forall w, profiles_run rt imagePath [] w w [] []
  | profiles_next : forall cfg rest w w1 w2 evs1 evs2 found1 found2,
      profile_step rt imagePath cfg w w1 evs1 found1 ->
      profiles_run rt imagePath rest w1 w2 evs2 found2 ->
      profiles_run rt imagePath (cfg :: rest) w w2 (evs1 ++ evs2) (found1 ++ found2).

(** The calls to [recognize], and the calls to [setParameters] that
    returned. *)
Definition is_recognize (entry : event * outcome) : bool :=
  match fst entry with
  | EvRecognize _ => true
  | _ => false
  end.

Definition is_parameters_set (entry : event * outcome) : bool :=
  match entry with
  | (EvSetParameters _ _, Returned) => true
  | _ => false
  end.

(** The answer of the parse that counts for a PDF read into [buf]: that of
    the default parse, or, when the default parse throws an error that
    names XRef, that of the second parse. *)
Definition pdf_data {World : Type} (rt : Pdf.Runtime World) (buf : jsstring) (w : World)
    (data : option jsstring) : Prop :=
  (exists w', Pdf.pdfParse rt buf false w = (Ok data, w'))
  \/ (exists m w1 w2,
         Pdf.pdfParse rt buf false w = (Throw m, w1)
         /\ Pdf.mentions_xref m = true
         /\ Pdf.pdfParse rt buf true w1 = (Ok data, w2)).

(** The message behind a failure of the PDF extractor on [filePath], from
    the world [w]: what [readFile] threw; what the default parse threw, when
    that does not name XRef; the corruption report with what the default
    parse threw, when that names XRef and the second parse throws too; and
    the two messages for a PDF without text. *)
Inductive pdf_cause {World : Type} (rt : Pdf.Runtime World) (filePath : jsstring) (w : World)
    : jsstring -> Prop :=
  | cause_read : forall m w1,
      Pdf.readFile rt filePath w = (Throw m, w1) ->
      pdf_cause rt filePath w m
  | cause_parse : forall buf w1 m w2,
      Pdf.readFile rt filePath w = (Ok buf, w1) ->
      Pdf.pdfParse rt buf false w1 = (Throw m, w2) ->
      Pdf.mentions_xref m = false ->
      pdf_cause rt filePath w m
  | cause_retry : forall buf w1 m w2 m' w3,
      Pdf.readFile rt filePath w = (Ok buf, w1) ->
      Pdf.pdfParse rt buf false w1 = (Throw m, w2) ->
      Pdf.mentions_xref m = true ->
      Pdf.pdfParse rt buf true w2 = (Throw m', w3) ->
      pdf_cause rt filePath w
        (js "PDF appears to be corrupted or uses unsupported features. Error: " ++ m
         ++ js ". Please try converting the PDF to a standard format or use an image version of the document.")
  | cause_no_text : forall buf w1 data,
      Pdf.readFile rt filePath w = (Ok buf, w1) ->
      pdf_data rt buf w1 data ->
      data = None \/ data = Some [] ->
      pdf_cause rt filePath w
        (js "No text could be extracted from the PDF. The PDF may contain only images.")
  | cause_blank : forall buf w1 text,
      Pdf.readFile rt filePath w = (Ok buf, w1) ->
      pdf_data rt buf w1 (Some text) ->
      text <> [] ->
      Pdf.normalize text = [] ->
      pdf_cause rt filePath w
        (js "PDF appears to contain no extractable text. It may be an image-based PDF. Please try uploading as an image file instead.").

(** A worker that reads [raw] from every image and whose [terminate]
    throws. *)
Definition unterminated (raw : jsstring) : Ocr.Runtime unit :=
  {| Ocr.sharp := None;
     Ocr.createWorker := fun _ w => (Ok tt, w);
     Ocr.setParameters := fun _ _ w => (Ok tt, w);
     Ocr.recognize := fun _ w => (Ok raw, w);
     Ocr.terminate := fun w => (Throw (js "worker is gone"), w);
     Ocr.unlink := fun _ w => (Ok tt, w) |}.

(** A worker for which the second profile cannot be set and the
    recognition with the third throws; the world counts the calls to
    [setParameters]. *)
Definition patchy : Ocr.Runtime nat :=
  {| Ocr.sharp := None;
     Ocr.createWorker := fun _ w => (Ok tt, w);
     Ocr.setParameters := fun _ _ w =>
       (if w =? 1 then Throw (js "unknown parameter") else Ok tt, S w);
     Ocr.recognize := fun _ w =>
       (if w =? 3 then Throw (js "recognition failed") else Ok (js "Hello World"), w);
     Ocr.terminate := fun w => (Ok tt, w);
     Ocr.unlink := fun _ w => (Ok tt, w) |}.

End Runs.
Import Runs.

(** * Properties *)

(** ** Strings *)

Module JSFacts.

Lemma subseq_refl {A} (l : list A) : subseq l l.
Proof. induction l; auto with subseq. Qed.

Lemma subseq_nil_l {A} (l : list A) : subseq [] l.
Proof. induction l; auto with subseq. Qed.

Lemma subseq_trans {A} (a b c : list A) : subseq a b -> subseq b c -> subseq a c.
Proof.
  intros Hab Hbc. revert a Hab.
  induction Hbc; intros a' Hab.
  - exact Hab.
  - apply subseq_drop. auto.
  - inversion Hab; subst.
    + apply subseq_drop. auto.
    + apply subseq_keep. auto.
Qed.

Lemma subseq_app {A} (a b c d : list A) :
  subseq a b -> subseq c d -> subseq (a ++ c) (b ++ d).
Proof. induction 1; intros; simpl; auto with subseq. Qed.

Lemma subseq_app_r {A} (a b : list A) : subseq b (a ++ b).
Proof. induction a; simpl; auto using subseq_refl with subseq. Qed.

Lemma subseq_app_l {A} (a b : list A) : subseq a (a ++ b).
Proof.
  rewrite <- (app_nil_r a) at 1.
  apply subseq_app; [apply subseq_refl | apply subseq_nil_l].
Qed.

Lemma subseq_length {A} (a b : list A) : subseq a b -> length a <= length b.
Proof. induction 1; simpl; lia. Qed.

Lemma subseq_map {A B} (f : A -> B) (a b : list A) :
  subseq a b -> subseq (map f a) (map f b).
Proof. induction 1; simpl; auto with subseq. Qed.

Lemma subseq_rev {A} (a b : list A) : subseq a b -> subseq (rev a) (rev b).
Proof.
  induction 1; simpl.
  - constructor.
  - eapply subseq_trans; [eassumption | apply subseq_app_l].
  - apply subseq_app; [assumption | apply subseq_refl].
Qed.

Lemma subseq_filter {A} (f : A -> bool) (l : list A) : subseq (filter f l) l.
Proof. induction l; simpl; [constructor|]. destruct (f a); auto with subseq. Qed.

(** *** trim *)

Lemma trimStart_cases (s : jsstring) : trimStart s = [] \/ starts_tight (trimStart s).
Proof.
  induction s as [|c t IH]; simpl; auto.
  destruct (is_space c) eqn:E; auto.
  right. exists c, t. auto.
Qed.

Lemma trimStart_subseq (s : jsstring) : subseq (trimStart s) s.
Proof.
  induction s as [|c t IH]; simpl; [constructor|].
  destruct (is_space c); auto using subseq_refl with subseq.
Qed.

Lemma trimStart_tight (l : jsstring) : starts_tight l -> trimStart l = l.
Proof. intros (c & t & -> & E). simpl. now rewrite E. Qed.

Lemma trimStart_app_tight (x : jsstring) (c : char) (z : jsstring) :
  is_space c = false -> trimStart (x ++ c :: z) = trimStart x ++ c :: z.
Proof.
  intros E. induction x as [|a x IH]; simpl.
  - now rewrite E.
  - destruct (is_space a); auto.
Qed.

Lemma trimEnd_cons_tight (c : char) (a : jsstring) :
  is_space c = false -> trimEnd (c :: a) = c :: trimEnd a.
Proof.
  intros E. unfold trimEnd. simpl.
  rewrite trimStart_app_tight by assumption.
  rewrite rev_app_distr. reflexivity.
Qed.

Lemma trimEnd_tight (l : jsstring) : ends_tight l -> trimEnd l = l.
Proof.
  intros (t & c & -> & E). unfold trimEnd.
  rewrite rev_app_distr. simpl. rewrite E. simpl.
  now rewrite rev_involutive.
Qed.

Lemma trimEnd_cases (s : jsstring) : trimEnd s = [] \/ ends_tight (trimEnd s).
Proof.
  unfold trimEnd.
  destruct (trimStart_cases (rev s)) as [-> | (c & t & -> & E)]; auto.
  right. exists (rev t), c. simpl. auto.
Qed.

Lemma trimEnd_subseq (s : jsstring) : subseq (trimEnd s) s.
Proof.
  unfold trimEnd. rewrite <- (rev_involutive s) at 2.
  apply subseq_rev, trimStart_subseq.
Qed.

Lemma trim_subseq (s : jsstring) : subseq (trim s) s.
Proof.
  unfold trim. eapply subseq_trans; [apply trimEnd_subseq | apply trimStart_subseq].
Qed.

Lemma trim_tight (l : jsstring) : tight l -> trim l = l.
Proof.
  intros [Hs He]. unfold trim. rewrite (trimStart_tight Hs). now apply trimEnd_tight.
Qed.

Lemma trim_cases (s : jsstring) : trim s = [] \/ tight (trim s).
Proof.
  unfold trim.
  destruct (trimEnd_cases (trimStart s)) as [E | He]; auto.
  right. split; auto.
  destruct (trimStart_cases s) as [E | (c & t & E1 & E2)].
  - rewrite E in *. destruct He as (t & c & E1 & _).
    unfold trimEnd in E1. simpl in E1. now destruct t.
  - rewrite E1. rewrite trimEnd_cons_tight by assumption.
    exists c, (trimEnd t). auto.
Qed.

Lemma trim_nil : trim [] = [].
Proof. reflexivity. Qed.

Lemma trim_idempotent (s : jsstring) : trim (trim s) = trim s.
Proof.
  destruct (trim_cases s) as [-> | H]; [reflexivity | now apply trim_tight].
Qed.

(** *** split and join *)

Lemma split_nl_not_nil (s : jsstring) : split_nl s <> [].
Proof.
  induction s as [|c t IH]; simpl; [discriminate|].
  destruct (c =? NL)%N; [discriminate|].
  destruct (split_nl t); discriminate.
Qed.

Lemma split_nl_nl_free (s : jsstring) : Forall nl_free (split_nl s).
Proof.
  induction s as [|c t IH]; simpl.
  - repeat constructor.
  - destruct (c =? NL)%N eqn:E.
    + constructor; [constructor | assumption].
    + destruct (split_nl t) as [|l ls].
      * repeat constructor. assumption.
      * inversion IH; subst. constructor; [constructor|]; assumption.
Qed.

Lemma join_nl_cons (l : jsstring) (ls : list jsstring) :
  ls <> [] -> join_nl (l :: ls) = l ++ NL :: join_nl ls.
Proof. destruct ls; [congruence | reflexivity]. Qed.

Lemma join_nl_cons2 (l l' : jsstring) (ls : list jsstring) :
  join_nl (l :: l' :: ls) = l ++ NL :: join_nl (l' :: ls).
Proof. reflexivity. Qed.

Lemma join_split_nl (s : jsstring) : join_nl (split_nl s) = s.
Proof.
  induction s as [|c t IH]; simpl; [reflexivity|].
  destruct (c =? NL)%N eqn:E.
  - apply N.eqb_eq in E. subst c.
    rewrite join_nl_cons by apply split_nl_not_nil.
    simpl. now rewrite IH.
  - pose proof (split_nl_not_nil t) as Hne.
    destruct (split_nl t) as [|l ls]; [congruence|].
    destruct ls as [|l' ls'].
    + simpl in *. now rewrite IH.
    + change (join_nl ((c :: l) :: l' :: ls')) with (c :: (l ++ NL :: join_nl (l' :: ls'))).
      change (join_nl (l :: l' :: ls')) with (l ++ NL :: join_nl (l' :: ls')) in IH.
      now rewrite IH.
Qed.

Lemma split_nl_free (l : jsstring) : nl_free l -> split_nl l = [l].
Proof.
  induction 1 as [|c t E _ IH]; simpl; [reflexivity|].
  now rewrite E, IH.
Qed.

Lemma split_nl_app (l rest : jsstring) :
  nl_free l -> split_nl (l ++ NL :: rest) = l :: split_nl rest.
Proof.
  induction 1 as [|c t E _ IH]; simpl.
  - reflexivity.
  - now rewrite E, IH.
Qed.

Lemma split_join_nl (ls : list jsstring) :
  ls <> [] -> Forall nl_free ls -> split_nl (join_nl ls) = ls.
Proof.
  induction ls as [|l ls IH]; [congruence|].
  intros _ H. inversion H as [|? ? Hl Hls]; subst.
  destruct ls as [|l' ls'].
  - simpl. now apply split_nl_free.
  - rewrite join_nl_cons by discriminate.
    rewrite split_nl_app by assumption.
    f_equal. apply IH; [discriminate | assumption].
Qed.

Lemma nl_free_subseq (a b : jsstring) : subseq a b -> nl_free b -> nl_free a.
Proof.
  induction 1; intros Hb; auto.
  - inversion Hb; subst. auto.
  - inversion Hb; subst. constructor; auto. now apply IHsubseq.
Qed.

Lemma join_nl_tail_subseq (l : jsstring) (ls : list jsstring) :
  subseq (join_nl ls) (join_nl (l :: ls)).
Proof.
  destruct ls as [|l' ls'].
  - apply subseq_nil_l.
  - rewrite (@join_nl_cons l (l' :: ls')) by discriminate.
    eapply subseq_trans; [|apply subseq_app_r]. apply subseq_drop, subseq_refl.
Qed.

Lemma sub_lines_join (ls' ls : list jsstring) :
  sub_lines ls' ls -> subseq (join_nl ls') (join_nl ls).
Proof.
  induction 1 as [ls | l ls' ls H IH | l' l ls' ls Hl H IH].
  - apply subseq_nil_l.
  - eapply subseq_trans; [exact IH | apply join_nl_tail_subseq].
  - destruct ls' as [|m' ms'].
    + simpl join_nl at 1.
      eapply subseq_trans; [exact Hl|].
      destruct ls; [apply subseq_refl|].
      rewrite join_nl_cons by discriminate. apply subseq_app_l.
    + assert (ls <> []) by (inversion H; subst; discriminate).
      change (join_nl (l' :: m' :: ms')) with (l' ++ NL :: join_nl (m' :: ms')).
      rewrite (@join_nl_cons l ls) by assumption.
      apply subseq_app; [assumption|]. now apply subseq_keep.
Qed.

Lemma sub_lines_filter_map (f : jsstring -> bool) (g : jsstring -> jsstring)
    (ls : list jsstring) :
  (forall l, subseq (g l) l) -> sub_lines (filter f (map g ls)) ls.
Proof.
  intros Hg. induction ls as [|l ls IH]; simpl; [constructor|].
  destruct (f (g l)); [apply sub_lines_keep | apply sub_lines_drop]; auto.
Qed.

Lemma join_nl_tight (ls : list jsstring) :
  ls <> [] -> Forall tight ls -> tight (join_nl ls).
Proof.
  induction ls as [|l ls IH]; [congruence|].
  intros _ H. inversion H as [|? ? Hl Hls]; subst.
  destruct ls as [|l' ls']; [exact Hl|].
  rewrite join_nl_cons by discriminate.
  destruct IH as [_ (t & c & Et & Ec)]; [discriminate | assumption |].
  destruct Hl as [(a & u & -> & Ea) _].
  split.
  - exists a, (u ++ NL :: join_nl (l' :: ls')). auto.
  - exists ((a :: u) ++ NL :: t), c. rewrite Et.
    rewrite <- app_assoc. simpl. auto.
Qed.

End JSFacts.
Import JSFacts.

(** ** The matcher *)

Module RegExpFacts.

Lemma repeat_local (m : matcher) :
  local m -> forall fuel min max, local (repeatMatcher fuel m min max).
Proof.
  intros Hm fuel. induction fuel as [|fuel IH]; intros min max prev s k1 k2 Hk.
  - reflexivity.
  - simpl.
    assert (Hd : m prev s
               (fun prev' s' =>
                  if (min =? 0) && (length s' =? length s) then None
                  else repeatMatcher fuel m (pred min) (option_map pred max) prev' s' k1)
             = m prev s
               (fun prev' s' =>
                  if (min =? 0) && (length s' =? length s) then None
                  else repeatMatcher fuel m (pred min) (option_map pred max) prev' s' k2)).
    { apply Hm. intros p s' Hs'.
      destruct ((min =? 0) && (length s' =? length s)); [reflexivity|].
      apply IH. intros p' s'' Hs''. apply Hk. lia. }
    rewrite Hd, (Hk prev s) by lia. reflexivity.
Qed.

Lemma run_local (fl : flags) (r : regex) : local (run fl r).
Proof.
  induction r as [| neg items | | | | r1 IH1 r2 IH2 | r1 IH1 r2 IH2 | min max r IH];
    intros prev s k1 k2 Hk.
  - simpl. apply Hk. lia.
  - simpl. destruct s as [|c t]; [reflexivity|].
    destruct (cls_match fl neg items c); [|reflexivity]. apply Hk. simpl. lia.
  - simpl. destruct s as [|c t]; [reflexivity|].
    destruct (is_line_terminator c); [reflexivity|]. apply Hk. simpl. lia.
  - simpl. destruct (at_bol fl prev); [|reflexivity]. apply Hk. lia.
  - simpl. destruct (at_eol fl s); [|reflexivity]. apply Hk. lia.
  - simpl. apply IH1. intros p s' Hs'. apply IH2. intros p' s'' Hs''. apply Hk. lia.
  - simpl. rewrite (IH1 prev s k1 k2 Hk), (IH2 prev s k1 k2 Hk). reflexivity.
  - exact (repeat_local IH (S (min + length s)) min max prev s k1 k2 Hk).
Qed.

(** Fuel beyond [min + length s] changes nothing: the fuel given by [run]
    is never exhausted. *)
Lemma repeat_fuel (m : matcher) :
  local m ->
  forall f1 f2 min max prev s k,
    min + length s < f1 -> min + length s < f2 ->
    repeatMatcher f1 m min max prev s k = repeatMatcher f2 m min max prev s k.
Proof.
  intros Hm f1. induction f1 as [|f1 IH]; intros f2 min max prev s k H1 H2; [lia|].
  destruct f2 as [|f2]; [lia|].
  simpl.
  assert (Hd : m prev s
             (fun prev' s' =>
                if (min =? 0) && (length s' =? length s) then None
                else repeatMatcher f1 m (pred min) (option_map pred max) prev' s' k)
           = m prev s
             (fun prev' s' =>
                if (min =? 0) && (length s' =? length s) then None
                else repeatMatcher f2 m (pred min) (option_map pred max) prev' s' k)).
  { apply Hm. intros p s' Hs'.
    destruct (min =? 0) eqn:E0; simpl.
    - destruct (length s' =? length s) eqn:E1; [reflexivity|].
      apply Nat.eqb_eq in E0. apply Nat.eqb_neq in E1. apply IH; lia.
    - apply Nat.eqb_neq in E0. apply IH; lia. }
  rewrite Hd. reflexivity.
Qed.

Lemma run_rep (fl : flags) (min : nat) (max : option nat) (r : regex)
    (prev : option char) (s : jsstring) (k : cont) :
  run fl (Rep min max r) prev s k
  = repeatMatcher (S (min + length s)) (run fl r) min max prev s k.
Proof. reflexivity. Qed.

Theorem run_rep_fuel (fl : flags) (min : nat) (max : option nat) (r : regex)
    (prev : option char) (s : jsstring) (k : cont) (extra : nat) :
  run fl (Rep min max r) prev s k
  = repeatMatcher (S (min + length s) + extra) (run fl r) min max prev s k.
Proof. rewrite run_rep. apply repeat_fuel; [apply run_local | lia | lia]. Qed.

(** *** A single class *)

Lemma match_here_cls (fl : flags) (neg : bool) (items : list citem)
    (prev : option char) (s : jsstring) :
  match_here fl (Cls neg items) prev s =
  match s with
  | c :: _ => if cls_match fl neg items c then Some 1 else None
  | [] => None
  end.
Proof.
  unfold match_here. destruct s as [|c t]; cbn -[Nat.sub]; [reflexivity|].
  destruct (cls_match fl neg items c); [|reflexivity].
  f_equal. lia.
Qed.

(** *** A repeated class without upper bound *)

Lemma prefix_len_le (P : char -> bool) (s : jsstring) : prefix_len P s <= length s.
Proof. induction s as [|c t IH]; simpl; [lia|]. destruct (P c); simpl; lia. Qed.

Lemma prefix_len_firstn (P : char -> bool) (s : jsstring) :
  Forall (fun c => P c = true) (firstn (prefix_len P s) s).
Proof.
  induction s as [|c t IH]; simpl; [constructor|].
  destruct (P c) eqn:E; simpl; [constructor; assumption | constructor].
Qed.

Lemma repeat_cls (fl : flags) (neg : bool) (items : list citem) (s : jsstring) :
  forall fuel min prev,
    min + length s < fuel ->
    repeatMatcher fuel (run fl (Cls neg items)) min None prev s (fun _ s' => Some (length s'))
    = if min <=? prefix_len (cls_match fl neg items) s
      then Some (length s - prefix_len (cls_match fl neg items) s)
      else None.
Proof.
  induction s as [|c t IH]; intros fuel min prev Hf;
    (destruct fuel as [|fuel]; [lia|]); simpl.
  - destruct min; reflexivity.
  - destruct (cls_match fl neg items c) eqn:E.
    + assert (Hlen : (length t =? S (length t)) = false) by (apply Nat.eqb_neq; lia).
      rewrite Hlen, andb_false_r.
      rewrite IH by (simpl in Hf; lia).
      destruct min as [|min]; simpl.
      * reflexivity.
      * reflexivity.
    + destruct min; reflexivity.
Qed.

Lemma match_here_run (fl : flags) (min : nat) (neg : bool) (items : list citem)
    (prev : option char) (s : jsstring) :
  match_here fl (Rep min None (Cls neg items)) prev s
  = if min <=? prefix_len (cls_match fl neg items) s
    then Some (prefix_len (cls_match fl neg items) s)
    else None.
Proof.
  unfold match_here. rewrite run_rep, repeat_cls by lia.
  destruct (min <=? _); [|reflexivity].
  f_equal. pose proof (prefix_len_le (cls_match fl neg items) s). lia.
Qed.

(** *** Replacement *)

(** If every match holds the replacement text as a subsequence (up to a
    renaming [f] of code units), replacing keeps the text a subsequence. *)
Lemma replace_go_subseq (f : char -> char) (fl : flags) (r : regex) (by_ : jsstring) :
  (forall prev s n, match_here fl r prev s = Some n ->
                    subseq (map f by_) (map f (firstn n s))) ->
  forall s prev skip,
    subseq (map f (replace_go fl r by_ prev s skip)) (map f (skipn skip s)).
Proof.
  intros Hm. induction s as [|c t IH]; intros prev skip.
  - destruct skip; simpl.
    + destruct (match_here fl r prev []) as [n|] eqn:E; [|constructor].
      rewrite app_nil_r. specialize (Hm _ _ _ E). now rewrite firstn_nil in Hm.
    + constructor.
  - destruct skip as [|skip]; simpl.
    + destruct (match_here fl r prev (c :: t)) as [n|] eqn:E.
      * specialize (Hm _ _ _ E). rewrite map_app.
        destruct n as [|n].
        -- simpl in Hm. inversion Hm as [E0| |]. simpl.
           apply subseq_keep. apply (IH (Some c) 0).
        -- change (f c :: map f t) with (map f (c :: t)).
           rewrite <- (firstn_skipn (S n) (c :: t)) at 1. rewrite map_app.
           apply subseq_app; [assumption|]. apply (IH (Some c) n).
      * simpl. apply subseq_keep. apply (IH (Some c) 0).
    + apply IH.
Qed.

Lemma replace_all_subseq (f : char -> char) (fl : flags) (r : regex) (by_ s : jsstring) :
  (forall prev s n, match_here fl r prev s = Some n ->
                    subseq (map f by_) (map f (firstn n s))) ->
  subseq (map f (replace_all fl r by_ s)) (map f s).
Proof. intros H. apply (replace_go_subseq f fl r by_ H s None 0). Qed.

(** Deleting matches deletes code units. *)
Lemma replace_all_delete (f : char -> char) (fl : flags) (r : regex) (s : jsstring) :
  subseq (map f (replace_all fl r [] s)) (map f s).
Proof. apply replace_all_subseq. intros. apply subseq_nil_l. Qed.

(** *** Replacing the runs of a class *)

Section Runs.

Variable fl : flags.
Variable neg : bool.
Variable items : list citem.
Variable min : nat.
Variable by_ : jsstring.
Hypothesis min_pos : 1 <= min.

Let P := cls_match fl neg items.
Let go := replace_go fl (Rep min None (Cls neg items)) by_.

(** Scanning at a fresh position. *)
Lemma replace_runs_scan (prev : option char) (s : jsstring) :
  go prev s 0 =
  match s with
  | [] => []
  | c :: t =>
      if min <=? prefix_len P s
      then by_ ++ go (Some c) t (prefix_len P t)
      else c :: go (Some c) t 0
  end.
Proof.
  unfold go. destruct s as [|c t].
  - simpl. rewrite match_here_run. simpl.
    destruct min; [lia | reflexivity].
  - cbn [replace_go]. rewrite match_here_run. fold P.
    destruct (min <=? prefix_len P (c :: t)) eqn:E; [|reflexivity].
    apply Nat.leb_le in E. simpl in E |- *.
    destruct (P c); [reflexivity | lia].
Qed.

(** Passing the rest of a run that was matched. *)
Lemma replace_runs_skip (prev : option char) (s : jsstring) :
  go prev s (prefix_len P s) =
  match s with
  | [] => []
  | c :: t => if P c then go (Some c) t (prefix_len P t) else go prev s 0
  end.
Proof.
  destruct s as [|c t].
  - simpl. apply replace_runs_scan.
  - simpl. destruct (P c); reflexivity.
Qed.

End Runs.

(** [[ \t]+] by a space. *)
Lemma replace_blanks_aux (s : jsstring) :
  forall prev,
    replace_go no_flags re_blanks [32%N] prev s 0 = collapse_blanks_aux false s
    /\ replace_go no_flags re_blanks [32%N] prev s (prefix_len is_blank s)
       = collapse_blanks_aux true s.
Proof.
  unfold re_blanks, plus.
  induction s as [|c t IH]; intros prev.
  - split; [|change (prefix_len is_blank []) with 0];
      (rewrite replace_runs_scan by lia; reflexivity).
  - destruct (IH (Some c)) as [IH0 IHk].
    assert (E0 : replace_go no_flags (Rep 1 None (Cls false [Ch 32; Ch 9])) [32%N] prev
                   (c :: t) 0 = collapse_blanks_aux false (c :: t)).
    { rewrite replace_runs_scan by lia. fold is_blank. simpl.
      rewrite IH0, IHk. destruct (is_blank c); reflexivity. }
    split; [exact E0|].
    unfold is_blank at 1. rewrite replace_runs_skip by lia. fold is_blank.
    cbn [collapse_blanks_aux]. destruct (is_blank c) eqn:E.
    + exact IHk.
    + rewrite E0. cbn [collapse_blanks_aux]. now rewrite E.
Qed.

Lemma replace_blanks (s : jsstring) :
  replace_all no_flags re_blanks [32%N] s = collapse_blanks s.
Proof. apply replace_blanks_aux. Qed.

(** [\n{3,}] by two line feeds. *)
Lemma replace_blank_lines_aux (s : jsstring) :
  forall prev,
    short_nl_runs (replace_go no_flags re_blank_lines [NL; NL] prev s 0)
    /\ short_nl_runs (replace_go no_flags re_blank_lines [NL; NL] prev s (prefix_len is_nl s))
    /\ prefix_len is_nl
         (replace_go no_flags re_blank_lines [NL; NL] prev s (prefix_len is_nl s)) = 0
    /\ prefix_len is_nl (replace_go no_flags re_blank_lines [NL; NL] prev s 0)
       <= Nat.min (prefix_len is_nl s) 2.
Proof.
  unfold re_blank_lines.
  induction s as [|c t IH]; intros prev.
  - change (prefix_len is_nl []) with 0.
    rewrite replace_runs_scan by lia. simpl. auto.
  - destruct (IH (Some c)) as (H0 & Hk & Hk0 & Hle).
    set (g0 := replace_go no_flags (Rep 3 None (Cls false [Ch 10])) [NL; NL] prev (c :: t) 0).
    assert (G0 : short_nl_runs g0
                 /\ prefix_len is_nl g0 <= Nat.min (prefix_len is_nl (c :: t)) 2
                 /\ (is_nl c = false -> prefix_len is_nl g0 = 0)).
    { subst g0. rewrite replace_runs_scan by lia. fold is_nl.
      destruct (3 <=? prefix_len is_nl (c :: t)) eqn:E.
      - apply Nat.leb_le in E.
        change ([NL; NL] ++ ?x) with (NL :: NL :: x).
        cbn [short_nl_runs]. change (prefix_len is_nl (NL :: NL :: ?x))
          with (S (S (prefix_len is_nl x))).
        change (prefix_len is_nl (NL :: ?x)) with (S (prefix_len is_nl x)).
        rewrite Hk0.
        assert (Hc : is_nl c = true).
        { cbn [prefix_len] in E. destruct (is_nl c); [reflexivity | lia]. }
        rewrite Hc. repeat split; try lia; try assumption; discriminate.
      - apply Nat.leb_gt in E. cbn [short_nl_runs].
        cbn [prefix_len] in *. destruct (is_nl c) eqn:Ec.
        + repeat split; try assumption; try lia.
        + repeat split; try assumption; try lia. }
    destruct G0 as (G0a & G0b & G0c).
    assert (Gk : replace_go no_flags (Rep 3 None (Cls false [Ch 10])) [NL; NL] prev (c :: t)
                   (prefix_len is_nl (c :: t))
                 = if is_nl c
                   then replace_go no_flags (Rep 3 None (Cls false [Ch 10])) [NL; NL]
                          (Some c) t (prefix_len is_nl t)
                   else g0).
    { unfold is_nl at 1. rewrite replace_runs_skip by lia. reflexivity. }
    rewrite Gk.
    repeat split; try assumption.
    + destruct (is_nl c); assumption.
    + destruct (is_nl c) eqn:Ec; [assumption|]. now apply G0c.
Qed.

Lemma replace_blank_lines_short (s : jsstring) :
  short_nl_runs (replace_all no_flags re_blank_lines [NL; NL] s).
Proof. apply (replace_blank_lines_aux s None). Qed.

(** Without a run of three line feeds there is nothing to replace. *)
Lemma replace_blank_lines_id (s : jsstring) :
  short_nl_runs s ->
  forall prev, replace_go no_flags re_blank_lines [NL; NL] prev s 0 = s.
Proof.
  unfold re_blank_lines.
  induction s as [|c t IH]; intros H prev; rewrite replace_runs_scan by lia.
  - reflexivity.
  - destruct H as [H1 H2]. fold is_nl.
    assert (E : (3 <=? prefix_len is_nl (c :: t)) = false) by (apply Nat.leb_gt; lia).
    rewrite E. f_equal. now apply IH.
Qed.

End RegExpFacts.
Import RegExpFacts.

(** ** The Text Sanitizer *)

Module SanitizerFacts.

Lemma is_blank_cases (c : char) : is_blank c = true -> c = 32%N \/ c = 9%N.
Proof.
  unfold is_blank, cls_match, item_match, item_mem. cbn -[N.eqb].
  rewrite orb_false_r. intros H. apply orb_true_iff in H.
  destruct H as [H | H]; apply N.eqb_eq in H; auto.
Qed.

Lemma is_blank_space (c : char) : is_blank c = true -> is_space c = true.
Proof. intros H. destruct (is_blank_cases c H) as [-> | ->]; reflexivity. Qed.

Lemma is_blank_alnum (c : char) : is_blank c = true -> is_alnum c = false.
Proof. intros H. destruct (is_blank_cases c H) as [-> | ->]; reflexivity. Qed.

Lemma is_blank_not_nl (c : char) : is_blank c = true -> (c =? NL)%N = false.
Proof. intros H. destruct (is_blank_cases c H) as [-> | ->]; reflexivity. Qed.

Lemma is_blank_tab_as_space (c : char) : is_blank c = true -> tab_as_space c = 32%N.
Proof. intros H. destruct (is_blank_cases c H) as [-> | ->]; reflexivity. Qed.

Lemma not_space_not_blank (c : char) : is_space c = false -> is_blank c = false.
Proof.
  intros H. destruct (is_blank c) eqn:E; [|reflexivity].
  apply is_blank_space in E. congruence.
Qed.

Lemma is_nl_eq (c : char) : is_nl c = (c =? NL)%N.
Proof.
  unfold is_nl, cls_match, item_match, item_mem. cbn -[N.eqb].
  rewrite orb_false_r. apply N.eqb_sym.
Qed.

Lemma is_nl_space (c : char) : is_nl c = true -> is_space c = true.
Proof. rewrite is_nl_eq. intros H. apply N.eqb_eq in H. now subst. Qed.

Lemma tight_no_leading_nl (s : jsstring) : starts_tight s -> prefix_len is_nl s = 0.
Proof.
  intros (c & t & -> & E). simpl.
  destruct (is_nl c) eqn:En; [|reflexivity].
  apply is_nl_space in En. congruence.
Qed.

(** *** The density test *)

(** On lengths up to 120 the binary64 comparison and the exact one agree,
    for both ratios of the program. *)
Example at_least_ratio_agrees :
  forallb (fun n =>
    forallb (fun k =>
      Bool.eqb (at_least_ratio_binary64 k n 3) (at_least_ratio k n 3)
      && Bool.eqb (at_least_ratio_binary64 k n 4) (at_least_ratio k n 4))
      (seq 0 (S n)))
    (seq 0 121) = true.
Proof. vm_compute. reflexivity. Qed.

Lemma re_alnum_class (c : char) :
  cls_match no_flags false [Rg 97 122; Rg 65 90; Rg 48 57] c = is_alnum c.
Proof.
  unfold cls_match, item_match, item_mem, is_alnum, is_lower, is_upper, is_digit.
  cbn -[in_range]. now rewrite orb_false_r, orb_assoc.
Qed.

Lemma match_go_alnum (l : jsstring) (prev : option char) :
  length (match_go no_flags re_alnum prev l 0) = count_alnum l.
Proof.
  unfold count_alnum, re_alnum. revert prev.
  induction l as [|c t IH]; intros prev.
  - reflexivity.
  - cbn [match_go]. rewrite match_here_cls, re_alnum_class.
    cbn [filter]. destruct (is_alnum c).
    + cbn [pred length]. now rewrite IH.
    + apply IH.
Qed.

Lemma wordChars_length_count (l : jsstring) : wordChars_length l = count_alnum l.
Proof. apply match_go_alnum. Qed.

Lemma keep_line_dense (l : jsstring) : keep_line l = true -> dense l.
Proof.
  unfold keep_line, at_least_ratio, dense. rewrite wordChars_length_count.
  destruct (length l <? 3) eqn:E; [discriminate|].
  apply Nat.ltb_ge in E. intros H. apply Nat.leb_le in H. lia.
Qed.

(** *** Collapsing blanks *)

Lemma collapse_blanks_aux_app_nl (l rest : jsstring) (b : bool) :
  nl_free l ->
  collapse_blanks_aux b (l ++ NL :: rest)
  = collapse_blanks_aux b l ++ NL :: collapse_blanks_aux false rest.
Proof.
  intros H. revert b. induction H as [|c t E _ IH]; intros b.
  - reflexivity.
  - simpl. destruct (is_blank c); [destruct b|]; simpl; now rewrite IH.
Qed.

Lemma collapse_blanks_join (ls : list jsstring) :
  Forall nl_free ls ->
  collapse_blanks (join_nl ls) = join_nl (map collapse_blanks ls).
Proof.
  unfold collapse_blanks.
  induction 1 as [|l ls Hl Hls IH]; [reflexivity|].
  destruct ls as [|l' ls']; [reflexivity|].
  rewrite join_nl_cons2.
  rewrite collapse_blanks_aux_app_nl by assumption.
  rewrite IH. reflexivity.
Qed.

Lemma collapse_blanks_aux_snoc (l : jsstring) (c : char) (b : bool) :
  is_blank c = false ->
  collapse_blanks_aux b (l ++ [c]) = collapse_blanks_aux b l ++ [c].
Proof.
  intros E. revert b. induction l as [|a l IH]; intros b; simpl.
  - now rewrite E.
  - destruct (is_blank a); [destruct b|]; simpl; now rewrite IH.
Qed.

Lemma collapse_blanks_aux_nil (l : jsstring) :
  collapse_blanks_aux false l = [] -> l = [].
Proof.
  destruct l as [|c t]; [reflexivity|]. simpl.
  destruct (is_blank c); discriminate.
Qed.

Lemma collapse_blanks_aux_count (l : jsstring) (b : bool) :
  count_alnum (collapse_blanks_aux b l) = count_alnum l.
Proof.
  unfold count_alnum. revert b. induction l as [|c t IH]; intros b; simpl.
  - reflexivity.
  - destruct (is_blank c) eqn:E.
    + rewrite (is_blank_alnum c E).
      destruct b; simpl; apply IH.
    + simpl. destruct (is_alnum c); simpl; now rewrite IH.
Qed.

Lemma collapse_blanks_aux_length (l : jsstring) (b : bool) :
  length (collapse_blanks_aux b l) <= length l.
Proof.
  revert b. induction l as [|c t IH]; intros b; simpl; [lia|].
  pose proof (IH true). pose proof (IH false).
  destruct (is_blank c); [destruct b|]; simpl; lia.
Qed.

Lemma collapse_blanks_aux_nl_free (l : jsstring) (b : bool) :
  nl_free l -> nl_free (collapse_blanks_aux b l).
Proof.
  unfold nl_free.
  intros H. revert b. induction H as [|c t E _ IH]; intros b; simpl.
  - constructor.
  - destruct (is_blank c); [destruct b|]; try constructor; auto.
Qed.

Lemma collapse_blanks_tight (l : jsstring) : tight l -> tight (collapse_blanks l).
Proof.
  unfold collapse_blanks. intros [(c & t & E & Ec) (x & d & E' & Ed)]. split.
  - subst l. simpl. rewrite (not_space_not_blank c Ec).
    exists c, (collapse_blanks_aux false t). auto.
  - rewrite E'. rewrite collapse_blanks_aux_snoc by now apply not_space_not_blank.
    exists (collapse_blanks_aux false x), d. auto.
Qed.

Lemma collapse_blanks_long (l : jsstring) :
  tight l -> 3 <= length l -> 3 <= length (collapse_blanks l).
Proof.
  unfold collapse_blanks. intros [(c & t & E & Ec) (x & d & E' & Ed)] Hlen.
  subst l. destruct x as [|c' m].
  - apply (f_equal (@length _)) in E'. simpl in *. lia.
  - simpl in E'. injection E' as -> ->.
    change (c' :: m ++ [d]) with ((c' :: m) ++ [d]).
    rewrite collapse_blanks_aux_snoc by now apply not_space_not_blank.
    cbn [collapse_blanks_aux]. rewrite (not_space_not_blank c' Ec).
    pose proof (@collapse_blanks_aux_nil m) as Hn.
    destruct (collapse_blanks_aux false m) as [|? ?].
    + specialize (Hn eq_refl). subst m. simpl in Hlen. lia.
    + cbn [length app]. rewrite length_app. cbn [length]. lia.
Qed.

Lemma collapse_blanks_dense (l : jsstring) :
  tight l -> dense l -> dense (collapse_blanks l).
Proof.
  intros Ht [H3 Hd]. split.
  - now apply collapse_blanks_long.
  - unfold collapse_blanks. rewrite collapse_blanks_aux_count.
    pose proof (collapse_blanks_aux_length l false). lia.
Qed.

(** *** The first line pass *)

Lemma dense_lines_solid (cleaned : jsstring) : Forall solid (dense_lines cleaned).
Proof.
  unfold dense_lines. apply Forall_forall. intros l Hl.
  apply filter_In in Hl. destruct Hl as [Hin Hk].
  apply in_map_iff in Hin. destruct Hin as (l0 & <- & Hin0).
  pose proof (keep_line_dense _ Hk) as Hd.
  repeat split; try apply Hd.
  - destruct (trim_cases l0) as [E | [H _]]; [|exact H].
    destruct Hd as [H3 _]. rewrite E in H3. simpl in H3. lia.
  - destruct (trim_cases l0) as [E | [_ H]]; [|exact H].
    destruct Hd as [H3 _]. rewrite E in H3. simpl in H3. lia.
  - apply nl_free_subseq with l0; [apply trim_subseq|].
    pose proof (split_nl_nl_free cleaned) as Hf.
    rewrite Forall_forall in Hf. now apply Hf.
Qed.

Lemma collapse_blanks_solid (l : jsstring) : solid l -> solid (collapse_blanks l).
Proof.
  intros (Ht & Hd & Hf). repeat split.
  - now apply collapse_blanks_tight.
  - now apply collapse_blanks_tight.
  - now apply collapse_blanks_long; [|apply Hd].
  - now apply collapse_blanks_dense.
  - now apply collapse_blanks_aux_nl_free.
Qed.

Lemma short_nl_runs_app (l rest : jsstring) :
  nl_free l -> short_nl_runs rest -> short_nl_runs (l ++ rest).
Proof.
  induction 1 as [|c t E _ IH]; intros Hr; [exact Hr|].
  simpl. rewrite is_nl_eq, E. split; [lia | auto].
Qed.

Lemma join_solid_short (ls : list jsstring) :
  Forall solid ls -> short_nl_runs (join_nl ls).
Proof.
  induction 1 as [|l ls Hl Hls IH]; [exact I|].
  destruct ls as [|l' ls'].
  - simpl. rewrite <- (app_nil_r l). apply short_nl_runs_app; [apply Hl | exact I].
  - rewrite join_nl_cons by discriminate.
    apply short_nl_runs_app; [apply Hl|].
    assert (Ht : starts_tight (join_nl (l' :: ls'))).
    { apply join_nl_tight; [discriminate|].
      eapply Forall_impl; [|exact Hls]. intros a Ha. apply Ha. }
    split; [|exact IH].
    change (prefix_len is_nl (NL :: ?x)) with (S (prefix_len is_nl x)).
    rewrite (tight_no_leading_nl Ht). lia.
Qed.

(** *** The text between and after the two line passes *)

Lemma squeeze_whitespace_join (ls : list jsstring) :
  Forall solid ls ->
  squeeze_whitespace (join_nl ls) = join_nl (map collapse_blanks ls).
Proof.
  intros H. unfold squeeze_whitespace, replace_all.
  rewrite replace_blank_lines_id by now apply join_solid_short.
  fold (replace_all no_flags re_blanks [32%N] (join_nl ls)).
  rewrite replace_blanks.
  rewrite collapse_blanks_join
    by (eapply Forall_impl; [|exact H]; intros a Ha; apply Ha).
  destruct ls as [|l ls]; [reflexivity|].
  apply trim_tight, join_nl_tight; [discriminate|].
  apply Forall_map. eapply Forall_impl; [|exact H].
  intros a Ha. now apply collapse_blanks_tight, Ha.
Qed.

Lemma final_lines_join (ls : list jsstring) :
  Forall solid ls -> final_lines (join_nl ls) = filter keep_final ls.
Proof.
  intros H. unfold final_lines.
  destruct ls as [|l ls]; [reflexivity|].
  rewrite split_join_nl; [reflexivity | discriminate |].
  eapply Forall_impl; [|exact H]. intros a Ha. apply Ha.
Qed.

Lemma trim_join_solid (ls : list jsstring) :
  Forall solid ls -> trim (join_nl ls) = join_nl ls.
Proof.
  intros H. destruct ls as [|l ls]; [reflexivity|].
  apply trim_tight, join_nl_tight; [discriminate|].
  eapply Forall_impl; [|exact H]. intros a Ha. apply Ha.
Qed.

Lemma result_lines_solid (text : jsstring) : Forall solid (result_lines text).
Proof.
  unfold result_lines. apply Forall_forall. intros l Hl.
  apply filter_In in Hl. destruct Hl as [Hin _].
  apply in_map_iff in Hin. destruct Hin as (l0 & <- & Hin0).
  apply collapse_blanks_solid.
  pose proof (dense_lines_solid (strip_patterns text)) as H.
  rewrite Forall_forall in H. now apply H.
Qed.

Theorem cleanOCRText_lines (text : jsstring) :
  cleanOCRText text = join_nl (result_lines text).
Proof.
  unfold cleanOCRText, result_lines.
  pose proof (dense_lines_solid (strip_patterns text)) as HD.
  rewrite squeeze_whitespace_join by assumption.
  assert (HC : Forall solid (map collapse_blanks (dense_lines (strip_patterns text)))).
  { apply Forall_map. eapply Forall_impl; [|exact HD].
    intros a Ha. now apply collapse_blanks_solid. }
  rewrite final_lines_join by assumption.
  apply trim_join_solid, (result_lines_solid text).
Qed.

(** The lines of a non-empty result are the lines the second pass kept. *)
Lemma split_cleanOCRText (text : jsstring) :
  cleanOCRText text <> [] -> split_nl (cleanOCRText text) = result_lines text.
Proof.
  rewrite cleanOCRText_lines. intros Hne.
  apply split_join_nl.
  - intros E. rewrite E in Hne. now apply Hne.
  - eapply Forall_impl; [|apply result_lines_solid]. intros a Ha. apply Ha.
Qed.

Lemma keep_final_tight (l : jsstring) :
  tight l -> keep_final l = true ->
  forall p, In p engagementPatterns -> test (fst p) (snd p) l = false.
Proof.
  intros Ht. unfold keep_final. rewrite (trim_tight Ht).
  destruct l as [|c t]; [discriminate|].
  intros H p Hp. apply negb_true_iff in H.
  destruct (test (fst p) (snd p) (c :: t)) eqn:E; [|reflexivity].
  assert (existsb (fun p => test (fst p) (snd p) (c :: t)) engagementPatterns = true)
    by (apply existsb_exists; eauto).
  congruence.
Qed.

(** No line of a non-empty result matches an entry of [engagementPatterns]. *)
Theorem cleanOCRText_no_engagement_line (text l : jsstring) :
  cleanOCRText text <> [] ->
  In l (split_nl (cleanOCRText text)) ->
  forall p, In p engagementPatterns -> test (fst p) (snd p) l = false.
Proof.
  intros Hne Hin. rewrite split_cleanOCRText in Hin by assumption.
  pose proof (result_lines_solid text) as Hs. rewrite Forall_forall in Hs.
  apply keep_final_tight; [apply (Hs l Hin)|].
  unfold result_lines in Hin. apply filter_In in Hin. apply Hin.
Qed.

(** *** Nothing is introduced *)

Lemma dquotes_match (prev : option char) (s : jsstring) (n : nat) :
  match_here no_flags re_dquotes prev s = Some n -> firstn n s = [34%N].
Proof.
  unfold re_dquotes. rewrite match_here_cls.
  destruct s as [|c t]; [discriminate|].
  destruct (cls_match no_flags false [Ch 34; Ch 34] c) eqn:E; [|discriminate].
  intros [= <-]. simpl. f_equal.
  unfold cls_match, item_match, item_mem in E. cbn -[N.eqb] in E.
  rewrite orb_false_r, orb_diag in E. apply N.eqb_eq in E. now symmetry.
Qed.

Lemma squotes_match (prev : option char) (s : jsstring) (n : nat) :
  match_here no_flags re_squotes prev s = Some n -> firstn n s = [39%N].
Proof.
  unfold re_squotes. rewrite match_here_cls.
  destruct s as [|c t]; [discriminate|].
  destruct (cls_match no_flags false [Ch 39; Ch 39] c) eqn:E; [|discriminate].
  intros [= <-]. simpl. f_equal.
  unfold cls_match, item_match, item_mem in E. cbn -[N.eqb] in E.
  rewrite orb_false_r, orb_diag in E. apply N.eqb_eq in E. now symmetry.
Qed.

Lemma subseq_repeat {A} (a : A) (k n : nat) : k <= n -> subseq (repeat a k) (repeat a n).
Proof.
  revert k. induction n as [|n IH]; intros k Hk.
  - replace k with 0 by lia. constructor.
  - destruct k as [|k]; simpl; [apply subseq_nil_l|].
    apply subseq_keep, IH. lia.
Qed.

Lemma prefix_len_const (P : char -> bool) (g : char -> char) (a : char) (s : jsstring) :
  (forall c, P c = true -> g c = a) ->
  map g (firstn (prefix_len P s) s) = repeat a (prefix_len P s).
Proof.
  intros H. induction s as [|c t IH]; simpl; [reflexivity|].
  destruct (P c) eqn:E; simpl; [|reflexivity].
  now rewrite IH, (H c E).
Qed.

Lemma run_match_subseq (min : nat) (neg : bool) (items : list citem) (a : char)
    (by_ : jsstring) (prev : option char) (s : jsstring) (n : nat) :
  (forall c, cls_match no_flags neg items c = true -> tab_as_space c = a) ->
  map tab_as_space by_ = repeat a (length by_) ->
  length by_ <= min ->
  match_here no_flags (Rep min None (Cls neg items)) prev s = Some n ->
  subseq (map tab_as_space by_) (map tab_as_space (firstn n s)).
Proof.
  intros Hc Hby Hlen. rewrite match_here_run.
  destruct (min <=? _) eqn:E; [|discriminate].
  apply Nat.leb_le in E. intros [= <-].
  rewrite (@prefix_len_const _ tab_as_space a s Hc), Hby.
  apply subseq_repeat. lia.
Qed.

Lemma strip_patterns_subseq (text : jsstring) :
  subseq (map tab_as_space (strip_patterns text)) (map tab_as_space text).
Proof.
  unfold strip_patterns.
  repeat (eapply subseq_trans; [apply replace_all_delete|]).
  eapply subseq_trans.
  { apply replace_all_subseq. intros prev s n H.
    rewrite (squotes_match _ _ H). apply subseq_refl. }
  eapply subseq_trans.
  { apply replace_all_subseq. intros prev s n H.
    rewrite (dquotes_match _ _ H). apply subseq_refl. }
  repeat (eapply subseq_trans; [apply replace_all_delete|]).
  apply subseq_refl.
Qed.

Lemma dense_lines_subseq (cleaned : jsstring) :
  subseq (join_nl (dense_lines cleaned)) cleaned.
Proof.
  rewrite <- (join_split_nl cleaned) at 2.
  apply sub_lines_join, sub_lines_filter_map, trim_subseq.
Qed.

Lemma squeeze_whitespace_subseq (cleaned : jsstring) :
  subseq (map tab_as_space (squeeze_whitespace cleaned)) (map tab_as_space cleaned).
Proof.
  unfold squeeze_whitespace.
  eapply subseq_trans; [apply subseq_map, trim_subseq|].
  eapply subseq_trans.
  { apply replace_all_subseq. intros prev s n.
    apply run_match_subseq with (a := 32%N); [|reflexivity | simpl; lia].
    apply is_blank_tab_as_space. }
  apply replace_all_subseq. intros prev s n.
  apply run_match_subseq with (a := NL); [|reflexivity | simpl; lia].
  intros c Hc. fold is_nl in Hc. rewrite is_nl_eq in Hc.
  apply N.eqb_eq in Hc. now subst.
Qed.

Lemma final_lines_subseq (cleaned : jsstring) :
  subseq (join_nl (final_lines cleaned)) cleaned.
Proof.
  rewrite <- (join_split_nl cleaned) at 2.
  unfold final_lines. rewrite <- (map_id (split_nl cleaned)) at 1.
  apply sub_lines_join, sub_lines_filter_map. intros l. apply subseq_refl.
Qed.

Theorem cleanOCRText_subseq (text : jsstring) :
  subseq (map tab_as_space (cleanOCRText text)) (map tab_as_space text).
Proof.
  unfold cleanOCRText.
  eapply subseq_trans; [apply subseq_map, trim_subseq|].
  eapply subseq_trans; [apply subseq_map, final_lines_subseq|].
  eapply subseq_trans; [apply squeeze_whitespace_subseq|].
  eapply subseq_trans; [apply subseq_map, dense_lines_subseq|].
  apply strip_patterns_subseq.
Qed.

End SanitizerFacts.
Import SanitizerFacts.

(** ** The Selector *)

Module SelectorFacts.
Import Ocr.

Local Open Scope Q_scope.

Lemma by_quality_le (a b : candidate) :
  Qle_bool (by_quality a b) 0 = true <-> quality b <= quality a.
Proof. rewrite Qle_bool_iff. unfold by_quality. split; intros; lra. Qed.

Lemma insert_by_perm (a : candidate) (l : list candidate) :
  Permutation (insert_by by_quality a l) (a :: l).
Proof.
  induction l as [|b l IH]; simpl; [apply Permutation_refl|].
  destruct (Qle_bool (by_quality a b) 0); [apply Permutation_refl|].
  eapply Permutation_trans; [apply perm_skip, IH | apply perm_swap].
Qed.

Lemma sort_by_perm (l : list candidate) : Permutation (sort_by by_quality l) l.
Proof.
  induction l as [|a l IH]; simpl; [constructor|].
  eapply Permutation_trans; [apply insert_by_perm | now apply perm_skip].
Qed.

Lemma insert_by_descending (a : candidate) (l : list candidate) :
  descending l -> descending (insert_by by_quality a l).
Proof.
  unfold descending. induction 1 as [|b l Hs IH Hb]; simpl.
  - repeat constructor.
  - destruct (Qle_bool (by_quality a b) 0) eqn:E.
    + apply by_quality_le in E. constructor; [constructor; assumption|].
      constructor; [assumption|].
      rewrite Forall_forall in *. intros c Hc. specialize (Hb c Hc). lra.
    + assert (Hab : quality a < quality b).
      { destruct (Qlt_le_dec (quality a) (quality b)) as [H | H]; [exact H|].
        apply by_quality_le in H. congruence. }
      constructor; [exact IH|].
      rewrite Forall_forall in *. intros c Hc.
      apply (Permutation_in _ (insert_by_perm a l)) in Hc.
      destruct Hc as [<- | Hc]; [lra | now apply Hb].
Qed.

Lemma sort_by_descending (l : list candidate) : descending (sort_by by_quality l).
Proof.
  induction l as [|a l IH]; simpl; [constructor | now apply insert_by_descending].
Qed.

(** Sorting what is sorted changes nothing, so sorting the array again
    (the sort is in place) keeps every candidate where it is. *)
Lemma sort_by_sorted (l : list candidate) : descending l -> sort_by by_quality l = l.
Proof.
  unfold descending. induction 1 as [|a l Hs IH Ha]; simpl; [reflexivity|].
  rewrite IH. destruct l as [|b l]; [reflexivity|]. simpl.
  inversion Ha as [|? ? Hb _]; subst.
  apply by_quality_le in Hb. now rewrite Hb.
Qed.

Lemma sort_by_idempotent (l : list candidate) :
  sort_by by_quality (sort_by by_quality l) = sort_by by_quality l.
Proof. apply sort_by_sorted, sort_by_descending. Qed.

(** The sort is stable: candidates of one quality keep their order. *)
Lemma insert_by_of_quality (q : Q) (a : candidate) (l : list candidate) :
  descending l ->
  of_quality q (insert_by by_quality a l) = of_quality q (a :: l).
Proof.
  unfold descending, of_quality. induction 1 as [|b l Hs IH Hb]; [reflexivity|].
  cbn [insert_by]. destruct (Qle_bool (by_quality a b) 0) eqn:E; [reflexivity|].
  assert (Hab : quality a < quality b).
  { destruct (Qlt_le_dec (quality a) (quality b)) as [H | H]; [exact H|].
    apply by_quality_le in H. congruence. }
  cbn [filter] in *. rewrite IH.
  destruct (Qeq_bool (quality a) q) eqn:Ea; [|reflexivity].
  destruct (Qeq_bool (quality b) q) eqn:Eb; [|reflexivity].
  apply Qeq_bool_iff in Ea. apply Qeq_bool_iff in Eb. lra.
Qed.

Lemma sort_by_stable (q : Q) (l : list candidate) :
  of_quality q (sort_by by_quality l) = of_quality q l.
Proof.
  induction l as [|a l IH]; [reflexivity|].
  cbn [sort_by]. rewrite insert_by_of_quality by apply sort_by_descending.
  unfold of_quality in *. cbn [filter]. now rewrite IH.
Qed.

(** The first of the sorted candidates is the first candidate of highest
    quality. *)
Lemma sort_by_head (results : list candidate) :
  results <> [] ->
  exists before best after,
    results = before ++ best :: after
    /\ hd_error (sort_by by_quality results) = Some best
    /\ (forall c, In c before -> quality c < quality best)
    /\ (forall c, In c after -> quality c <= quality best).
Proof.
  induction results as [|a rest IH]; [congruence|]. intros _.
  destruct rest as [|a' rest'].
  - exists [], a, []. simpl. repeat split; intros c [].
  - destruct IH as (before & b & after & E & Hhd & Hb & Ha); [discriminate|].
    change (sort_by by_quality (a :: a' :: rest'))
      with (insert_by by_quality a (sort_by by_quality (a' :: rest'))).
    destruct (sort_by by_quality (a' :: rest')) as [|b' sorted]; [discriminate|].
    injection Hhd as ->. simpl.
    destruct (Qle_bool (by_quality a b) 0) eqn:Eab.
    + apply by_quality_le in Eab.
      exists [], a, (a' :: rest'). simpl. repeat split; [intros c [] |].
      intros c Hc. change (In c (a' :: rest')) in Hc.
      rewrite E in Hc. apply in_app_or in Hc.
      destruct Hc as [Hc | [<- | Hc]].
      * specialize (Hb c Hc). lra.
      * exact Eab.
      * specialize (Ha c Hc). lra.
    + assert (Hab : quality a < quality b).
      { destruct (Qlt_le_dec (quality a) (quality b)) as [H | H]; [exact H|].
        apply by_quality_le in H. congruence. }
      exists (a :: before), b, after. rewrite E. simpl. repeat split; [|exact Ha].
      intros c [<- | Hc]; [exact Hab | now apply Hb].
Qed.

End SelectorFacts.
Import SelectorFacts.

(** ** The OCR path *)

Module OcrFacts.
Import Ocr.

Section Pipeline.

Variable World : Type.
Variable rt : Runtime World.

Let state : Type := (World * log)%type.

(** *** The Preprocessor *)

Lemma preprocessImage_cases (inputPath outputPath : jsstring) (st : state) :
  match sharp rt with
  | None => preprocessImage rt inputPath outputPath st = (Ok inputPath, st)
  | Some lib =>
      match sharp_metadata lib inputPath (fst st) with
      | (Throw _, w1) =>
          preprocessImage rt inputPath outputPath st
          = (Ok inputPath, (w1, snd st ++ [(EvMetadata inputPath, Threw)]))
      | (Ok md, w1) =>
          match sharp_toFile lib inputPath (pipeline_for md) outputPath w1 with
          | (Throw _, w2) =>
              preprocessImage rt inputPath outputPath st
              = (Ok inputPath,
                 (w2, (snd st ++ [(EvMetadata inputPath, Returned)])
                        ++ [(EvToFile inputPath outputPath, Threw)]))
          | (Ok _, w2) =>
              preprocessImage rt inputPath outputPath st
              = (Ok outputPath,
                 (w2, (snd st ++ [(EvMetadata inputPath, Returned)])
                        ++ [(EvToFile inputPath outputPath, Returned)]))
          end
      end
  end.
Proof.
  unfold preprocessImage. destruct (sharp rt) as [lib|]; [|reflexivity].
  unfold try_catch, bind, call, ret. destruct st as [w lg]. cbn [fst snd].
  destruct (sharp_metadata lib inputPath w) as [[md|e] w1]; [|reflexivity].
  cbn [fst snd].
  destruct (sharp_toFile lib inputPath (pipeline_for md) outputPath w1) as [[u|e] w2];
    reflexivity.
Qed.

Lemma preprocessImage_ok (inputPath outputPath : jsstring) (st : state) :
  exists p st', preprocessImage rt inputPath outputPath st = (Ok p, st')
                /\ (p = inputPath \/ p = outputPath).
Proof.
  pose proof (preprocessImage_cases inputPath outputPath st) as H.
  destruct (sharp rt) as [lib|]; [|eauto].
  destruct (sharp_metadata lib inputPath (fst st)) as [[md|e] w1]; [|eauto].
  destruct (sharp_toFile lib inputPath (pipeline_for md) outputPath w1) as [[u|e] w2];
    eauto.
Qed.

(** *** The recognition loop *)

(** One configuration: the three ways through the body of the loop. *)
Lemma attempt_cases (imagePath : jsstring) (results : list candidate)
    (cfg : configuration) (st : state) :
  match setParameters rt (tessedit_pageseg_mode cfg) (tessedit_ocr_engine_mode cfg)
          (fst st) with
  | (Throw _, w1) =>
      attempt rt imagePath results cfg st
      = (Ok results, (w1, snd st ++ [(setParameters_event cfg, Threw)]))
  | (Ok _, w1) =>
      match recognize rt imagePath w1 with
      | (Throw _, w2) =>
          attempt rt imagePath results cfg st
          = (Ok results,
             (w2, (snd st ++ [(setParameters_event cfg, Returned)])
                    ++ [(EvRecognize imagePath, Threw)]))
      | (Ok raw, w2) =>
          attempt rt imagePath results cfg st
          = (Ok (results ++ [candidate_of cfg raw]),
             (w2, (snd st ++ [(setParameters_event cfg, Returned)])
                    ++ [(EvRecognize imagePath, Returned)]))
      end
  end.
Proof.
  unfold attempt, try_catch, bind, call, ret, setParameters_event.
  destruct st as [w lg]. cbn [fst snd].
  destruct (setParameters rt (tessedit_pageseg_mode cfg) (tessedit_ocr_engine_mode cfg) w)
    as [[u|e] w1]; [|reflexivity].
  cbn [fst snd].
  destruct (recognize rt imagePath w1) as [[raw|e] w2]; reflexivity.
Qed.

Lemma attempt_spec (imagePath : jsstring) (results : list candidate)
    (cfg : configuration) (st : state) :
  exists added st' evs,
    attempt rt imagePath results cfg st = (Ok (results ++ added), st')
    /\ snd st' = snd st ++ evs
    /\ map fst (filter is_setParameters evs) = [setParameters_event cfg]
    /\ length added = length (filter is_recognized evs)
    /\ (added = [] \/ exists raw, added = [candidate_of cfg raw])
    /\ ((forall p w, exists e, fst (recognize rt p w) = Throw e) -> added = [])
    /\ ((forall a b w, exists u, fst (setParameters rt a b w) = Ok u) ->
        (forall p w, exists raw, fst (recognize rt p w) = Ok raw) ->
        length added = 1).
Proof.
  pose proof (attempt_cases imagePath results cfg st) as H.
  destruct (setParameters rt (tessedit_pageseg_mode cfg) (tessedit_ocr_engine_mode cfg)
              (fst st)) as [[u|e] w1] eqn:Es.
  - destruct (recognize rt imagePath w1) as [[raw|e] w2] eqn:Er.
    + exists [candidate_of cfg raw],
        (w2, (snd st ++ [(setParameters_event cfg, Returned)])
               ++ [(EvRecognize imagePath, Returned)]),
        [(setParameters_event cfg, Returned); (EvRecognize imagePath, Returned)].
      repeat split; auto.
      * cbn [snd]. now rewrite <- app_assoc.
      * right. eauto.
      * intros Hr. destruct (Hr imagePath w1) as [e He]. rewrite Er in He. discriminate.
    + exists [],
        (w2, (snd st ++ [(setParameters_event cfg, Returned)])
               ++ [(EvRecognize imagePath, Threw)]),
        [(setParameters_event cfg, Returned); (EvRecognize imagePath, Threw)].
      rewrite app_nil_r. repeat split; auto.
      * cbn [snd]. now rewrite <- app_assoc.
      * intros _ Hr. destruct (Hr imagePath w1) as [raw Hraw].
        rewrite Er in Hraw. discriminate.
  - exists [], (w1, snd st ++ [(setParameters_event cfg, Threw)]),
      [(setParameters_event cfg, Threw)].
    rewrite app_nil_r. repeat split; auto.
    intros Hs _.
    destruct (Hs (tessedit_pageseg_mode cfg) (tessedit_ocr_engine_mode cfg) (fst st))
      as [u Hu].
    rewrite Es in Hu. discriminate.
Qed.

Lemma run_configurations_spec (imagePath : jsstring) (cfgs : list configuration) :
  forall (results : list candidate) (st : state),
  exists added st' evs,
    run_configurations rt imagePath cfgs results st = (Ok (results ++ added), st')
    /\ snd st' = snd st ++ evs
    /\ map fst (filter is_setParameters evs) = map setParameters_event cfgs
    /\ length added = length (filter is_recognized evs)
    /\ subseq (map config added) (map name cfgs)
    /\ Forall produced added
    /\ ((forall p w, exists e, fst (recognize rt p w) = Throw e) -> added = [])
    /\ ((forall a b w, exists u, fst (setParameters rt a b w) = Ok u) ->
        (forall p w, exists raw, fst (recognize rt p w) = Ok raw) ->
        length added = length cfgs).
Proof.
  induction cfgs as [|cfg rest IH]; intros results st.
  - exists [], st, []. simpl. rewrite !app_nil_r.
    repeat split; auto. constructor.
  - destruct (attempt_spec imagePath results cfg st)
      as (a1 & st1 & ev1 & E1 & L1 & F1 & N1 & C1 & Z1 & A1).
    destruct (IH (results ++ a1) st1)
      as (a2 & st2 & ev2 & E2 & L2 & F2 & N2 & S2 & P2 & Z2 & A2).
    exists (a1 ++ a2), st2, (ev1 ++ ev2).
    repeat split.
    + cbn [run_configurations]. unfold bind at 1. rewrite E1.
      rewrite E2. now rewrite app_assoc.
    + rewrite L2, L1. now rewrite app_assoc.
    + rewrite filter_app, map_app, F1, F2. reflexivity.
    + rewrite filter_app, !length_app, N1, N2. reflexivity.
    + rewrite map_app. cbn [map].
      destruct C1 as [-> | [raw ->]]; simpl.
      * now apply subseq_drop.
      * now apply subseq_keep.
    + apply Forall_app. split; [|exact P2].
      destruct C1 as [-> | [raw ->]]; constructor; [|constructor].
      exists raw. split; reflexivity.
    + intros Hr. rewrite (Z1 Hr), (Z2 Hr). reflexivity.
    + intros Hs Hr. rewrite length_app, (A1 Hs Hr), (A2 Hs Hr). reflexivity.
Qed.

Lemma cleanup_ok (preprocessedPath filePath : jsstring) (st : state) :
  exists st', cleanup rt preprocessedPath filePath st = (Ok tt, st').
Proof.
  unfold cleanup.
  destruct (negb (length preprocessedPath =? 0)
            && negb (str_eqb preprocessedPath filePath)); [|eexists; reflexivity].
  unfold swallow, try_catch, call, ret. destruct st as [w lg]. cbn [fst snd].
  destruct (unlink rt preprocessedPath w) as [[[]|e] w1]; eexists; reflexivity.
Qed.

(** *** Selection *)

Lemma produced_trimmed (c : candidate) : produced c -> trim (text c) = text c.
Proof.
  intros (raw & E & _). rewrite E. unfold cleanOCRText. apply trim_idempotent.
Qed.

Lemma select_cases (results : list candidate) :
  match sort_by by_quality results with
  | [] => select results = Throw msg_no_text
  | bestResult :: _ =>
      match text bestResult with
      | [] => select results = Throw msg_no_text
      | _ :: _ => select results = Ok (text bestResult)
      end
  end.
Proof.
  unfold select. destruct (sort_by by_quality results) as [|b l]; [reflexivity|].
  destruct (text b); reflexivity.
Qed.

Lemma sort_by_nil (results : list candidate) :
  sort_by by_quality results = [] <-> results = [].
Proof.
  split; intros H; [|now subst].
  pose proof (sort_by_perm results) as P. rewrite H in P.
  now apply Permutation_nil in P.
Qed.

(** *** The whole extraction *)

Hypothesis createWorker_ok : forall lang w, exists u, fst (createWorker rt lang w) = Ok u.
Hypothesis terminate_ok : forall w, exists u, fst (terminate rt w) = Ok u.

Lemma extractTextFromImage_spec (filePath : jsstring) (st : state) :
  exists imagePath st1 results st2,
    run_configurations rt imagePath configurations [] st1 = (Ok results, st2)
    /\ Forall produced results
    /\ length results <= length configurations
    /\ fst (extractTextFromImage rt filePath st)
       = match select results with
         | Ok best => Ok best
         | Throw message => Throw (msg_failed_prefix ++ message)
         end.
Proof.
  unfold extractTextFromImage.
  set (preprocessedPath := replace_first no_flags re_extension (js "_preprocessed.png") filePath).
  unfold bind at 1. unfold call at 1. destruct st as [w lg]. cbn [fst snd].
  destruct (createWorker_ok (js "eng") w) as [u Hu].
  destruct (createWorker rt (js "eng") w) as [r0 w0]. cbn [fst] in Hu. subst r0.
  cbn [outcome_of].
  destruct (preprocessImage_ok filePath preprocessedPath
              (w0, lg ++ [(EvCreateWorker (js "eng"), Returned)]))
    as (imagePath & st1 & Ep & _).
  destruct (run_configurations_spec imagePath configurations [] st1)
    as (results & st2 & evs & Er & _ & _ & _ & Hsub & Hprod & _).
  cbn [app] in Er.
  exists imagePath, st1, results, st2.
  split; [exact Er|]. split; [exact Hprod|]. split.
  { apply subseq_length in Hsub. now rewrite !length_map in Hsub. }
  unfold try_catch at 1. unfold bind at 1. rewrite Ep.
  unfold bind at 1. rewrite Er.
  unfold bind at 1.
  destruct (select results) as [best|message]; cbn [lift].
  - unfold ret at 1. unfold bind at 1. unfold call at 1. destruct st2 as [w2 lg2].
    cbn [fst snd].
    destruct (terminate_ok w2) as [u2 Hu2].
    destruct (terminate rt w2) as [r2 w3]. cbn [fst] in Hu2. subst r2.
    cbn [outcome_of]. unfold bind at 1.
    destruct (cleanup_ok preprocessedPath filePath (w3, lg2 ++ [(EvTerminate, Returned)]))
      as [st4 Ec].
    rewrite Ec. reflexivity.
  - unfold throw at 1. unfold bind at 1. unfold call at 1. destruct st2 as [w2 lg2].
    cbn [fst snd].
    destruct (terminate_ok w2) as [u2 Hu2].
    destruct (terminate rt w2) as [r2 w3]. cbn [fst] in Hu2. subst r2.
    cbn [outcome_of]. unfold bind at 1.
    destruct (cleanup_ok preprocessedPath filePath (w3, lg2 ++ [(EvTerminate, Returned)]))
      as [st4 Ec].
    rewrite Ec. reflexivity.
Qed.

End Pipeline.

End OcrFacts.

(** ** The PDF path *)

Module PdfFacts.
Import Pdf.

(** *** Whitespace normalization *)

Lemma trimStart_split (s : jsstring) : exists ws, s = ws ++ trimStart s.
Proof.
  induction s as [|c t [ws IH]]; [exists []; reflexivity|].
  simpl. destruct (is_space c).
  - exists (c :: ws). simpl. now rewrite <- IH.
  - exists []. reflexivity.
Qed.

Lemma trimEnd_split (s : jsstring) : exists ws, s = trimEnd s ++ ws.
Proof.
  unfold trimEnd. destruct (trimStart_split (rev s)) as [ws E].
  exists (rev ws). rewrite <- rev_app_distr, <- E. now rewrite rev_involutive.
Qed.

Lemma prefix_len_app_le (P : char -> bool) (a b : jsstring) :
  prefix_len P a <= prefix_len P (a ++ b).
Proof. induction a as [|c a IH]; simpl; [lia|]. destruct (P c); lia. Qed.

Lemma short_nl_runs_suffix (a b : jsstring) : short_nl_runs (a ++ b) -> short_nl_runs b.
Proof. induction a as [|c a IH]; simpl; [auto | intros [_ H]; auto]. Qed.

Lemma short_nl_runs_prefix (a b : jsstring) : short_nl_runs (a ++ b) -> short_nl_runs a.
Proof.
  induction a as [|c a IH]; [constructor|].
  intros [H1 H2]. split; [|now apply IH].
  pose proof (prefix_len_app_le is_nl (c :: a) b). simpl app in *. lia.
Qed.

Lemma trim_short_nl_runs (s : jsstring) : short_nl_runs s -> short_nl_runs (trim s).
Proof.
  intros H. unfold trim.
  destruct (trimStart_split s) as [ws E]. rewrite E in H.
  apply short_nl_runs_suffix in H.
  destruct (trimEnd_split (trimStart s)) as [ws' E']. rewrite E' in H.
  now apply short_nl_runs_prefix in H.
Qed.

Lemma normalize_short (text : jsstring) : short_nl_runs (normalize text).
Proof. apply trim_short_nl_runs, replace_blank_lines_short. Qed.

Lemma normalize_idempotent (text : jsstring) : normalize (normalize text) = normalize text.
Proof.
  unfold normalize at 1. unfold replace_all.
  rewrite replace_blank_lines_id by apply normalize_short.
  unfold normalize. apply trim_idempotent.
Qed.

(** *** The extractor *)

Section Extractor.

Variable World : Type.
Variable rt : Runtime World.

Let state : Type := (World * log)%type.

Lemma parse_cases (dataBuffer : jsstring) (st : state) :
  match pdfParse rt dataBuffer false (fst st) with
  | (Ok data, w1) =>
      parse rt dataBuffer st
      = (Ok data, (w1, snd st ++ [(EvPdfParse false, Returned)]))
  | (Throw m, w1) =>
      if mentions_xref m then
        match pdfParse rt dataBuffer true w1 with
        | (Ok data, w2) =>
            parse rt dataBuffer st
            = (Ok data,
               (w2, (snd st ++ [(EvPdfParse false, Threw)])
                      ++ [(EvPdfParse true, Returned)]))
        | (Throw _, w2) =>
            parse rt dataBuffer st
            = (Throw (msg_corrupted m),
               (w2, (snd st ++ [(EvPdfParse false, Threw)])
                      ++ [(EvPdfParse true, Threw)]))
        end
      else parse rt dataBuffer st
           = (Throw m, (w1, snd st ++ [(EvPdfParse false, Threw)]))
  end.
Proof.
  unfold parse, try_catch, call, throw. destruct st as [w lg]. cbn [fst snd].
  destruct (pdfParse rt dataBuffer false w) as [[data|m] w1]; [reflexivity|].
  destruct (mentions_xref m); [|reflexivity].
  cbn [fst snd].
  destruct (pdfParse rt dataBuffer true w1) as [[data|m'] w2]; reflexivity.
Qed.

Lemma extractTextFromPDF_cases (filePath : jsstring) (st : state) :
  match readFile rt filePath (fst st) with
  | (Throw m, w1) =>
      extractTextFromPDF rt filePath st
      = (Throw (failure_message m), (w1, snd st ++ [(EvReadFile filePath, Threw)]))
  | (Ok dataBuffer, w1) =>
      match parse rt dataBuffer (w1, snd st ++ [(EvReadFile filePath, Returned)]) with
      | (Throw m, st2) => extractTextFromPDF rt filePath st = (Throw (failure_message m), st2)
      | (Ok data, st2) => extractTextFromPDF rt filePath st = (finish data, st2)
      end
  end.
Proof.
  unfold extractTextFromPDF. unfold try_catch, bind, call.
  destruct st as [w lg]. cbn [fst snd].
  destruct (readFile rt filePath w) as [[buf|m] w1]; [|reflexivity].
  cbn [outcome_of].
  destruct (parse rt buf (w1, lg ++ [(EvReadFile filePath, Returned)])) as [[data|m] st2];
    [|reflexivity].
  unfold finish. destruct data as [[|c t]|]; try reflexivity.
  destruct (length (normalize (c :: t)) =? 0); reflexivity.
Qed.

End Extractor.

End PdfFacts.
(** * Runs of the two extractors *)

Import OcrFacts PdfFacts.

(** ** Substrings *)

Lemma starts_with_app (needle rest : jsstring) : starts_with needle (needle ++ rest) = true.
Proof.
  induction needle as [|c n IH]; simpl; [reflexivity|].
  now rewrite N.eqb_refl, IH.
Qed.

Lemma includes_app (needle before after : jsstring) :
  includes needle (before ++ needle ++ after) = true.
Proof.
  induction before as [|c b IH].
  - simpl app. pose proof (starts_with_app needle after) as H.
    destruct (needle ++ after); simpl; now rewrite H.
  - simpl. rewrite IH. apply orb_true_r.
Qed.

Lemma starts_with_split (needle s : jsstring) :
  starts_with needle s = true -> exists rest, s = needle ++ rest.
Proof.
  revert s. induction needle as [|c n IH]; intros s H; [now exists s|].
  destruct s as [|d s]; [discriminate H|]. cbn [starts_with] in H.
  apply andb_true_iff in H. destruct H as [Hc Hn].
  apply N.eqb_eq in Hc. subst d. destruct (IH s Hn) as [rest E].
  exists rest. cbn [app]. now rewrite <- E.
Qed.

Lemma includes_split (needle s : jsstring) :
  includes needle s = true -> exists before after, s = before ++ needle ++ after.
Proof.
  induction s as [|c s IH]; intros H.
  - cbn [includes] in H. rewrite orb_false_r in H.
    destruct (starts_with_split _ _ H) as [rest E]. now exists [], rest.
  - cbn [includes] in H. apply orb_true_iff in H. destruct H as [H | H].
    + destruct (starts_with_split _ _ H) as [rest E]. now exists [], rest.
    + destruct (IH H) as (b & a & E). exists (c :: b), a. cbn [app]. now rewrite <- E.
Qed.

(** A string that holds the needle still holds it inside a longer one. *)
Lemma includes_inside (needle before s after : jsstring) :
  includes needle s = true -> includes needle (before ++ s ++ after) = true.
Proof.
  intros H. destruct (includes_split _ _ H) as (b & a & E). subst s.
  replace (before ++ (b ++ needle ++ a) ++ after)
    with ((before ++ b) ++ needle ++ (a ++ after))
    by (rewrite <- !app_assoc; reflexivity).
  apply includes_app.
Qed.

(** ** The PDF path *)

Module PdfMore.

Lemma blank_lines_match (prev : option char) (s : jsstring) (n : nat) :
  match_here no_flags re_blank_lines prev s = Some n ->
  subseq (map (fun c => c) [NL; NL]) (map (fun c => c) (firstn n s)).
Proof.
  unfold re_blank_lines. rewrite match_here_run.
  destruct (3 <=? _) eqn:E; [|discriminate].
  apply Nat.leb_le in E. intros [= <-].
  rewrite (@prefix_len_const _ (fun c => c) NL s).
  - apply (@subseq_repeat _ NL 2). lia.
  - intros c Hc. fold is_nl in Hc. rewrite is_nl_eq in Hc.
    apply N.eqb_eq in Hc. now subst.
Qed.

Lemma normalize_subseq (text : jsstring) : subseq (Pdf.normalize text) text.
Proof.
  unfold Pdf.normalize.
  eapply subseq_trans; [apply trim_subseq|].
  rewrite <- (map_id text) at 2.
  rewrite <- (map_id (replace_all no_flags re_blank_lines [NL; NL] text)).
  apply replace_all_subseq. apply blank_lines_match.
Qed.

Lemma normalize_fixed (text : jsstring) :
  Pdf.normalize text = text <-> trim text = text /\ short_nl_runs text.
Proof.
  split.
  - intros E. split.
    + rewrite <- E at 1. unfold Pdf.normalize. rewrite trim_idempotent. exact E.
    + rewrite <- E. apply normalize_short.
  - intros [Et Hs]. unfold Pdf.normalize, replace_all.
    rewrite replace_blank_lines_id by exact Hs. exact Et.
Qed.

Section Extractor.

Variable World : Type.
Variable rt : Pdf.Runtime World.

(** A parse that ends well ends with a call to [pdfParse] that returned. *)
Lemma parse_ok (dataBuffer : jsstring) (st : World * log) (data : option jsstring)
    (st2 : World * log) :
  Pdf.parse rt dataBuffer st = (Ok data, st2) ->
  exists relaxed w w',
    Pdf.pdfParse rt dataBuffer relaxed w = (Ok data, w')
    /\ (snd st2 = snd st ++ [(EvPdfParse false, Returned)]
        \/ snd st2 = snd st ++ [(EvPdfParse false, Threw); (EvPdfParse true, Returned)]).
Proof.
  intros E. pose proof (parse_cases rt dataBuffer st) as H.
  destruct (Pdf.pdfParse rt dataBuffer false (fst st)) as [[d|m] w1] eqn:E1.
  - rewrite E in H. injection H as <- ->. exists false, (fst st), w1.
    split; [exact E1 | left; reflexivity].
  - destruct (Pdf.mentions_xref m).
    + destruct (Pdf.pdfParse rt dataBuffer true w1) as [[d|m'] w2] eqn:E2.
      * rewrite E in H. injection H as <- ->. exists true, w1, w2.
        split; [exact E2 | right]. cbn [snd]. now rewrite <- app_assoc.
      * rewrite E in H. discriminate H.
    + rewrite E in H. discriminate H.
Qed.

Lemma finish_ok (data : option jsstring) (t : jsstring) :
  finish data = Ok t ->
  exists raw, data = Some raw /\ raw <> [] /\ t = Pdf.normalize raw /\ t <> [].
Proof.
  unfold finish. destruct data as [[|c raw]|]; try discriminate.
  destruct (length (Pdf.normalize (c :: raw)) =? 0) eqn:E; [discriminate|].
  intros [= <-]. exists (c :: raw). repeat split; try discriminate.
  apply Nat.eqb_neq in E. intros H. rewrite H in E. now apply E.
Qed.

Lemma extractTextFromPDF_ok (filePath : jsstring) (st : World * log) (t : jsstring)
    (st' : World * log) :
  Pdf.extractTextFromPDF rt filePath st = (Ok t, st') ->
  exists raw dataBuffer relaxed w w',
    Pdf.pdfParse rt dataBuffer relaxed w = (Ok (Some raw), w')
    /\ t = Pdf.normalize raw /\ t <> []
    /\ (snd st' = snd st ++ [(EvReadFile filePath, Returned); (EvPdfParse false, Returned)]
        \/ snd st' = snd st ++ [(EvReadFile filePath, Returned); (EvPdfParse false, Threw);
                                (EvPdfParse true, Returned)]).
Proof.
  intros E. pose proof (extractTextFromPDF_cases rt filePath st) as H.
  destruct (Pdf.readFile rt filePath (fst st)) as [[buf|m] w1].
  2:{ rewrite E in H. discriminate H. }
  destruct (Pdf.parse rt buf (w1, snd st ++ [(EvReadFile filePath, Returned)]))
    as [[data|m] st2] eqn:Ep.
  2:{ rewrite E in H. discriminate H. }
  rewrite E in H. injection H as Hf ->. symmetry in Hf.
  destruct (finish_ok _ Hf) as (raw & -> & _ & Et & Hne).
  destruct (parse_ok _ _ Ep) as (relaxed & w & w' & Hp & Hlog).
  exists raw, buf, relaxed, w, w'. repeat split; try assumption.
  cbn [snd] in Hlog. rewrite <- !app_assoc in Hlog. exact Hlog.
Qed.

(** The failures of the extractor are those the outer [catch] makes. *)
Lemma extractTextFromPDF_throw (filePath : jsstring) (st : World * log) (e : jsstring)
    (st' : World * log) :
  Pdf.extractTextFromPDF rt filePath st = (Throw e, st') ->
  exists m, e = Pdf.failure_message m.
Proof.
  intros E. pose proof (extractTextFromPDF_cases rt filePath st) as H.
  destruct (Pdf.readFile rt filePath (fst st)) as [[buf|m] w1].
  2:{ rewrite E in H. injection H as -> _. now exists m. }
  destruct (Pdf.parse rt buf (w1, snd st ++ [(EvReadFile filePath, Returned)]))
    as [[data|m] st2].
  2:{ rewrite E in H. injection H as -> _. now exists m. }
  rewrite E in H. injection H as Hf _. unfold finish in Hf.
  destruct data as [[|c raw]|].
  - injection Hf as ->. now exists Pdf.msg_no_text.
  - destruct (length (Pdf.normalize (c :: raw)) =? 0); [|discriminate Hf].
    injection Hf as ->. now exists Pdf.msg_no_extractable.
  - injection Hf as ->. now exists Pdf.msg_no_text.
Qed.

Lemma msg_corrupted_eq (m : jsstring) :
  Pdf.msg_corrupted m
  = js "PDF appears to be corrupted or uses unsupported features. Error: " ++ m
    ++ js ". Please try converting the PDF to a standard format or use an image version of the document.".
Proof. reflexivity. Qed.

(** The answer of the inner [try] is that of the parse that counts. *)
Lemma parse_data (dataBuffer : jsstring) (st : World * log) (data : option jsstring) :
  fst (Pdf.parse rt dataBuffer st) = Ok data <-> pdf_data rt dataBuffer (fst st) data.
Proof.
  pose proof (parse_cases rt dataBuffer st) as H. unfold pdf_data.
  destruct (Pdf.pdfParse rt dataBuffer false (fst st)) as [[d|m] w1] eqn:E1.
  - rewrite H. cbn [fst]. split.
    + intros [= <-]. left. now exists w1.
    + intros [[w' [= <- _]] | (m & w2 & w3 & E & _)]; [reflexivity | discriminate E].
  - destruct (Pdf.mentions_xref m) eqn:Ex.
    + destruct (Pdf.pdfParse rt dataBuffer true w1) as [[d|m'] w2] eqn:E2;
        rewrite H; cbn [fst]; split.
      * intros [= <-]. right. exists m, w1, w2. auto.
      * intros [[w' E] | (m0 & w3 & w4 & [= <- <-] & _ & E)]; [discriminate E|].
        rewrite E2 in E. now injection E as <- _.
      * discriminate.
      * intros [[w' E] | (m0 & w3 & w4 & [= <- <-] & _ & E)]; [discriminate E|].
        rewrite E2 in E. discriminate E.
    + rewrite H. cbn [fst]. split; [discriminate|].
      intros [[w' E] | (m0 & w3 & w4 & [= <- <-] & Ex0 & _)]; [discriminate E|].
      rewrite Ex in Ex0. discriminate Ex0.
Qed.

(** What the inner [try] throws. *)
Lemma parse_throws (dataBuffer : jsstring) (st : World * log) (e : jsstring) :
  fst (Pdf.parse rt dataBuffer st) = Throw e
  <-> (exists w1, Pdf.pdfParse rt dataBuffer false (fst st) = (Throw e, w1)
                  /\ Pdf.mentions_xref e = false)
      \/ (exists m w1 m' w2,
             Pdf.pdfParse rt dataBuffer false (fst st) = (Throw m, w1)
             /\ Pdf.mentions_xref m = true
             /\ Pdf.pdfParse rt dataBuffer true w1 = (Throw m', w2)
             /\ e = Pdf.msg_corrupted m).
Proof.
  pose proof (parse_cases rt dataBuffer st) as H.
  destruct (Pdf.pdfParse rt dataBuffer false (fst st)) as [[d|m] w1] eqn:E1.
  - rewrite H. cbn [fst]. split; [discriminate|].
    intros [(w' & E & _) | (m & w' & m' & w2 & E & _)]; discriminate E.
  - destruct (Pdf.mentions_xref m) eqn:Ex.
    + destruct (Pdf.pdfParse rt dataBuffer true w1) as [[d|m'] w2] eqn:E2;
        rewrite H; cbn [fst]; split.
      * discriminate.
      * intros [(w' & [= <- _] & Ex0) | (m0 & w' & m' & w3 & [= <- <-] & _ & E & _)].
        -- rewrite Ex in Ex0. discriminate Ex0.
        -- rewrite E2 in E. discriminate E.
      * intros [= <-]. right. exists m, w1, m', w2. auto.
      * intros [(w' & [= <- _] & Ex0) | (m0 & w' & m'' & w3 & [= <- <-] & _ & _ & ->)].
        -- rewrite Ex in Ex0. discriminate Ex0.
        -- reflexivity.
    + rewrite H. cbn [fst]. split.
      * intros [= <-]. left. now exists w1.
      * intros [(w' & [= <- _] & _) | (m0 & w' & m' & w3 & [= <- <-] & Ex0 & _)].
        -- reflexivity.
        -- rewrite Ex in Ex0. discriminate Ex0.
Qed.

Lemma finish_throws (data : option jsstring) (e : jsstring) :
  finish data = Throw e
  <-> ((data = None \/ data = Some []) /\ e = Pdf.failure_message Pdf.msg_no_text)
      \/ (exists text, data = Some text /\ text <> [] /\ Pdf.normalize text = []
                       /\ e = Pdf.failure_message Pdf.msg_no_extractable).
Proof.
  unfold finish. destruct data as [[|c t]|].
  - split.
    + intros [= <-]. left. auto.
    + intros [[_ ->] | (text & [= <-] & Hne & _)]; [reflexivity | now elim Hne].
  - destruct (Pdf.normalize (c :: t)) as [|d n] eqn:En; cbn [length Nat.eqb].
    + split.
      * intros [= <-]. right. exists (c :: t). repeat split; auto. discriminate.
      * intros [[[H | H] _] | (text & _ & _ & _ & ->)]; [discriminate H..|reflexivity].
    + split; [discriminate|].
      intros [[[H | H] _] | (text & [= <-] & _ & E & _)]; [discriminate H..|].
      rewrite En in E. discriminate E.
  - split.
    + intros [= <-]. left. auto.
    + intros [[_ ->] | (text & H & _)]; [reflexivity | discriminate H].
Qed.

(** The extractor throws exactly the report of a cause. *)
Lemma extractTextFromPDF_fails (filePath : jsstring) (st : World * log)
    (message : jsstring) :
  fst (Pdf.extractTextFromPDF rt filePath st) = Throw message
  <-> exists m, pdf_cause rt filePath (fst st) m /\ message = Pdf.failure_message m.
Proof.
  pose proof (extractTextFromPDF_cases rt filePath st) as H.
  destruct (Pdf.readFile rt filePath (fst st)) as [[buf|m] w1] eqn:Er.
  2:{ rewrite H. cbn [fst]. split.
      - intros [= <-]. exists m. split; [|reflexivity]. now apply cause_read with w1.
      - intros (m0 & Hc & ->). inversion Hc; congruence. }
  set (st1 := (w1, snd st ++ [(EvReadFile filePath, Returned)])) in *.
  pose proof (parse_data buf st1) as Hd. pose proof (parse_throws buf st1) as Ht.
  change (fst st1) with w1 in Hd, Ht.
  destruct (Pdf.parse rt buf st1) as [[data|e] st2]; rewrite H; cbn [fst] in *.
  - assert (Hdata : forall d, pdf_data rt buf w1 d -> d = data).
    { intros d Hp. apply Hd in Hp. now injection Hp. }
    assert (Hno : forall e, ~ ((exists w2, Pdf.pdfParse rt buf false w1 = (Throw e, w2)
                                          /\ Pdf.mentions_xref e = false)
                               \/ (exists m w2 m' w3,
                                     Pdf.pdfParse rt buf false w1 = (Throw m, w2)
                                     /\ Pdf.mentions_xref m = true
                                     /\ Pdf.pdfParse rt buf true w2 = (Throw m', w3)
                                     /\ e = Pdf.msg_corrupted m))).
    { intros e Hp. apply Ht in Hp. discriminate Hp. }
    rewrite finish_throws. split.
    + intros [[Hn ->] | (text & -> & Hne & En & ->)].
      * exists Pdf.msg_no_text. split; [|reflexivity].
        apply cause_no_text with buf w1 data; [exact Er | | exact Hn].
        now apply Hd.
      * exists Pdf.msg_no_extractable. split; [|reflexivity].
        apply cause_blank with buf w1 text; [exact Er | | exact Hne | exact En].
        now apply Hd.
    + intros (m & Hc & ->). inversion Hc as
        [m0 w' E | b w' m0 w2 E E1 Ex | b w' m0 w2 m' w3 E E1 Ex E2
         | b w' d E Hp Hn | b w' text E Hp Hne En]; subst;
        rewrite Er in E; try discriminate E; injection E as <- <-.
      * exfalso. apply (Hno m). left. now exists w2.
      * rewrite <- msg_corrupted_eq.
        exfalso. apply (Hno (Pdf.msg_corrupted m0)). right. exists m0, w2, m', w3. auto.
      * left. apply Hdata in Hp. subst d. auto.
      * right. apply Hdata in Hp. subst data. exists text. auto.
  - assert (Hdata : forall d, ~ pdf_data rt buf w1 d).
    { intros d Hp. apply Hd in Hp. discriminate Hp. }
    split.
    + intros [= <-]. destruct (proj1 (Ht e) eq_refl)
        as [(w2 & E1 & Ex) | (m & w2 & m' & w3 & E1 & Ex & E2 & ->)].
      * exists e. split; [|reflexivity]. now apply cause_parse with buf w1 w2.
      * exists (Pdf.msg_corrupted m). split; [|reflexivity].
        rewrite msg_corrupted_eq.
        exact (cause_retry rt filePath (fst st) Er E1 Ex E2).
    + intros (m & Hc & ->). inversion Hc as
        [m0 w' E | b w' m0 w2 E E1 Ex | b w' m0 w2 m' w3 E E1 Ex E2
         | b w' d E Hp Hn | b w' text E Hp Hne En]; subst;
        rewrite Er in E; try discriminate E; injection E as <- <-.
      * assert (He : Throw (A := option jsstring) e = Throw m).
        { apply Ht. left. now exists w2. }
        now injection He as ->.
      * assert (He : Throw (A := option jsstring) e = Throw (Pdf.msg_corrupted m0)).
        { apply Ht. right. exists m0, w2, m', w3. auto. }
        injection He as ->. now rewrite msg_corrupted_eq.
      * elim (Hdata _ Hp).
      * elim (Hdata _ Hp).
Qed.

(** The report of the second parse names XRef with the first. *)
Lemma msg_corrupted_xref (m : jsstring) :
  Pdf.mentions_xref m = true -> Pdf.mentions_xref (Pdf.msg_corrupted m) = true.
Proof.
  unfold Pdf.mentions_xref, Pdf.msg_corrupted. intros H.
  rewrite (app_assoc (js "PDF appears to be corrupted or uses unsupported features. ")).
  apply orb_true_iff in H. apply orb_true_iff.
  destruct H as [H | H]; [left | right]; now apply includes_inside.
Qed.

End Extractor.

End PdfMore.

(** ** Traces *)

Module TraceFacts.

Ltac log_eq :=
  rewrite <- ?app_assoc; cbn [app]; rewrite <- ?app_assoc; cbn [app]; reflexivity.

Section Emits.

Variable World : Type.
Variable P : event * outcome -> bool.

Lemma emits_ret {A} (a : A) : emits P (@ret World A a).
Proof. intros st. exists []. cbn. now rewrite app_nil_r. Qed.

Lemma emits_throw {A} (message : jsstring) : emits P (@throw World A message).
Proof. intros st. exists []. cbn. now rewrite app_nil_r. Qed.

Lemma emits_call {A} (ev : event) (op : World -> result A * World) :
  P (ev, Returned) = true -> P (ev, Threw) = true -> emits P (call ev op).
Proof.
  intros H1 H2 st. unfold call. destruct (op (fst st)) as [r w'].
  exists [(ev, outcome_of r)]. cbn [snd forallb]. split; [reflexivity|].
  destruct r; cbn [outcome_of]; now rewrite ?H1, ?H2.
Qed.

Lemma emits_bind {A B} (m : M World A) (k : A -> M World B) :
  emits P m -> (forall a, emits P (k a)) -> emits P (bind m k).
Proof.
  intros Hm Hk st. unfold bind. destruct (Hm st) as (e1 & E1 & F1).
  destruct (m st) as [[a|e] st1]; cbn [snd] in E1.
  - destruct (Hk a st1) as (e2 & E2 & F2). exists (e1 ++ e2).
    rewrite E2, E1, app_assoc, forallb_app, F1, F2. split; reflexivity.
  - exists e1. split; assumption.
Qed.

Lemma emits_try_catch {A} (m : M World A) (handler : jsstring -> M World A) :
  emits P m -> (forall e, emits P (handler e)) -> emits P (try_catch m handler).
Proof.
  intros Hm Hh st. unfold try_catch. destruct (Hm st) as (e1 & E1 & F1).
  destruct (m st) as [[a|e] st1]; cbn [snd] in E1.
  - exists e1. split; assumption.
  - destruct (Hh e st1) as (e2 & E2 & F2). exists (e1 ++ e2).
    rewrite E2, E1, app_assoc, forallb_app, F1, F2. split; reflexivity.
Qed.

Lemma emits_swallow (m : M World unit) : emits P m -> emits P (swallow m).
Proof. intros H. apply emits_try_catch; [exact H | intros e; apply emits_ret]. Qed.

End Emits.

Lemma emits_weaken {World A} (P Q : event * outcome -> bool) (m : M World A) :
  (forall entry, P entry = true -> Q entry = true) -> emits P m -> emits Q m.
Proof.
  intros HPQ Hm st. destruct (Hm st) as (evs & E & F). exists evs. split; [exact E|].
  rewrite forallb_forall in *. intros x Hx. apply HPQ, F, Hx.
Qed.

(** The calls added by a run that ended in a known state. *)
Lemma emits_run {World A} (P : event * outcome -> bool) (m : M World A)
    (st : World * log) (r : result A) (st' : World * log) :
  emits P m -> m st = (r, st') ->
  exists evs, snd st' = snd st ++ evs /\ forallb P evs = true.
Proof. intros Hm E. destruct (Hm st) as (evs & H & F). rewrite E in H. now exists evs. Qed.

End TraceFacts.
Import TraceFacts.

(** ** The OCR extractor *)

Module OcrMore.
Import Ocr.

Section Pipeline.

Variable World : Type.
Variable rt : Runtime World.

Lemma preprocessImage_emits (inputPath outputPath : jsstring) :
  emits is_work (preprocessImage rt inputPath outputPath).
Proof.
  unfold preprocessImage. destruct (sharp rt) as [lib|]; [|apply emits_ret].
  apply emits_try_catch; [|intros e; apply emits_ret].
  apply emits_bind; [now apply emits_call|]. intros md.
  apply emits_bind; [now apply emits_call|]. intros u. apply emits_ret.
Qed.

Lemma attempt_emits (imagePath : jsstring) (results : list candidate) (cfg : configuration) :
  emits is_work (attempt rt imagePath results cfg).
Proof.
  unfold attempt. apply emits_try_catch; [|intros e; apply emits_ret].
  apply emits_bind; [now apply emits_call|]. intros u.
  apply emits_bind; [now apply emits_call|]. intros raw. apply emits_ret.
Qed.

Lemma run_configurations_emits (imagePath : jsstring) (cfgs : list configuration) :
  forall results, emits is_work (run_configurations rt imagePath cfgs results).
Proof.
  induction cfgs as [|cfg rest IH]; intros results; cbn [run_configurations].
  - apply emits_ret.
  - apply emits_bind; [apply attempt_emits | intros r; apply IH].
Qed.

(** The clean-up never throws; it calls [unlink] at most once, on the
    preprocessed path, and only when that is not the input path. *)
Lemma cleanup_cases (preprocessedPath filePath : jsstring) (st : World * log) :
  exists st' unlinks,
    cleanup rt preprocessedPath filePath st = (Ok tt, st')
    /\ snd st' = snd st ++ unlinks
    /\ (unlinks = []
        \/ exists o, unlinks = [(EvUnlink preprocessedPath, o)]
                     /\ str_eqb preprocessedPath filePath = false)
    /\ length unlinks
       = if negb (length preprocessedPath =? 0)
            && negb (str_eqb preprocessedPath filePath)
         then 1 else 0.
Proof.
  unfold cleanup.
  destruct (negb (length preprocessedPath =? 0)) eqn:E1; cbn [andb].
  2:{ exists st, []. rewrite app_nil_r. repeat split. now left. }
  destruct (str_eqb preprocessedPath filePath) eqn:E2; cbn [negb].
  { exists st, []. rewrite app_nil_r. repeat split. now left. }
  unfold swallow, try_catch, call, ret. destruct st as [w lg]. cbn [fst snd].
  destruct (unlink rt preprocessedPath w) as [[[]|e] w1]; cbn [outcome_of].
  - eexists _, _. split; [reflexivity|]. split; [reflexivity|].
    split; [right; now eexists | reflexivity].
  - eexists _, _. split; [reflexivity|]. split; [reflexivity|].
    split; [right; now eexists | reflexivity].
Qed.

(** The end of either branch: [terminate], then the clean-up. *)
Lemma closing_cases {A} (preprocessedPath filePath : jsstring) (k : M World A)
    (st : World * log) :
  match terminate rt (fst st) with
  | (Ok _, _) =>
      exists st' unlinks,
        (call EvTerminate (terminate rt) ;;; cleanup rt preprocessedPath filePath ;;; k)%js st
        = k st'
        /\ snd st' = snd st ++ (EvTerminate, Returned) :: unlinks
        /\ (unlinks = []
            \/ exists o, unlinks = [(EvUnlink preprocessedPath, o)]
                         /\ str_eqb preprocessedPath filePath = false)
        /\ length unlinks
           = if negb (length preprocessedPath =? 0)
                && negb (str_eqb preprocessedPath filePath)
             then 1 else 0
  | (Throw e, w1) =>
      (call EvTerminate (terminate rt) ;;; cleanup rt preprocessedPath filePath ;;; k)%js st
      = (Throw e, (w1, snd st ++ [(EvTerminate, Threw)]))
  end.
Proof.
  unfold bind at 1 3. unfold call. destruct st as [w lg]. cbn [fst snd].
  destruct (terminate rt w) as [[u|e] w1]; cbn [outcome_of fst snd]; [|reflexivity].
  destruct (cleanup_cases preprocessedPath filePath (w1, lg ++ [(EvTerminate, Returned)]))
    as (st' & unlinks & Ec & El & Hu & Hn).
  exists st', unlinks. unfold bind at 1. rewrite Ec. split; [reflexivity|].
  split; [|split; [exact Hu | exact Hn]]. rewrite El. cbn [snd]. now rewrite <- app_assoc.
Qed.

(** The extractor, one step in: the worker is made outside the [try]. *)
Lemma extractTextFromImage_unfold (filePath : jsstring) (st : World * log) :
  extractTextFromImage rt filePath st
  = match createWorker rt (js "eng") (fst st) with
    | (Ok _, w0) =>
        try_catch
          (imagePath <- preprocessImage rt filePath (preprocessedPath filePath) ;;
           results <- run_configurations rt imagePath configurations [] ;;
           best <- lift (select results) ;;
           call EvTerminate (terminate rt) ;;;
           cleanup rt (preprocessedPath filePath) filePath ;;;
           ret best)%js
          (fun message =>
             call EvTerminate (terminate rt) ;;;
             cleanup rt (preprocessedPath filePath) filePath ;;;
             throw (msg_failed_prefix ++ message))%js
          (w0, snd st ++ [(EvCreateWorker (js "eng"), Returned)])
    | (Throw e, w0) => (Throw e, (w0, snd st ++ [(EvCreateWorker (js "eng"), Threw)]))
    end.
Proof.
  unfold extractTextFromImage. unfold bind at 1. unfold call at 1.
  destruct (createWorker rt (js "eng") (fst st)) as [[u|e] w0]; reflexivity.
Qed.

(** The body of the loop does to a profile what [profile_step] asks. *)
Lemma attempt_step (imagePath : jsstring) (results : list candidate)
    (cfg : configuration) (st : World * log) :
  exists found st' evs,
    attempt rt imagePath results cfg st = (Ok (results ++ found), st')
    /\ snd st' = snd st ++ evs
    /\ profile_step rt imagePath cfg (fst st) (fst st') evs found
    /\ length (filter is_recognize evs) = length (filter is_parameters_set evs).
Proof.
  pose proof (attempt_cases rt imagePath results cfg st) as H.
  destruct (setParameters rt (tessedit_pageseg_mode cfg) (tessedit_ocr_engine_mode cfg)
              (fst st)) as [[u|e] w1] eqn:Es.
  - destruct (recognize rt imagePath w1) as [[raw|e] w2] eqn:Er.
    + eexists [candidate_of cfg raw], _, _. split; [exact H|]. cbn [fst snd].
      split; [rewrite <- app_assoc; reflexivity|].
      split; [exact (profile_read rt imagePath cfg (fst st) Es Er) | reflexivity].
    + eexists [], _, _. rewrite app_nil_r. split; [exact H|]. cbn [fst snd].
      split; [rewrite <- app_assoc; reflexivity|].
      split; [exact (profile_failed rt imagePath cfg (fst st) Es Er) | reflexivity].
  - eexists [], _, _. rewrite app_nil_r. split; [exact H|]. cbn [fst snd].
    split; [reflexivity|].
    split; [exact (profile_rejected rt imagePath cfg (fst st) Es) | reflexivity].
Qed.

(** The loop takes the profiles in turn, whatever throws on the way. *)
Lemma run_configurations_steps (imagePath : jsstring) (cfgs : list configuration) :
  forall (results : list candidate) (st : World * log),
  exists found st' evs,
    run_configurations rt imagePath cfgs results st = (Ok (results ++ found), st')
    /\ snd st' = snd st ++ evs
    /\ profiles_run rt imagePath cfgs (fst st) (fst st') evs found
    /\ length (filter is_recognize evs) = length (filter is_parameters_set evs).
Proof.
  induction cfgs as [|cfg rest IH]; intros results st.
  - exists [], st, []. rewrite !app_nil_r. repeat split. constructor.
  - destruct (attempt_step imagePath results cfg st) as (f1 & st1 & ev1 & E1 & L1 & S1 & N1).
    destruct (IH (results ++ f1) st1) as (f2 & st2 & ev2 & E2 & L2 & S2 & N2).
    exists (f1 ++ f2), st2, (ev1 ++ ev2). split; [|split; [|split]].
    + cbn [run_configurations]. unfold bind at 1. rewrite E1, E2.
      now rewrite app_assoc.
    + rewrite L2, L1. now rewrite app_assoc.
    + exact (profiles_next S1 S2).
    + rewrite !filter_app, !length_app, N1, N2. reflexivity.
Qed.

(** A run of the extractor, step by step: what it returns and what it
    calls, by what [select] makes of the candidates and by how the calls
    to [terminate] end. *)
Lemma extractTextFromImage_exact (filePath : jsstring) (st : World * log) :
  match createWorker rt (js "eng") (fst st) with
  | (Throw e, w0) =>
      extractTextFromImage rt filePath st
      = (Throw e, (w0, snd st ++ [(EvCreateWorker (js "eng"), Threw)]))
  | (Ok _, w0) =>
      exists imagePath st1 results st2 work unlinks,
        preprocessImage rt filePath (preprocessedPath filePath)
          (w0, snd st ++ [(EvCreateWorker (js "eng"), Returned)]) = (Ok imagePath, st1)
        /\ run_configurations rt imagePath configurations [] st1 = (Ok results, st2)
        /\ Forall produced results
        /\ snd st2 = snd st ++ (EvCreateWorker (js "eng"), Returned) :: work
        /\ forallb is_work work = true
        /\ (unlinks = []
            \/ exists o, unlinks = [(EvUnlink (preprocessedPath filePath), o)]
                         /\ str_eqb (preprocessedPath filePath) filePath = false)
        /\ match terminate rt (fst st2) with
           | (Ok _, _) =>
               fst (extractTextFromImage rt filePath st)
               = match select results with
                 | Ok best => Ok best
                 | Throw message => Throw (msg_failed_prefix ++ message)
                 end
               /\ snd (snd (extractTextFromImage rt filePath st))
                  = snd st2 ++ (EvTerminate, Returned) :: unlinks
               /\ length unlinks
                  = if negb (length (preprocessedPath filePath) =? 0)
                       && negb (str_eqb (preprocessedPath filePath) filePath)
                    then 1 else 0
           | (Throw e1, w3) =>
               match select results with
               | Throw _ =>
                   extractTextFromImage rt filePath st
                   = (Throw e1, (w3, snd st2 ++ [(EvTerminate, Threw)]))
               | Ok _ =>
                   match terminate rt w3 with
                   | (Ok _, _) =>
                       fst (extractTextFromImage rt filePath st)
                       = Throw (msg_failed_prefix ++ e1)
                       /\ snd (snd (extractTextFromImage rt filePath st))
                          = snd st2 ++ (EvTerminate, Threw) :: (EvTerminate, Returned)
                                       :: unlinks
                       /\ length unlinks
                          = if negb (length (preprocessedPath filePath) =? 0)
                               && negb (str_eqb (preprocessedPath filePath) filePath)
                            then 1 else 0
                   | (Throw e2, w4) =>
                       extractTextFromImage rt filePath st
                       = (Throw e2,
                          (w4, snd st2 ++ [(EvTerminate, Threw); (EvTerminate, Threw)]))
                   end
               end
           end
  end.
Proof.
  rewrite extractTextFromImage_unfold.
  destruct st as [w lg]. cbn [fst snd].
  destruct (createWorker rt (js "eng") w) as [[u|e] w0]; [|reflexivity].
  set (P := preprocessedPath filePath).
  set (st0 := (w0, lg ++ [(EvCreateWorker (js "eng"), Returned)])).
  destruct (preprocessImage_ok rt filePath P st0) as (imagePath & st1 & Ep & _).
  destruct (@emits_run _ _ _ _ _ _ _ (preprocessImage_emits filePath P) Ep)
    as (e1 & L1 & F1).
  destruct (run_configurations_spec rt imagePath configurations [] st1)
    as (results & st2 & evs & Er & _ & _ & _ & _ & Hprod & _).
  cbn [app] in Er.
  destruct (@emits_run _ _ _ _ _ _ _
              (run_configurations_emits imagePath configurations []) Er)
    as (e2 & L2 & F2).
  assert (Hwork : forallb is_work (e1 ++ e2) = true) by now rewrite forallb_app, F1, F2.
  assert (Hlog : snd st2 = lg ++ (EvCreateWorker (js "eng"), Returned) :: e1 ++ e2).
  { rewrite L2, L1. unfold st0. cbn [snd]. rewrite <- !app_assoc. reflexivity. }
  clearbody st0. clear L1 L2 F1 F2.
  remember (try_catch _ _ st0) as R eqn:ER.
  unfold try_catch at 1 in ER. unfold bind at 1 in ER. rewrite Ep in ER.
  unfold bind at 1 in ER. rewrite Er in ER. unfold bind at 1 in ER.
  destruct (select results) as [best|message] eqn:Es; cbn [lift] in ER.
  - unfold ret at 1 in ER.
    pose proof (closing_cases P filePath (ret best) st2) as Hc.
    destruct (terminate rt (fst st2)) as [[u2|e2'] w3] eqn:Et.
    + destruct Hc as (st' & unlinks & Ec & El & Hu & Hn).
      exists imagePath, st1, results, st2, (e1 ++ e2), unlinks.
      rewrite Ec in ER. unfold ret in ER. subst R. cbn [fst snd].
      rewrite Et, Es. repeat split; assumption.
    + rewrite Hc in ER.
      pose proof (closing_cases P filePath (@throw World jsstring (msg_failed_prefix ++ e2'))
                    (w3, snd st2 ++ [(EvTerminate, Threw)])) as Hc2.
      cbn [fst snd] in Hc2.
      destruct (terminate rt w3) as [[u3|e3] w4] eqn:Et2.
      * destruct Hc2 as (st' & unlinks & Ec & El & Hu & Hn).
        exists imagePath, st1, results, st2, (e1 ++ e2), unlinks.
        rewrite Ec in ER. unfold throw in ER. subst R. cbn [fst snd].
        rewrite Et, Es, Et2. repeat split; try assumption.
        rewrite El. log_eq.
      * exists imagePath, st1, results, st2, (e1 ++ e2), [].
        rewrite Hc2 in ER. subst R.
        rewrite Et, Es, Et2. repeat split; try assumption; [now left | log_eq].
  - unfold throw at 1 in ER.
    pose proof (closing_cases P filePath
                  (@throw World jsstring (msg_failed_prefix ++ message)) st2) as Hc.
    destruct (terminate rt (fst st2)) as [[u2|e2'] w3] eqn:Et.
    + destruct Hc as (st' & unlinks & Ec & El & Hu & Hn).
      exists imagePath, st1, results, st2, (e1 ++ e2), unlinks.
      rewrite Ec in ER. unfold throw in ER. subst R. cbn [fst snd].
      rewrite Et, Es. repeat split; assumption.
    + exists imagePath, st1, results, st2, (e1 ++ e2), [].
      rewrite Hc in ER. subst R.
      rewrite Et, Es. repeat split; try assumption. now left.
Qed.

(** A run of the extractor: its result and its calls. *)
Lemma extractTextFromImage_run (filePath : jsstring) (st : World * log) :
  match createWorker rt (js "eng") (fst st) with
  | (Throw e, w0) =>
      extractTextFromImage rt filePath st
      = (Throw e, (w0, snd st ++ [(EvCreateWorker (js "eng"), Threw)]))
  | (Ok _, _) =>
      exists results work closing unlinks,
        Forall produced results
        /\ snd (snd (extractTextFromImage rt filePath st))
           = snd st ++ (EvCreateWorker (js "eng"), Returned) :: work ++ closing ++ unlinks
        /\ forallb is_work work = true
        /\ (unlinks = []
            \/ exists o, unlinks = [(EvUnlink (preprocessedPath filePath), o)]
                         /\ str_eqb (preprocessedPath filePath) filePath = false)
        /\ ((closing = [(EvTerminate, Returned)]
             /\ fst (extractTextFromImage rt filePath st)
                = match select results with
                  | Ok best => Ok best
                  | Throw message => Throw (msg_failed_prefix ++ message)
                  end
             /\ length unlinks
                = if negb (length (preprocessedPath filePath) =? 0)
                     && negb (str_eqb (preprocessedPath filePath) filePath)
                  then 1 else 0)
            \/ (closing = [(EvTerminate, Threw); (EvTerminate, Returned)]
                /\ (exists w e, fst (terminate rt w) = Throw e)
                /\ exists best e,
                     select results = Ok best
                     /\ fst (extractTextFromImage rt filePath st)
                        = Throw (msg_failed_prefix ++ e))
            \/ (unlinks = []
                /\ (exists w e, fst (terminate rt w) = Throw e)
                /\ (exists e, fst (extractTextFromImage rt filePath st) = Throw e)
                /\ ((closing = [(EvTerminate, Threw); (EvTerminate, Threw)]
                     /\ exists best, select results = Ok best)
                    \/ (closing = [(EvTerminate, Threw)]
                        /\ exists message, select results = Throw message))))
  end.
Proof.
  rewrite extractTextFromImage_unfold.
  destruct st as [w lg]. cbn [fst snd].
  destruct (createWorker rt (js "eng") w) as [[u|e] w0]; [|reflexivity].
  set (P := preprocessedPath filePath).
  set (st0 := (w0, lg ++ [(EvCreateWorker (js "eng"), Returned)])).
  destruct (preprocessImage_ok rt filePath P st0) as (imagePath & st1 & Ep & _).
  destruct (@emits_run _ _ _ _ _ _ _ (preprocessImage_emits filePath P) Ep)
    as (e1 & L1 & F1).
  destruct (run_configurations_spec rt imagePath configurations [] st1)
    as (results & st2 & evs & Er & _ & _ & _ & _ & Hprod & _).
  cbn [app] in Er.
  destruct (@emits_run _ _ _ _ _ _ _
              (run_configurations_emits imagePath configurations []) Er)
    as (e2 & L2 & F2).
  assert (Hwork : forallb is_work (e1 ++ e2) = true) by now rewrite forallb_app, F1, F2.
  assert (Hlog : snd st2 = lg ++ (EvCreateWorker (js "eng"), Returned) :: e1 ++ e2).
  { rewrite L2, L1. unfold st0. cbn [snd]. rewrite <- !app_assoc. reflexivity. }
  clearbody st0. clear L1 L2 F1 F2.
  remember (try_catch _ _ st0) as R eqn:ER.
  unfold try_catch at 1 in ER. unfold bind at 1 in ER. rewrite Ep in ER.
  unfold bind at 1 in ER. rewrite Er in ER. unfold bind at 1 in ER.
  destruct (select results) as [best|message] eqn:Es; cbn [lift] in ER.
  - unfold ret at 1 in ER.
    pose proof (closing_cases P filePath (ret best) st2) as Hc.
    destruct (terminate rt (fst st2)) as [[u2|e2'] w3] eqn:Et.
    + destruct Hc as (st' & unlinks & Ec & El & Hu & Hn).
      exists results, (e1 ++ e2), [(EvTerminate, Returned)], unlinks.
      rewrite Ec in ER. unfold ret in ER. subst R. cbn [fst snd].
      split; [exact Hprod|]. split.
      { rewrite El, Hlog. log_eq. }
      split; [exact Hwork|]. split; [exact Hu|].
      left. split; [reflexivity|]. split; [rewrite Es; reflexivity | exact Hn].
    + rewrite Hc in ER.
      pose proof (closing_cases P filePath (@throw World jsstring (msg_failed_prefix ++ e2'))
                    (w3, snd st2 ++ [(EvTerminate, Threw)])) as Hc2.
      cbn [fst snd] in Hc2.
      destruct (terminate rt w3) as [[u3|e3] w4] eqn:Et2.
      * destruct Hc2 as (st' & unlinks & Ec & El & Hu & Hn).
        exists results, (e1 ++ e2), [(EvTerminate, Threw); (EvTerminate, Returned)], unlinks.
        rewrite Ec in ER. unfold throw in ER. subst R. cbn [fst snd].
        split; [exact Hprod|]. split.
        { rewrite El, Hlog. log_eq. }
        split; [exact Hwork|]. split; [exact Hu|].
        right. left. split; [reflexivity|].
        split; [exists (fst st2), e2'; now rewrite Et|].
        exists best, e2'. split; [exact Es | reflexivity].
      * exists results, (e1 ++ e2), [(EvTerminate, Threw); (EvTerminate, Threw)], [].
        rewrite Hc2 in ER. subst R. cbn [fst snd].
        split; [exact Hprod|]. split.
        { rewrite Hlog. log_eq. }
        split; [exact Hwork|]. split; [now left|].
        right. right. split; [reflexivity|].
        split; [exists (fst st2), e2'; now rewrite Et|]. split; [now exists e3|].
        left. split; [reflexivity | exists best; exact Es].
  - unfold throw at 1 in ER.
    pose proof (closing_cases P filePath
                  (@throw World jsstring (msg_failed_prefix ++ message)) st2) as Hc.
    destruct (terminate rt (fst st2)) as [[u2|e2'] w3] eqn:Et.
    + destruct Hc as (st' & unlinks & Ec & El & Hu & Hn).
      exists results, (e1 ++ e2), [(EvTerminate, Returned)], unlinks.
      rewrite Ec in ER. unfold throw in ER. subst R. cbn [fst snd].
      split; [exact Hprod|]. split.
      { rewrite El, Hlog. log_eq. }
      split; [exact Hwork|]. split; [exact Hu|].
      left. split; [reflexivity|]. split; [rewrite Es; reflexivity | exact Hn].
    + exists results, (e1 ++ e2), [(EvTerminate, Threw)], [].
      rewrite Hc in ER. subst R. cbn [fst snd].
      split; [exact Hprod|]. split.
      { rewrite Hlog. log_eq. }
      split; [exact Hwork|]. split; [now left|].
      right. right. split; [reflexivity|].
      split; [exists (fst st2), e2'; now rewrite Et|]. split; [now exists e2'|].
      right. split; [reflexivity | exists message; exact Es].
Qed.

Lemma str_eqb_eq (a b : jsstring) : str_eqb a b = true <-> a = b.
Proof.
  revert b. induction a as [|x a IH]; intros [|y b]; simpl; split; try discriminate;
    try reflexivity.
  - intros H. apply andb_true_iff in H. destruct H as [H1 H2].
    apply N.eqb_eq in H1. apply IH in H2. now subst.
  - intros [= -> ->]. rewrite N.eqb_refl. now apply IH.
Qed.

Lemma is_work_ocr_call (filePath : jsstring) (entry : event * outcome) :
  is_work entry = true -> is_ocr_call filePath entry = true.
Proof. destruct entry as [[] o]; cbn; intros H; try discriminate H; reflexivity. Qed.

(** The extractor never calls [unlink] on its input file, nor anything of
    the PDF path. *)
Lemma extractTextFromImage_emits (filePath : jsstring) :
  emits (is_ocr_call filePath) (extractTextFromImage rt filePath).
Proof.
  intros st. pose proof (extractTextFromImage_run filePath st) as H.
  destruct (createWorker rt (js "eng") (fst st)) as [[u|e] w0].
  - destruct H as (results & work & closing & unlinks & _ & Hlog & Hwork & Hu & Hc).
    eexists. split; [exact Hlog|].
    cbn [forallb]. rewrite !forallb_app.
    assert (H1 : forallb (is_ocr_call filePath) work = true).
    { rewrite forallb_forall in *. intros x Hx. apply is_work_ocr_call, Hwork, Hx. }
    assert (H2 : forallb (is_ocr_call filePath) closing = true).
    { destruct Hc as [[-> _] | [[-> _] | (_ & _ & _ & [[-> _] | [-> _]])]]; reflexivity. }
    assert (H3 : forallb (is_ocr_call filePath) unlinks = true).
    { destruct Hu as [-> | (o & -> & E)]; [reflexivity|].
      cbn. now rewrite E. }
    now rewrite H1, H2, H3.
  - rewrite H. eexists. split; reflexivity.
Qed.

(** A text the extractor returns is a sanitized text, and not empty. *)
Lemma extractTextFromImage_ok (filePath : jsstring) (st : World * log) (t : jsstring) :
  fst (extractTextFromImage rt filePath st) = Ok t ->
  t <> [] /\ exists raw, t = cleanOCRText raw.
Proof.
  intros E. pose proof (extractTextFromImage_run filePath st) as H.
  destruct (createWorker rt (js "eng") (fst st)) as [[u|e] w0].
  2:{ rewrite H in E. discriminate E. }
  destruct H as (results & work & closing & unlinks & Hprod & _ & _ & _ & Hc).
  assert (Hs : select results = Ok t).
  { destruct Hc as [(_ & Hr & _) | [(_ & _ & b & e & _ & Hr) | (_ & _ & (e & Hr) & _)]];
      rewrite Hr in E; [|discriminate E|discriminate E].
    destruct (select results); [exact E | discriminate E]. }
  pose proof (select_cases results) as Hsel.
  pose proof (sort_by_perm results) as Hperm.
  destruct (sort_by by_quality results) as [|best rest]; [congruence|].
  assert (Hin : In best results).
  { apply (Permutation_in best Hperm). now left. }
  rewrite Forall_forall in Hprod. destruct (Hprod best Hin) as (raw & Eraw & _).
  destruct (text best) as [|c t'] eqn:Et; [congruence|].
  rewrite Hsel in Hs. injection Hs as <-. split; [discriminate|].
  exists raw. exact Eraw.
Qed.

End Pipeline.

End OcrMore.


(** * Properties of the specification *)

Import OcrFacts PdfFacts.

(** ** Text Sanitizer *)

(** C1.  A line made of a number and the word others is an engagement
    metric the sanitizer sets out to drop, yet with a blank behind it the
    line comes through: the pattern that drops it runs before the lines are
    trimmed, and the patterns of the second pass do not name the word.  Here
    the input is the one line [5 others ] and the result is the line
    [5 others], which the count-line pattern of the sanitizer matches. *)
Theorem count_line_with_trailing_blank_survives :
  cleanOCRText (js "5 others ") = js "5 others"
  /\ In (js "5 others") (split_nl (cleanOCRText (js "5 others ")))
  /\ test flags_mi re_count_line (js "5 others") = true
  /\ cleanOCRText (js "5 others") = [].
Proof. vm_compute. repeat split. now left. Qed.

(** A line of three symbols is dropped, and with it the whole text; a line
    of prose stays. *)
Example sanitizer_drops_symbol_line :
  cleanOCRText [0x25CF%N; 0x25CF%N; 0x25CF%N] = []
  /\ cleanOCRText ([0x25CF%N; 0x25CF%N; 0x25CF%N; NL] ++ js "Hello World") = js "Hello World".
Proof. vm_compute. split; reflexivity. Qed.

(** C2, as stated, fails: the result for the line
    [Jane Doe and 54 others 5 comments] has the line [Jane Doe], which is
    no line of the input. *)
Lemma sanitizer_line_not_an_input_line :
  In (js "Jane Doe") (split_nl (cleanOCRText (js "Jane Doe and 54 others 5 comments")))
  /\ ~ In (js "Jane Doe") (split_nl (js "Jane Doe and 54 others 5 comments")).
Proof.
  split.
  - vm_compute. now left.
  - vm_compute. intros [H | []]. discriminate.
Qed.

(** C2, amended.  The sanitizer only deletes code units and turns tabs into
    spaces: with tabs read as spaces its result is a subsequence of the
    input, so nothing is introduced and the result is no longer than the
    input. *)
Theorem sanitizer_only_deletes (text : jsstring) :
  subseq (map tab_as_space (cleanOCRText text)) (map tab_as_space text)
  /\ length (cleanOCRText text) <= length text.
Proof.
  pose proof (cleanOCRText_subseq text) as H. split; [exact H|].
  apply subseq_length in H. now rewrite !length_map in H.
Qed.

(** C10.  Every line of a non-empty result has at least 3 code units, and
    at least 0.3 times its length of them are alphanumeric. *)
Theorem sanitizer_lines_dense (text l : jsstring) :
  cleanOCRText text <> [] ->
  In l (split_nl (cleanOCRText text)) ->
  3 <= length l /\ 3 * length l <= 10 * wordChars_length l.
Proof.
  intros Hne Hin. rewrite split_cleanOCRText in Hin by assumption.
  pose proof (result_lines_solid text) as Hs. rewrite Forall_forall in Hs.
  destruct (Hs l Hin) as (_ & Hd & _).
  rewrite wordChars_length_count. exact Hd.
Qed.

Lemma sanitizer_lines_dense_witness :
  3 <= length (js "Hello World")
  /\ 3 * length (js "Hello World") <= 10 * wordChars_length (js "Hello World").
Proof.
  apply (sanitizer_lines_dense (js "  Hello " ++ [9%N; 32%N] ++ js "World  ")).
  - vm_compute. discriminate.
  - vm_compute. now left.
Defined.

(** ** Quality Scorer *)

(** C3.  The score of the empty text is 0, but the score is not bounded by
    1: for the one word [information] (11 letters, a text the sanitizer
    leaves as it is) the program computes a binary64 number above 1; in exact
    arithmetic it is 0.33 + 0.4 + 0.3 = 1.03. *)
Theorem score_above_one :
  PrimFloat.eqb (scoreOCRQuality []) 0 = true
  /\ cleanOCRText (js "information") = js "information"
  /\ PrimFloat.ltb 1 (scoreOCRQuality (js "information")) = true
  /\ (1 < value (scoreOCRQuality (js "information")))%Q
  /\ (scoreOCRQuality_exact (js "information") == 103 # 100)%Q.
Proof. vm_compute. repeat split; discriminate. Qed.

(** ** Selector *)

(** C4.  The selected candidate is the first of the candidates of highest
    quality: every candidate before it has a lower quality, none after it
    a higher one.  The sorted list is a permutation of the candidates in
    descending order in which candidates of one quality keep their order,
    and sorting it again leaves it as it is, so a repeated selection has the
    same outcome. *)
Theorem selector_picks_first_best (results : list Ocr.candidate) :
  results <> [] ->
  exists before best after,
    results = before ++ best :: after
    /\ hd_error (Ocr.sort_by Ocr.by_quality results) = Some best
    /\ (forall c, In c before -> (Ocr.quality c < Ocr.quality best)%Q)
    /\ (forall c, In c after -> (Ocr.quality c <= Ocr.quality best)%Q)
    /\ Ocr.select results
       = match Ocr.text best with
         | [] => Throw Ocr.msg_no_text
         | _ :: _ => Ok (Ocr.text best)
         end
    /\ Permutation (Ocr.sort_by Ocr.by_quality results) results
    /\ descending (Ocr.sort_by Ocr.by_quality results)
    /\ (forall q, of_quality q (Ocr.sort_by Ocr.by_quality results) = of_quality q results)
    /\ Ocr.select (Ocr.sort_by Ocr.by_quality results) = Ocr.select results.
Proof.
  intros Hne.
  destruct (sort_by_head Hne) as (before & best & after & E & Hhd & Hb & Ha).
  exists before, best, after.
  repeat split; try assumption.
  - pose proof (select_cases results) as H.
    destruct (Ocr.sort_by Ocr.by_quality results) as [|b l]; [discriminate|].
    injection Hhd as ->. destruct (Ocr.text best); exact H.
  - apply sort_by_perm.
  - apply sort_by_descending.
  - intros q. apply sort_by_stable.
  - unfold Ocr.select. now rewrite sort_by_idempotent.
Qed.

Lemma selector_picks_first_best_witness :
  exists before best after,
    Examples.two_even_candidates = before ++ best :: after
    /\ hd_error (Ocr.sort_by Ocr.by_quality Examples.two_even_candidates) = Some best
    /\ (forall c, In c before -> (Ocr.quality c < Ocr.quality best)%Q)
    /\ (forall c, In c after -> (Ocr.quality c <= Ocr.quality best)%Q)
    /\ Ocr.select Examples.two_even_candidates
       = match Ocr.text best with
         | [] => Throw Ocr.msg_no_text
         | _ :: _ => Ok (Ocr.text best)
         end
    /\ Permutation (Ocr.sort_by Ocr.by_quality Examples.two_even_candidates)
                   Examples.two_even_candidates
    /\ descending (Ocr.sort_by Ocr.by_quality Examples.two_even_candidates)
    /\ (forall q, of_quality q (Ocr.sort_by Ocr.by_quality Examples.two_even_candidates)
                  = of_quality q Examples.two_even_candidates)
    /\ Ocr.select (Ocr.sort_by Ocr.by_quality Examples.two_even_candidates)
       = Ocr.select Examples.two_even_candidates.
Proof.
  apply (selector_picks_first_best (results := Examples.two_even_candidates)).
  discriminate.
Defined.

(** On a tie the earlier candidate is selected. *)
Example selector_tie :
  Ocr.select Examples.two_even_candidates = Ok (js "first").
Proof. reflexivity. Qed.

(** ** Preprocessor *)

(** C9.  [preprocessImage] never throws.  It answers with the input path
    when sharp is missing, when [metadata()] throws and when [toFile()]
    throws, and with the output path only when both calls went through. *)
Theorem preprocess_never_throws (World : Type) (rt : Ocr.Runtime World)
    (inputPath outputPath : jsstring) (st : World * log) :
  exists p st',
    Ocr.preprocessImage rt inputPath outputPath st = (Ok p, st')
    /\ (p = inputPath \/ p = outputPath)
    /\ (Ocr.sharp rt = None -> p = inputPath /\ st' = st)
    /\ (forall lib,
          Ocr.sharp rt = Some lib ->
          (exists e w1, Ocr.sharp_metadata lib inputPath (fst st) = (Throw e, w1)) ->
          p = inputPath)
    /\ (forall lib md w1,
          Ocr.sharp rt = Some lib ->
          Ocr.sharp_metadata lib inputPath (fst st) = (Ok md, w1) ->
          (exists e w2,
             Ocr.sharp_toFile lib inputPath (Ocr.pipeline_for md) outputPath w1
             = (Throw e, w2)) ->
          p = inputPath)
    /\ (forall lib md w1 u w2,
          Ocr.sharp rt = Some lib ->
          Ocr.sharp_metadata lib inputPath (fst st) = (Ok md, w1) ->
          Ocr.sharp_toFile lib inputPath (Ocr.pipeline_for md) outputPath w1 = (Ok u, w2) ->
          p = outputPath).
Proof.
  pose proof (preprocessImage_cases rt inputPath outputPath st) as H.
  destruct (Ocr.sharp rt) as [lib|].
  - destruct (Ocr.sharp_metadata lib inputPath (fst st)) as [[md|e] w1] eqn:Em.
    + destruct (Ocr.sharp_toFile lib inputPath (Ocr.pipeline_for md) outputPath w1)
        as [[u|e] w2] eqn:Et.
      * eexists _, _. split; [exact H|].
        repeat split; auto; try discriminate.
        -- intros lib' [= <-] (e & w' & E). congruence.
        -- intros lib' md' w1' [= <-] E1 (e & w' & E).
           rewrite Em in E1. injection E1 as <- <-. congruence.
      * eexists _, _. split; [exact H|].
        repeat split; auto; try discriminate.
        intros lib' md' w1' u' w2' [= <-] E1 E.
        rewrite Em in E1. injection E1 as <- <-. congruence.
    + eexists _, _. split; [exact H|].
      repeat split; auto; try discriminate.
      intros lib' md' w1' u' w2' [= <-] E. congruence.
  - eexists _, _. split; [exact H|].
    repeat split; auto; discriminate.
Qed.

(** An image 500 pixels wide is scaled by 2. *)
Example preprocess_upscales :
  Ocr.pipeline_for {| Ocr.width := Some 500%N |}
  = [Ocr.Greyscale; Ocr.Normalize; Ocr.Sharpen 1 1 2;
     Ocr.Linear (12 # 10) (- (128 * (2 # 10)))%Q; Ocr.Median 2;
     Ocr.ResizeLanczos3 1000].
Proof. reflexivity. Qed.

(** With a sharp whose [toFile] throws, the input path comes back. *)
Example preprocess_broken_sharp :
  fst (Ocr.preprocessImage Examples.with_broken_sharp (js "shot.png")
         (js "shot_preprocessed.png") (tt, []))
  = Ok (js "shot.png").
Proof. reflexivity. Qed.

(** ** Recognition Strategy Runner *)

(** C6.  The loop over the four configurations never throws and takes
    the four profiles in turn, each from the world the one before left,
    whatever threw before: it calls [setParameters] for the profile, it
    calls [recognize] exactly when that call returned, and the profile
    leaves its candidate exactly when [recognize] returned.  So
    [setParameters] is called for each configuration, in order, and
    [recognize] as often as [setParameters] returned.  There is one
    candidate for each [recognize] that returned and none for a
    configuration whose [setParameters] or [recognize] threw; the
    candidates come in the order of their configurations, so there are at
    most four: none when every recognition throws, four when nothing does. *)
Theorem runner_attempts_every_profile (World : Type) (rt : Ocr.Runtime World)
    (imagePath : jsstring) (st : World * log) :
  exists results st' evs,
    Ocr.run_configurations rt imagePath Ocr.configurations [] st = (Ok results, st')
    /\ snd st' = snd st ++ evs
    /\ profiles_run rt imagePath Ocr.configurations (fst st) (fst st') evs results
    /\ map fst (filter is_setParameters evs)
       = [EvSetParameters (js "6") (js "1"); EvSetParameters (js "3") (js "1");
          EvSetParameters (js "11") (js "1"); EvSetParameters (js "6") (js "0")]
    /\ length (filter is_recognize evs) = length (filter is_parameters_set evs)
    /\ length results = length (filter is_recognized evs)
    /\ subseq (map Ocr.config results) (map Ocr.name Ocr.configurations)
    /\ length results <= 4
    /\ Forall produced results
    /\ ((forall p w, exists e, fst (Ocr.recognize rt p w) = Throw e) -> results = [])
    /\ ((forall a b w, exists u, fst (Ocr.setParameters rt a b w) = Ok u) ->
        (forall p w, exists raw, fst (Ocr.recognize rt p w) = Ok raw) ->
        length results = 4).
Proof.
  destruct (run_configurations_spec rt imagePath Ocr.configurations [] st)
    as (results & st' & evs & E & L & F & N & S & P & Z & A).
  destruct (OcrMore.run_configurations_steps rt imagePath Ocr.configurations [] st)
    as (found & st'' & evs' & E' & L' & R & C).
  rewrite E in E'. injection E' as <- <-.
  rewrite L in L'. apply app_inv_head in L'. subst evs'.
  exists results, st', evs. cbn [app] in E.
  repeat split; try assumption.
  apply subseq_length in S. now rewrite !length_map in S.
Qed.

(** A worker that cannot take the second profile and fails to read with
    the third: the fourth profile is still attempted, and the first and
    the fourth leave their candidates. *)
Example runner_patchy :
  match Ocr.run_configurations patchy (js "shot.png") Ocr.configurations [] (0, []) with
  | (Ok results, (_, evs)) => Some (map Ocr.config results, evs)
  | (Throw _, _) => None
  end
  = Some ([js "PSM 6 - Single Block"; js "PSM 6 - Legacy"],
          [(EvSetParameters (js "6") (js "1"), Returned);
           (EvRecognize (js "shot.png"), Returned);
           (EvSetParameters (js "3") (js "1"), Threw);
           (EvSetParameters (js "11") (js "1"), Returned);
           (EvRecognize (js "shot.png"), Threw);
           (EvSetParameters (js "6") (js "0"), Returned);
           (EvRecognize (js "shot.png"), Returned)]).
Proof. vm_compute. reflexivity. Qed.

(** When every recognition throws, the four configurations are still tried
    and no candidate is left. *)
Example runner_blind :
  Ocr.run_configurations Examples.blind (js "shot.png") Ocr.configurations [] (tt, [])
  = (Ok [],
     (tt, [(EvSetParameters (js "6") (js "1"), Returned);
           (EvRecognize (js "shot.png"), Threw);
           (EvSetParameters (js "3") (js "1"), Returned);
           (EvRecognize (js "shot.png"), Threw);
           (EvSetParameters (js "11") (js "1"), Returned);
           (EvRecognize (js "shot.png"), Threw);
           (EvSetParameters (js "6") (js "0"), Returned);
           (EvRecognize (js "shot.png"), Threw)])).
Proof. reflexivity. Qed.

(** When only the legacy engine fails, the three other configurations
    leave their candidates. *)
Example runner_without_legacy :
  option_map (map Ocr.config)
    (match fst (Ocr.run_configurations Examples.without_legacy (js "shot.png")
                  Ocr.configurations [] (false, [])) with
     | Ok results => Some results
     | Throw _ => None
     end)
  = Some [js "PSM 6 - Single Block"; js "PSM 3 - Auto"; js "PSM 11 - Sparse"].
Proof. vm_compute. reflexivity. Qed.

(** ** Extraction from an image *)

(** The selection throws exactly when there is no candidate or the text
    of the first candidate after sorting is empty. *)
Lemma select_empty_cases (results : list Ocr.candidate) :
  Forall produced results ->
  (Ocr.select results = Throw Ocr.msg_no_text
   /\ (results = []
       \/ exists best rest,
            Ocr.sort_by Ocr.by_quality results = best :: rest
            /\ trim (Ocr.text best) = []))
  \/ (exists best rest,
        Ocr.sort_by Ocr.by_quality results = best :: rest
        /\ Ocr.select results = Ok (Ocr.text best)
        /\ trim (Ocr.text best) <> []
        /\ ~ (results = []
              \/ exists best' rest',
                   Ocr.sort_by Ocr.by_quality results = best' :: rest'
                   /\ trim (Ocr.text best') = [])).
Proof.
  intros Hprod.
  pose proof (select_cases results) as Hs.
  destruct (Ocr.sort_by Ocr.by_quality results) as [|best rest] eqn:Esort.
  - left. split; [exact Hs|]. left. exact (proj1 (sort_by_nil results) Esort).
  - assert (Hin : In best results).
    { apply (Permutation_in _ (sort_by_perm results)). rewrite Esort. now left. }
    rewrite Forall_forall in Hprod.
    pose proof (produced_trimmed (Hprod best Hin)) as Htrim.
    destruct (Ocr.text best) as [|c t] eqn:Etext.
    + left. split; [exact Hs|]. right. exists best, rest.
      split; [reflexivity|]. rewrite Etext. reflexivity.
    + right. exists best, rest. split; [reflexivity|].
      split; [rewrite Etext; exact Hs|].
      split; [rewrite Etext, Htrim; discriminate|].
      intros [Hnil | (b & r & Eb & Hb)].
      * rewrite Hnil in Esort. discriminate Esort.
      * injection Eb as <- <-. rewrite Etext, Htrim in Hb. discriminate Hb.
Qed.

(** C5, as stated, fails: with a worker whose [terminate] throws, the
    four profiles read a text, the first candidate after sorting carries
    it, and the extraction fails all the same. *)
Lemma extraction_fails_with_text :
  fst (Ocr.extractTextFromImage (unterminated (js "Hello World")) (js "shot.png") (tt, []))
  = Throw (js "worker is gone")
  /\ exists results st2 best rest,
       Ocr.run_configurations (unterminated (js "Hello World")) (js "shot.png")
         Ocr.configurations [] (tt, [(EvCreateWorker (js "eng"), Returned)])
       = (Ok results, st2)
       /\ length results = 4
       /\ Ocr.sort_by Ocr.by_quality results = best :: rest
       /\ trim (Ocr.text best) = js "Hello World".
Proof.
  split; [vm_compute; reflexivity|].
  destruct (Ocr.run_configurations (unterminated (js "Hello World")) (js "shot.png")
              Ocr.configurations [] (tt, [(EvCreateWorker (js "eng"), Returned)]))
    as [[results|e] st2] eqn:E; vm_compute in E; [|discriminate E].
  injection E as <- <-.
  eexists _, _, _, _. split; [reflexivity|]. split; [reflexivity|].
  split; vm_compute; reflexivity.
Qed.

(** C5, amended.  [extractTextFromImage] throws when [createWorker]
    does.  Otherwise, with the candidates the loop leaves for the path
    the preprocessor answers with, it throws exactly when there is no
    candidate, or the text of the first candidate after sorting is empty
    after trimming, or the first call to [terminate] throws; in the first
    two cases, when [terminate] returns, with the one report of a missing
    text.  A text it returns is that of the first candidate after sorting
    and is not empty after trimming. *)
Theorem extraction_fails_iff (World : Type) (rt : Ocr.Runtime World)
    (filePath : jsstring) (st : World * log) :
  match Ocr.createWorker rt (js "eng") (fst st) with
  | (Throw e, _) => fst (Ocr.extractTextFromImage rt filePath st) = Throw e
  | (Ok _, w0) =>
      exists imagePath st1 results st2,
        Ocr.preprocessImage rt filePath (preprocessedPath filePath)
          (w0, snd st ++ [(EvCreateWorker (js "eng"), Returned)]) = (Ok imagePath, st1)
        /\ Ocr.run_configurations rt imagePath Ocr.configurations [] st1 = (Ok results, st2)
        /\ ((exists message, fst (Ocr.extractTextFromImage rt filePath st) = Throw message)
            <-> (results = []
                 \/ (exists best rest,
                       Ocr.sort_by Ocr.by_quality results = best :: rest
                       /\ trim (Ocr.text best) = [])
                 \/ exists e w3, Ocr.terminate rt (fst st2) = (Throw e, w3)))
        /\ (forall u w3,
              Ocr.terminate rt (fst st2) = (Ok u, w3) ->
              (results = []
               \/ exists best rest,
                    Ocr.sort_by Ocr.by_quality results = best :: rest
                    /\ trim (Ocr.text best) = []) ->
              fst (Ocr.extractTextFromImage rt filePath st)
              = Throw (js "Failed to extract text from image: No text could be extracted from the image"))
        /\ (forall t, fst (Ocr.extractTextFromImage rt filePath st) = Ok t ->
                      exists best rest,
                        Ocr.sort_by Ocr.by_quality results = best :: rest
                        /\ t = Ocr.text best)
  end
  /\ (forall t, fst (Ocr.extractTextFromImage rt filePath st) = Ok t -> trim t <> []).
Proof.
  split.
  - pose proof (OcrMore.extractTextFromImage_exact rt filePath st) as H.
    destruct (Ocr.createWorker rt (js "eng") (fst st)) as [[u|e] w0];
      [|rewrite H; reflexivity].
    destruct H as (imagePath & st1 & results & st2 & work & unlinks
                   & Ep & Er & Hprod & _ & _ & _ & Hc).
    exists imagePath, st1, results, st2.
    split; [exact Ep|]. split; [exact Er|].
    destruct (Ocr.terminate rt (fst st2)) as [[u2|e1] w3] eqn:Et.
    + destruct Hc as (Hr & _). rewrite Hr.
      destruct (select_empty_cases Hprod)
        as [[Es Hempty] | (best & rest & Esort & Es & Hne & Hnot)]; rewrite Es.
      * split; [|split].
        -- split; [intros _ | intros _; eexists; reflexivity].
           destruct Hempty as [Hnil | Htop]; [left; exact Hnil | right; left; exact Htop].
        -- intros _ _ _ _. reflexivity.
        -- intros t Ht. discriminate Ht.
      * split; [|split].
        -- split; [intros [m Hm]; discriminate Hm|].
           intros [Hnil | [Htop | (e & w' & Hthrow)]];
             [elim Hnot; left; exact Hnil | elim Hnot; right; exact Htop
              | discriminate Hthrow].
        -- intros _ _ _ Hempty. elim (Hnot Hempty).
        -- intros t Ht. injection Ht as <-. exists best, rest. split; [exact Esort | reflexivity].
    + assert (Hthrow : exists message,
                 fst (Ocr.extractTextFromImage rt filePath st) = Throw message).
      { destruct (Ocr.select results) as [best|message].
        - destruct (Ocr.terminate rt w3) as [[u3|e2] w4].
          + destruct Hc as (Hr & _). rewrite Hr. eexists; reflexivity.
          + rewrite Hc. eexists; reflexivity.
        - rewrite Hc. eexists; reflexivity. }
      destruct Hthrow as [message Hm]. rewrite Hm.
      split; [|split].
      * split; [intros _; right; right; exists e1, w3; reflexivity
               | intros _; exists message; reflexivity].
      * intros u' w' Hret. discriminate Hret.
      * intros t Ht. discriminate Ht.
  - intros t Ht.
    destruct (OcrMore.extractTextFromImage_ok rt filePath st Ht) as (Hne & raw & Eraw).
    assert (Htrim : trim t = t).
    { rewrite Eraw. unfold cleanOCRText. apply trim_idempotent. }
    rewrite Htrim. exact Hne.
Qed.

(** The text is returned when it is read, and the extraction throws when
    every recognition does. *)
Example extraction_reads :
  fst (Ocr.extractTextFromImage (Examples.reading (js "Hello World"))
         (js "shot.png") (tt, []))
  = Ok (js "Hello World").
Proof. vm_compute. reflexivity. Qed.

Example extraction_blind :
  fst (Ocr.extractTextFromImage Examples.blind (js "shot.png") (tt, []))
  = Throw (js "Failed to extract text from image: No text could be extracted from the image").
Proof. vm_compute. reflexivity. Qed.

(** ** Extraction from a PDF *)

(** C7, as stated, fails: a parse error that names neither XRef nor a
    password ends in a failure whose message is the bare report of that
    error, with none of the three remediation texts. *)
Lemma pdf_failure_without_remediation :
  fst (Pdf.extractTextFromPDF (Examples.unparsable (js "bad header"))
         (js "report.pdf") (tt, []))
  = Throw (js "Failed to extract text from PDF: bad header")
  /\ includes Pdf.hint_structural (js "Failed to extract text from PDF: bad header") = false
  /\ includes Pdf.hint_password (js "Failed to extract text from PDF: bad header") = false
  /\ includes Pdf.hint_image (js "Failed to extract text from PDF: bad header") = false.
Proof. vm_compute. auto. Qed.

(** C7, amended.  [pdfParse] is called at most twice, and a second time
    exactly when the file was read and the first call threw an error whose
    message names XRef.  The extractor fails exactly with the report the
    outer catch makes of a cause: of what [readFile] threw; of what the
    first parse threw, when that does not name XRef; of the corruption
    message built from what the first parse threw, when that names XRef and
    the second parse throws too; of the no-text message, when the parse
    that counts gives no text; and of the no-extractable-text message, when
    its text is empty once normalized.  The report of a cause is the
    structural report with its remediation when the cause names XRef, the
    password report with its remediation when it names a password or
    encryption, and otherwise the cause behind a fixed prefix, with no
    remediation except the one inside the no-extractable-text message.  The
    three remediation texts are non-empty and differ. *)
Theorem pdf_retry_and_failures (World : Type) (rt : Pdf.Runtime World)
    (filePath : jsstring) (st : World * log) :
  (exists r st' evs,
     Pdf.extractTextFromPDF rt filePath st = (r, st')
     /\ snd st' = snd st ++ evs
     /\ (pdfParse_calls evs = [] \/ pdfParse_calls evs = [false]
         \/ pdfParse_calls evs = [false; true])
     /\ (pdfParse_calls evs = [false; true] <->
         exists buf w1 m w2,
           Pdf.readFile rt filePath (fst st) = (Ok buf, w1)
           /\ Pdf.pdfParse rt buf false w1 = (Throw m, w2)
           /\ Pdf.mentions_xref m = true)
     /\ (forall message,
           r = Throw message
           <-> exists m, pdf_cause rt filePath (fst st) m
                         /\ message = Pdf.failure_message m))
  /\ (forall m, Pdf.mentions_xref m = true ->
                Pdf.failure_message m
                = js "PDF parsing error: The PDF file appears to have structural issues ("
                  ++ m
                  ++ js "). This can happen with corrupted PDFs or PDFs created with certain software. Try: 1) Re-saving the PDF, 2) Converting to an image and uploading as PNG/JPEG, or 3) Using a different PDF file."
                /\ includes Pdf.hint_structural (Pdf.failure_message m) = true)
  /\ (forall m, Pdf.mentions_xref m = false -> Pdf.mentions_password m = true ->
                Pdf.failure_message m
                = js "PDF is password-protected or encrypted. Please remove the password and try again."
                /\ includes Pdf.hint_password (Pdf.failure_message m) = true)
  /\ (forall m, Pdf.mentions_xref m = false -> Pdf.mentions_password m = false ->
                Pdf.failure_message m = js "Failed to extract text from PDF: " ++ m)
  /\ (forall m, Pdf.mentions_xref m = true ->
                Pdf.mentions_xref
                  (js "PDF appears to be corrupted or uses unsupported features. Error: " ++ m
                   ++ js ". Please try converting the PDF to a standard format or use an image version of the document.")
                = true)
  /\ includes Pdf.hint_image
       (Pdf.failure_message
          (js "PDF appears to contain no extractable text. It may be an image-based PDF. Please try uploading as an image file instead."))
     = true
  /\ Pdf.hint_structural <> [] /\ Pdf.hint_password <> [] /\ Pdf.hint_image <> []
  /\ Pdf.hint_structural <> Pdf.hint_password
  /\ Pdf.hint_structural <> Pdf.hint_image
  /\ Pdf.hint_password <> Pdf.hint_image.
Proof.
  split.
  - assert (Hrun : exists r st' evs,
               Pdf.extractTextFromPDF rt filePath st = (r, st')
               /\ snd st' = snd st ++ evs
               /\ (pdfParse_calls evs = [] \/ pdfParse_calls evs = [false]
                   \/ pdfParse_calls evs = [false; true])
               /\ (pdfParse_calls evs = [false; true] <->
                   exists buf w1 m w2,
                     Pdf.readFile rt filePath (fst st) = (Ok buf, w1)
                     /\ Pdf.pdfParse rt buf false w1 = (Throw m, w2)
                     /\ Pdf.mentions_xref m = true)
               /\ (forall message, r = Throw message ->
                                   exists m, message = Pdf.failure_message m)).
    { destruct st as [w lg]. cbn [fst snd].
    pose proof (extractTextFromPDF_cases rt filePath (w, lg)) as H. cbn [fst snd] in H.
    destruct (Pdf.readFile rt filePath w) as [[buf|m] w1] eqn:Er.
    + pose proof (parse_cases rt buf (w1, lg ++ [(EvReadFile filePath, Returned)])) as Hp.
      cbn [fst snd] in Hp.
      destruct (Pdf.pdfParse rt buf false w1) as [[data|m] w2] eqn:Ep.
      * rewrite Hp in H.
        exists (finish data),
          (w2, (lg ++ [(EvReadFile filePath, Returned)]) ++ [(EvPdfParse false, Returned)]),
          [(EvReadFile filePath, Returned); (EvPdfParse false, Returned)].
        split; [exact H|]. split; [cbn [snd]; now rewrite <- app_assoc|].
        split; [right; left; reflexivity|]. split.
        -- split; [discriminate|].
           intros (b & w' & m & w'' & [= <- <-] & E & _). congruence.
        -- unfold finish. intros message.
           destruct data as [[|c t]|]; [| |]; try (intros [= <-]; eauto).
           destruct (_ =? 0); intros [= <-]; eauto.
      * destruct (Pdf.mentions_xref m) eqn:Ex.
        -- destruct (Pdf.pdfParse rt buf true w2) as [[data|m'] w3] eqn:Ep2;
             rewrite Hp in H;
             eexists _, (w3, ((lg ++ [(EvReadFile filePath, Returned)])
                                ++ [(EvPdfParse false, Threw)])
                               ++ [(EvPdfParse true, _)]),
               [(EvReadFile filePath, Returned); (EvPdfParse false, Threw);
                (EvPdfParse true, _)];
             (split; [exact H|]);
             (split; [cbn [snd]; now rewrite <- !app_assoc|]);
             (split; [right; right; reflexivity|]);
             (split; [split; [intros _; exists buf, w1, m, w2; auto | reflexivity]|]).
           ++ unfold finish. intros message.
              destruct data as [[|c t]|]; [| |]; try (intros [= <-]; eauto).
              destruct (_ =? 0); intros [= <-]; eauto.
           ++ intros message [= <-]. eauto.
        -- rewrite Hp in H.
           eexists _, (w2, (lg ++ [(EvReadFile filePath, Returned)])
                              ++ [(EvPdfParse false, Threw)]),
             [(EvReadFile filePath, Returned); (EvPdfParse false, Threw)].
           split; [exact H|]. split; [cbn [snd]; now rewrite <- app_assoc|].
           split; [right; left; reflexivity|]. split.
           ++ split; [discriminate|].
              intros (b & w' & m0 & w'' & [= <- <-] & E & Ex0).
              rewrite Ep in E. injection E as <- <-. congruence.
           ++ intros message [= <-]. eauto.
    + eexists _, (w1, lg ++ [(EvReadFile filePath, Threw)]), [(EvReadFile filePath, Threw)].
      split; [exact H|]. split; [reflexivity|].
      split; [left; reflexivity|]. split.
      * split; [discriminate|]. intros (b & w' & m0 & w'' & E & _). discriminate.
      * intros message [= <-]. eauto. }
    destruct Hrun as (r & st' & evs & E & L & C1 & C2 & _).
    exists r, st', evs.
    split; [exact E|]. split; [exact L|]. split; [exact C1|]. split; [exact C2|].
    intros message.
    pose proof (PdfMore.extractTextFromPDF_fails rt filePath st message) as F.
    rewrite E in F. exact F.
  - split; [|split; [|split; [|split; [|split; [|repeat split; discriminate]]]]].
    + intros m Hx. unfold Pdf.failure_message. rewrite Hx. split; [reflexivity|].
      unfold Pdf.msg_structural.
      rewrite !app_assoc. rewrite <- (app_nil_r Pdf.hint_structural) at 2.
      apply includes_app.
    + intros m Hx Hp. unfold Pdf.failure_message. rewrite Hx, Hp.
      split; reflexivity.
    + intros m Hx Hp. unfold Pdf.failure_message. now rewrite Hx, Hp.
    + intros m Hx. rewrite <- PdfMore.msg_corrupted_eq.
      now apply PdfMore.msg_corrupted_xref.
    + reflexivity.
Qed.

(** The retry on an XRef error, and its failure. *)
Example pdf_xref_retry :
  Pdf.extractTextFromPDF (Examples.unparsable (js "Invalid XRef stream")) (js "report.pdf")
    (tt, [])
  = (Throw (Pdf.msg_structural (Pdf.msg_corrupted (js "Invalid XRef stream"))),
     (tt, [(EvReadFile (js "report.pdf"), Returned); (EvPdfParse false, Threw);
           (EvPdfParse true, Threw)])).
Proof. vm_compute. reflexivity. Qed.

(** C8.  Normalizing a normalized text changes nothing; and when the text
    of a parsed PDF is empty after normalization, the extraction throws a
    no-text failure: the no-extractable-text message, or the
    no-text message when there was no text to normalize. *)
Theorem pdf_normalize_idempotent_and_empty_fails (World : Type) (rt : Pdf.Runtime World)
    (filePath : jsstring) (st : World * log)
    (dataBuffer : jsstring) (w1 : World) (text : jsstring) (st2 : World * log) :
  Pdf.readFile rt filePath (fst st) = (Ok dataBuffer, w1) ->
  Pdf.parse rt dataBuffer (w1, snd st ++ [(EvReadFile filePath, Returned)])
  = (Ok (Some text), st2) ->
  Pdf.normalize text = [] ->
  (forall t, Pdf.normalize (Pdf.normalize t) = Pdf.normalize t)
  /\ fst (Pdf.extractTextFromPDF rt filePath st)
     = Throw (Pdf.msg_failed match text with
                             | [] => Pdf.msg_no_text
                             | _ :: _ => Pdf.msg_no_extractable
                             end).
Proof.
  intros Er Ep En. split; [apply normalize_idempotent|].
  pose proof (extractTextFromPDF_cases rt filePath st) as H.
  rewrite Er, Ep in H. rewrite H. cbn [fst]. unfold finish.
  destruct text as [|c t]; [reflexivity|].
  rewrite En. reflexivity.
Qed.

Lemma pdf_normalize_idempotent_and_empty_fails_witness :
  (forall t, Pdf.normalize (Pdf.normalize t) = Pdf.normalize t)
  /\ fst (Pdf.extractTextFromPDF (Examples.parsed [NL; NL; NL; 32%N; NL]) (js "scan.pdf")
            (tt, []))
     = Throw (Pdf.msg_failed Pdf.msg_no_extractable).
Proof.
  apply (pdf_normalize_idempotent_and_empty_fails
           (Examples.parsed [NL; NL; NL; 32%N; NL]) (js "scan.pdf") (tt, [])
           (dataBuffer := []) (w1 := tt) (text := [NL; NL; NL; 32%N; NL])
           (st2 := (tt, [(EvReadFile (js "scan.pdf"), Returned);
                         (EvPdfParse false, Returned)]))).
  - reflexivity.
  - reflexivity.
  - reflexivity.
Defined.

(** A text is returned normalized. *)
Example pdf_quarterly_report :
  Pdf.extractTextFromPDF
    (Examples.parsed (js "Quarterly Report" ++ [NL; NL; NL; NL] ++ js "Q3" ++ [NL]))
    (js "report.pdf") (tt, [])
  = (Ok (js "Quarterly Report" ++ [NL; NL] ++ js "Q3"),
     (tt, [(EvReadFile (js "report.pdf"), Returned); (EvPdfParse false, Returned)])).
Proof. vm_compute. reflexivity. Qed.
(** * Further properties of the code *)

(** ** Text Sanitizer *)

Module SanitizerMore.

Lemma subseq_In {A} (a b : list A) (x : A) : subseq a b -> In x a -> In x b.
Proof.
  induction 1 as [|y a b H IH|y a b H IH]; simpl; intros Hin.
  - exact Hin.
  - right. now apply IH.
  - destruct Hin as [-> | Hin]; [now left | right; now apply IH].
Qed.

(** *** Blanks *)

Lemma collapse_blanks_aux_spaced (s : jsstring) :
  forall b,
    single_spaced (collapse_blanks_aux b s)
    /\ (b = true -> prefix_len is_blank (collapse_blanks_aux b s) = 0).
Proof.
  induction s as [|c t IH]; intros b; simpl.
  - split; [exact I | reflexivity].
  - destruct (is_blank c) eqn:Ec.
    + destruct b.
      * apply IH.
      * destruct (IH true) as [Hs Hp]. split; [|discriminate].
        simpl. split; [|exact Hs]. intros _. split; [reflexivity | now apply Hp].
    + destruct (IH false) as [Hs _]. split.
      * simpl. split; [|exact Hs]. rewrite Ec. discriminate.
      * intros _. simpl. now rewrite Ec.
Qed.

Lemma single_spaced_app_nl (a b : jsstring) :
  single_spaced a -> single_spaced b -> single_spaced (a ++ NL :: b).
Proof.
  induction a as [|c t IH]; simpl; intros Ha Hb.
  - split; [|exact Hb]. intros H. discriminate H.
  - destruct Ha as [Hc Ht]. split; [|now apply IH].
    intros Hbl. destruct (Hc Hbl) as [-> Hp]. split; [reflexivity|].
    destruct t as [|c' t']; simpl in *; [reflexivity|].
    destruct (is_blank c'); [discriminate | reflexivity].
Qed.

Lemma single_spaced_join (ls : list jsstring) :
  Forall single_spaced ls -> single_spaced (join_nl ls).
Proof.
  induction 1 as [|l ls Hl Hls IH]; [exact I|].
  destruct ls as [|l' ls'].
  - simpl. now rewrite ?app_nil_r.
  - rewrite join_nl_cons2. now apply single_spaced_app_nl.
Qed.

Lemma single_spaced_suffix (a b : jsstring) : single_spaced (a ++ b) -> single_spaced b.
Proof. induction a as [|c t IH]; simpl; [trivial | intros [_ H]; now apply IH]. Qed.

Lemma single_spaced_no_tab (s : jsstring) : single_spaced s -> ~ In 9%N s.
Proof.
  induction s as [|c t IH]; simpl; [now intros _ H|].
  intros [Hc Ht] [E | Hin].
  - subst c. now destruct (Hc eq_refl).
  - now apply IH.
Qed.

Lemma single_spaced_no_pair (s a b : jsstring) :
  single_spaced s -> s <> a ++ 32%N :: 32%N :: b.
Proof.
  intros Hs ->. apply single_spaced_suffix in Hs.
  destruct Hs as [Hc _]. now destruct (Hc eq_refl).
Qed.

Lemma result_lines_spaced (text : jsstring) : Forall single_spaced (result_lines text).
Proof.
  unfold result_lines. rewrite Forall_forall. intros l Hin.
  apply filter_In in Hin. destruct Hin as [Hin _].
  apply in_map_iff in Hin. destruct Hin as (l0 & <- & _).
  apply collapse_blanks_aux_spaced.
Qed.

End SanitizerMore.
Import SanitizerMore.

(** X1.  The result of the sanitizer is in a normal form for white space: it
    is its own trim, it holds no tab and no two spaces in a row, and none
    of its lines is empty or starts or ends with white space. *)
Theorem sanitizer_whitespace_normal_form (text : jsstring) :
  trim (cleanOCRText text) = cleanOCRText text
  /\ ~ In 9%N (cleanOCRText text)
  /\ (forall before after, cleanOCRText text <> before ++ 32%N :: 32%N :: after)
  /\ (cleanOCRText text <> [] -> Forall tight (split_nl (cleanOCRText text))).
Proof.
  assert (Hs : single_spaced (cleanOCRText text)).
  { rewrite cleanOCRText_lines. apply single_spaced_join, result_lines_spaced. }
  split; [|split; [|split]].
  - unfold cleanOCRText. apply trim_idempotent.
  - exact (@single_spaced_no_tab _ Hs).
  - intros a b. exact (@single_spaced_no_pair _ a b Hs).
  - intros Hne. rewrite split_cleanOCRText by assumption.
    eapply Forall_impl; [|apply result_lines_solid].
    intros l H. destruct H as [Ht _]. exact Ht.
Qed.

(** X2.  No line of a non-empty result matches an entry of
    [engagementPatterns]: the lines are those the second pass kept, and the
    trims and the joins in between leave them as they are. *)
Theorem sanitizer_no_engagement_line (text l : jsstring) :
  cleanOCRText text <> [] ->
  In l (split_nl (cleanOCRText text)) ->
  existsb (fun p => test (fst p) (snd p) l) engagementPatterns = false.
Proof.
  intros Hne Hin.
  destruct (existsb _ engagementPatterns) eqn:E; [|reflexivity].
  apply existsb_exists in E. destruct E as (p & Hp & Ht).
  rewrite (@cleanOCRText_no_engagement_line text l Hne Hin p Hp) in Ht.
  discriminate Ht.
Qed.

Lemma sanitizer_no_engagement_line_witness :
  existsb (fun p => test (fst p) (snd p) (js "Great post")) engagementPatterns = false.
Proof.
  apply (sanitizer_no_engagement_line
           (js "Like" ++ [NL] ++ js "Hello World" ++ [NL] ++ js "12 likes" ++ [NL]
            ++ js "Great post")).
  - vm_compute. discriminate.
  - vm_compute. right. now left.
Defined.

Module SymbolFacts.

Lemma replace_go_In (fl : flags) (r : regex) (by_ : jsstring) (x : char) (s : jsstring) :
  forall prev skip,
    In x (replace_go fl r by_ prev s skip) -> In x by_ \/ In x s.
Proof.
  induction s as [|c t IH]; intros prev skip.
  - destruct skip; simpl; [|now intros []].
    destruct (match_here fl r prev []); simpl; rewrite ?app_nil_r; tauto.
  - destruct skip as [|skip]; simpl.
    + destruct (match_here fl r prev (c :: t)) as [[|n]|]; simpl.
      * rewrite in_app_iff. simpl. intros [H | [H | H]]; [tauto | tauto |].
        destruct (IH _ _ H); tauto.
      * rewrite in_app_iff. intros [H | H]; [tauto|].
        destruct (IH _ _ H); tauto.
      * intros [H | H]; [tauto|]. destruct (IH _ _ H); tauto.
    + intros H. destruct (IH _ _ H); tauto.
Qed.

Lemma replace_all_In (fl : flags) (r : regex) (by_ s : jsstring) (x : char) :
  In x (replace_all fl r by_ s) -> In x by_ \/ In x s.
Proof. apply replace_go_In. Qed.

(** Deleting the matches of a class leaves no member of the class. *)
Lemma replace_go_cls (fl : flags) (neg : bool) (items : list citem) (s : jsstring) :
  forall prev,
    replace_go fl (Cls neg items) [] prev s 0
    = filter (fun c => negb (cls_match fl neg items c)) s.
Proof.
  induction s as [|c t IH]; intros prev.
  - cbn [replace_go filter]. now rewrite match_here_cls.
  - cbn [replace_go filter]. rewrite match_here_cls.
    destruct (cls_match fl neg items c); simpl; now rewrite IH.
Qed.

Lemma replace_all_cls_removed (fl : flags) (neg : bool) (items : list citem)
    (s : jsstring) (x : char) :
  cls_match fl neg items x = true -> ~ In x (replace_all fl (Cls neg items) [] s).
Proof.
  intros Hx Hin. unfold replace_all in Hin. rewrite replace_go_cls in Hin.
  apply filter_In in Hin. destruct Hin as [_ H]. now rewrite Hx in H.
Qed.

Lemma trim_In (s : jsstring) (x : char) : In x (trim s) -> In x s.
Proof. apply (@subseq_In _ _ _ x (trim_subseq s)). Qed.

(** What the replacements behind the two deletions can bring in. *)
Lemma strip_patterns_In (text : jsstring) (x : char) :
  In x (strip_patterns text) ->
  x = 34%N \/ x = 39%N
  \/ In x (replace_all no_flags re_brackets []
             (replace_all no_flags re_glyphs []
                (replace_all flags_m re_noise_long []
                   (replace_all flags_m re_noise_short [] text)))).
Proof.
  unfold strip_patterns. intros H.
  do 4 (apply replace_all_In in H; destruct H as [[] | H]).
  apply replace_all_In in H. destruct H as [[<- | []] | H]; [tauto|].
  apply replace_all_In in H. destruct H as [[<- | []] | H]; [tauto|].
  tauto.
Qed.

Lemma cleanOCRText_In (text : jsstring) (x : char) :
  In x (cleanOCRText text) ->
  x = NL \/ x = 32%N \/ In x (strip_patterns text).
Proof.
  unfold cleanOCRText. intros H.
  apply trim_In in H.
  apply (@subseq_In _ _ _ x (final_lines_subseq _)) in H.
  unfold squeeze_whitespace in H. apply trim_In in H.
  apply replace_all_In in H. destruct H as [[<- | []] | H]; [tauto|].
  apply replace_all_In in H. destruct H as [[<- | [<- | []]] | H]; [tauto | tauto |].
  apply (@subseq_In _ _ _ x (dense_lines_subseq _)) in H. tauto.
Qed.

End SymbolFacts.
Import SymbolFacts.

(** X3.  The result holds none of the symbols the sanitizer strips
    ([€ @ ® © ™] and the square and curly brackets): they are deleted
    wherever they stand, and no later step brings one in. *)
Theorem sanitizer_strips_symbols (text : jsstring) :
  Forall (fun c => ~ In c stripped_symbols) (cleanOCRText text).
Proof.
  rewrite Forall_forall. intros x Hin Hsym.
  apply cleanOCRText_In in Hin.
  assert (Hx : cls_match no_flags false [Ch 0x20AC; Ch 64; Ch 0xAE; Ch 0xA9; Ch 0x2122] x = true
               \/ cls_match no_flags false [Ch 91; Ch 93; Ch 123; Ch 125] x = true).
  { unfold stripped_symbols in Hsym. simpl in Hsym.
    repeat (destruct Hsym as [<- | Hsym]; [vm_compute; tauto|]). destruct Hsym. }
  assert (Hn : x <> NL /\ x <> 32%N /\ x <> 34%N /\ x <> 39%N).
  { unfold stripped_symbols in Hsym. simpl in Hsym.
    repeat (destruct Hsym as [<- | Hsym]; [repeat split; discriminate|]). destruct Hsym. }
  destruct Hn as (H1 & H2 & H3 & H4).
  destruct Hin as [-> | [-> | Hin]]; [tauto | tauto |].
  apply strip_patterns_In in Hin. destruct Hin as [-> | [-> | Hin]]; [tauto | tauto |].
  destruct Hx as [Hx | Hx].
  - apply replace_all_In in Hin. destruct Hin as [[] | Hin].
    revert Hin. now apply replace_all_cls_removed.
  - revert Hin. now apply replace_all_cls_removed.
Qed.

Module DensityFacts.

Lemma is_alnum_tab_as_space (c : char) : is_alnum (tab_as_space c) = is_alnum c.
Proof.
  unfold tab_as_space. destruct (c =? 9)%N eqn:E; [|reflexivity].
  apply N.eqb_eq in E. now subst.
Qed.

Lemma count_alnum_tab_as_space (s : jsstring) :
  count_alnum (map tab_as_space s) = count_alnum s.
Proof.
  unfold count_alnum. induction s as [|c t IH]; simpl; [reflexivity|].
  rewrite is_alnum_tab_as_space. destruct (is_alnum c); simpl; now rewrite IH.
Qed.

Lemma count_alnum_subseq (a b : jsstring) :
  subseq a b -> count_alnum a <= count_alnum b.
Proof.
  unfold count_alnum.
  induction 1 as [|y a b H IH|y a b H IH]; simpl; [lia | |];
    destruct (is_alnum y); simpl; lia.
Qed.

Lemma count_alnum_app (a b : jsstring) :
  count_alnum (a ++ b) = count_alnum a + count_alnum b.
Proof. unfold count_alnum. now rewrite filter_app, length_app. Qed.

Lemma without_nl_free (l : jsstring) : nl_free l -> without_nl l = l.
Proof.
  unfold without_nl. induction 1 as [|c t Hc Ht IH]; simpl; [reflexivity|].
  rewrite is_nl_eq, Hc. simpl. now rewrite IH.
Qed.

Lemma without_nl_app (a b : jsstring) : without_nl (a ++ b) = without_nl a ++ without_nl b.
Proof. apply filter_app. Qed.

(** Three in ten of the code units of solid lines are alphanumeric, and so
    of the lines joined. *)
Lemma join_solid_dense (ls : list jsstring) :
  Forall solid ls ->
  3 * length (without_nl (join_nl ls)) <= 10 * count_alnum (join_nl ls).
Proof.
  induction 1 as [|l ls Hl Hls IH]; [simpl; lia|].
  destruct Hl as (_ & (_ & Hd) & Hfree).
  destruct ls as [|l' ls'].
  - simpl. rewrite ?app_nil_r. now rewrite without_nl_free.
  - rewrite join_nl_cons2.
    change (l ++ NL :: join_nl (l' :: ls')) with (l ++ [NL] ++ join_nl (l' :: ls')).
    rewrite !without_nl_app, !count_alnum_app, !length_app, (without_nl_free Hfree).
    change (without_nl [NL]) with (@nil char).
    change (count_alnum [NL]) with 0. cbn [length]. lia.
Qed.

Lemma cleanOCRText_count_alnum (text : jsstring) :
  count_alnum (cleanOCRText text) <= count_alnum text.
Proof.
  rewrite <- (count_alnum_tab_as_space (cleanOCRText text)),
          <- (count_alnum_tab_as_space text).
  apply count_alnum_subseq, cleanOCRText_subseq.
Qed.

Lemma cleanOCRText_dense (text : jsstring) :
  3 * length (without_nl (cleanOCRText text)) <= 10 * count_alnum (cleanOCRText text).
Proof. rewrite cleanOCRText_lines. apply join_solid_dense, result_lines_solid. Qed.

End DensityFacts.
Import DensityFacts.

(** X4.  The alphanumeric code units of the result are among those of the
    input, and they make up at least three in ten of the code units of the
    result other than its line feeds. *)
Theorem sanitizer_alnum_budget (text : jsstring) :
  count_alnum (cleanOCRText text) <= count_alnum text
  /\ 3 * length (without_nl (cleanOCRText text)) <= 10 * count_alnum (cleanOCRText text).
Proof. split; [apply cleanOCRText_count_alnum | apply cleanOCRText_dense]. Qed.

(** X5.  A text without a letter or digit of [[a-zA-Z0-9]] is cleaned to the
    empty text. *)
Theorem sanitizer_symbols_only (text : jsstring) :
  count_alnum text = 0 -> cleanOCRText text = [].
Proof.
  intros H0.
  pose proof (cleanOCRText_count_alnum text) as Hc.
  pose proof (cleanOCRText_dense text) as Hd.
  rewrite H0 in Hc.
  assert (Hlen : length (without_nl (cleanOCRText text)) = 0) by lia.
  clear Hc Hd. rewrite cleanOCRText_lines in Hlen |- *.
  pose proof (result_lines_solid text) as Hs.
  destruct (result_lines text) as [|l ls]; [reflexivity|].
  exfalso. inversion Hs as [|l0 ls0 Hl Hls]. subst l0 ls0.
  destruct Hl as [[(c & t & El & Hsp) _] _]. subst l.
  assert (En : is_nl c = false).
  { destruct (is_nl c) eqn:En; [|reflexivity]. apply is_nl_space in En. congruence. }
  unfold without_nl in Hlen.
  destruct ls as [|l' ls']; cbn [join_nl app filter] in Hlen;
    rewrite En in Hlen; cbn [negb length] in Hlen; discriminate Hlen.
Qed.

Lemma sanitizer_symbols_only_witness :
  cleanOCRText ([32%N; 0x2605%N; 0x2605%N; 0x2605%N; NL] ++ js "--- *** ---") = [].
Proof. apply sanitizer_symbols_only. reflexivity. Defined.

(** ** Preprocessing *)

Module PreprocessFacts.

Lemma scaleFactor_bounds (w : N) :
  (0 < w < 1000)%N ->
  (2 <= Ocr.scaleFactor w /\ 1000 <= w * Ocr.scaleFactor w < 1000 + w)%N.
Proof.
  intros Hw. unfold Ocr.scaleFactor.
  assert (Hnz : w <> 0%N) by lia.
  pose proof (N.div_mod (1000 + w - 1) w Hnz) as Hdiv.
  pose proof (N.mod_lt (1000 + w - 1) w Hnz) as Hmod.
  set (q := ((1000 + w - 1) / w)%N) in *.
  set (r := ((1000 + w - 1) mod w)%N) in *.
  assert (Hq : (2 <= q)%N) by nia.
  rewrite N.max_r by exact Hq. nia.
Qed.

End PreprocessFacts.

(** X6.  An image narrower than 1000 pixels is resized to a multiple of its
    width, by a factor of at least 2, to the least multiple that reaches
    1000: the new width is at least 1000 and less than 1000 plus the old
    width (so less than 2000).  An image of width 1000 or more, of width 0
    or of unknown width gets the five fixed steps and no resize. *)
Theorem preprocess_resize (md : Ocr.metadata) :
  match Ocr.width md with
  | Some w =>
      if negb (w =? 0)%N && (w <? 1000)%N then
        exists k, (2 <= k /\ 1000 <= w * k < 1000 + w)%N
                  /\ Ocr.pipeline_for md = fixed_steps ++ [Ocr.ResizeLanczos3 (w * k)]
      else Ocr.pipeline_for md = fixed_steps
  | None => Ocr.pipeline_for md = fixed_steps
  end.
Proof.
  destruct md as [[w|]]; unfold Ocr.pipeline_for, fixed_steps; cbn [Ocr.width];
    [|reflexivity].
  destruct (negb (w =? 0)%N && (w <? 1000)%N) eqn:E; [|reflexivity].
  apply andb_true_iff in E. destruct E as [E1 E2].
  apply negb_true_iff in E1. apply N.eqb_neq in E1. apply N.ltb_lt in E2.
  exists (Ocr.scaleFactor w). split; [|reflexivity].
  apply PreprocessFacts.scaleFactor_bounds. lia.
Qed.

(** ** The path of the preprocessed image *)

Module ExtensionFacts.

(** A greedy run of a class up to the end of the input: it matches when the
    whole rest is in the class and long enough. *)
Lemma repeat_cls_end (neg : bool) (items : list citem) (s : jsstring) :
  forall fuel min prev,
    min + length s < fuel ->
    repeatMatcher fuel (run no_flags (Cls neg items)) min None prev s
      (fun _ s' => if at_eol no_flags s' then Some (length s') else None)
    = if forallb (cls_match no_flags neg items) s && (min <=? length s)
      then Some 0 else None.
Proof.
  induction s as [|c t IH]; intros [|fuel] min prev Hf; try (simpl in Hf; lia).
  - destruct min; reflexivity.
  - cbn [repeatMatcher]. cbn [run]. simpl in Hf.
    destruct (cls_match no_flags neg items c) eqn:Ec.
    + replace (length t =? length (c :: t)) with false
        by (symmetry; apply Nat.eqb_neq; simpl; lia).
      rewrite andb_false_r. rewrite IH by (destruct min; simpl; lia).
      cbn [forallb]. rewrite Ec. cbn [andb length].
      destruct min as [|m]; cbn [Nat.eqb pred Nat.leb].
      * destruct (forallb _ t); reflexivity.
      * reflexivity.
    + cbn [forallb]. rewrite Ec. destruct min; reflexivity.
Qed.

Lemma forallb_agree {T} (f g : T -> bool) (l : list T) :
  (forall x, f x = g x) -> forallb f l = forallb g l.
Proof. intros H. induction l as [|x l IH]; simpl; [reflexivity | now rewrite H, IH]. Qed.

Lemma match_here_extension (prev : option char) (s : jsstring) :
  match_here no_flags Ocr.re_extension prev s
  = match s with
    | c :: t =>
        if (46 =? c)%N && (forallb (fun x => negb (46 =? x)%N) t && (1 <=? length t))
        then Some (length s) else None
    | [] => None
    end.
Proof.
  unfold match_here.
  change Ocr.re_extension
    with (Seq (Cls false [Ch 46]) (Seq (Rep 1 None (Cls true [Ch 46])) Eol)).
  destruct s as [|c t]; [reflexivity|].
  change (run no_flags (Seq (Cls false [Ch 46]) (Seq (Rep 1 None (Cls true [Ch 46])) Eol))
              prev (c :: t) (fun _ s' => Some (length s')))
    with (if cls_match no_flags false [Ch 46] c
          then run no_flags (Rep 1 None (Cls true [Ch 46])) (Some c) t
                 (fun _ s' => if at_eol no_flags s' then Some (length s') else None)
          else None).
  unfold cls_match at 1. cbn [existsb item_match ignoreCase no_flags item_mem xorb].
  rewrite orb_false_r.
  destruct (46 =? c)%N; [|reflexivity].
  rewrite run_rep, repeat_cls_end by lia.
  replace (forallb (cls_match no_flags true [Ch 46]) t)
    with (forallb (fun x => negb (46 =? x)%N) t).
  2:{ apply forallb_agree. intros x. unfold cls_match.
      cbn [existsb item_match ignoreCase no_flags item_mem xorb].
      now rewrite orb_false_r. }
  cbn [andb].
  destruct (forallb (fun x => negb (46 =? x)%N) t && (1 <=? length t)); [|reflexivity].
  f_equal; lia.
Qed.

Lemma dotless_forallb (s : jsstring) :
  ~ In 46%N s -> forallb (fun x => negb (46 =? x)%N) s = true.
Proof.
  intros H. apply forallb_forall. intros x Hx.
  apply negb_true_iff, N.eqb_neq. intros <-. now apply H.
Qed.

Lemma replace_first_extension (by_ ext : jsstring) :
  ext <> [] -> ~ In 46%N ext ->
  forall base prev,
    replace_first_go no_flags Ocr.re_extension by_ prev (base ++ 46%N :: ext) = base ++ by_.
Proof.
  intros Hne Hdot. induction base as [|c b IH]; intros prev.
  - cbn [app]. destruct ext as [|e ext']; [congruence|].
    cbn [replace_first_go]. rewrite match_here_extension.
    rewrite (@dotless_forallb _ Hdot). cbn [N.eqb Pos.eqb andb length Nat.leb].
    cbn [skipn]. now rewrite skipn_all, app_nil_r.
  - cbn [app replace_first_go]. rewrite match_here_extension.
    rewrite forallb_app. cbn [forallb]. rewrite N.eqb_refl. cbn [negb andb].
    rewrite andb_false_r, andb_false_l, andb_false_r. now rewrite IH.
Qed.

Lemma replace_first_dotless (by_ p : jsstring) :
  ~ In 46%N p ->
  forall prev, replace_first_go no_flags Ocr.re_extension by_ prev p = p.
Proof.
  induction p as [|c t IH]; intros Hdot prev.
  - cbn [replace_first_go]. now rewrite match_here_extension.
  - cbn [replace_first_go]. rewrite match_here_extension.
    replace (46 =? c)%N with false.
    2:{ symmetry. apply N.eqb_neq. intros <-. apply Hdot. now left. }
    cbn [andb]. rewrite IH; [reflexivity|]. intros H. apply Hdot. now right.
Qed.

Lemma replace_first_trailing_dot (by_ : jsstring) :
  forall base prev,
    replace_first_go no_flags Ocr.re_extension by_ prev (base ++ [46%N]) = base ++ [46%N].
Proof.
  induction base as [|c b IH]; intros prev.
  - cbn [app replace_first_go]. rewrite !match_here_extension. reflexivity.
  - cbn [app replace_first_go]. rewrite match_here_extension.
    rewrite forallb_app. cbn [forallb]. rewrite N.eqb_refl. cbn [negb andb].
    rewrite andb_false_r, andb_false_l, andb_false_r. now rewrite IH.
Qed.

End ExtensionFacts.

(** X7.  The path of the preprocessed image: a path that ends in a dot and
    an extension (at least one code unit, none of them a dot) has the dot
    and the extension replaced by [_preprocessed.png]; a path without a
    dot, or one that ends in a dot, is left as it is, so that the
    preprocessed path is the input path itself. *)
Theorem preprocessed_path_cases :
  (forall base ext : jsstring,
      ext <> [] -> ~ In 46%N ext ->
      preprocessedPath (base ++ 46%N :: ext) = base ++ js "_preprocessed.png")
  /\ (forall p : jsstring, ~ In 46%N p -> preprocessedPath p = p)
  /\ (forall base : jsstring, preprocessedPath (base ++ [46%N]) = base ++ [46%N]).
Proof.
  unfold preprocessedPath, replace_first. split; [|split].
  - intros base ext Hne Hdot. now apply ExtensionFacts.replace_first_extension.
  - intros p Hdot. now apply ExtensionFacts.replace_first_dotless.
  - intros base. apply ExtensionFacts.replace_first_trailing_dot.
Qed.

(** The preprocessed path of an upload named after its original file, and
    of one stored under a name without extension. *)
Example preprocessed_path_examples :
  preprocessedPath (js "uploads/photo.v2.jpeg") = js "uploads/photo.v2_preprocessed.png"
  /\ preprocessedPath (js "uploads/3f2a9c") = js "uploads/3f2a9c".
Proof. vm_compute. split; reflexivity. Qed.

(** ** Quality Scorer *)

Module ScorerFacts.

Lemma is_sp_space (c : char) : is_sp c = is_space c.
Proof.
  unfold is_sp, cls_match. cbn [existsb item_match ignoreCase no_flags item_mem xorb].
  now rewrite orb_false_r.
Qed.

Lemma match_here_spaces (prev : option char) (s : jsstring) :
  match_here no_flags (plus space) prev s
  = if 1 <=? prefix_len is_sp s then Some (prefix_len is_sp s) else None.
Proof. apply match_here_run. Qed.

Lemma split_spaces_scan (prev : option char) (s cur : jsstring) :
  split_go no_flags (plus space) prev s cur 0
  = match s with
    | [] => [rev cur]
    | c :: t =>
        if is_sp c
        then rev cur :: split_go no_flags (plus space) (Some c) t [] (prefix_len is_sp t)
        else split_go no_flags (plus space) (Some c) t (c :: cur) 0
    end.
Proof.
  destruct s as [|c t]; [reflexivity|].
  cbn [split_go]. rewrite match_here_spaces. cbn [prefix_len].
  destruct (is_sp c); reflexivity.
Qed.

Lemma split_spaces_skip (prev : option char) (s cur : jsstring) :
  split_go no_flags (plus space) prev s cur (prefix_len is_sp s)
  = match s with
    | [] => [rev cur]
    | c :: t =>
        if is_sp c
        then split_go no_flags (plus space) (Some c) t cur (prefix_len is_sp t)
        else split_go no_flags (plus space) prev s cur 0
    end.
Proof.
  destruct s as [|c t]; [reflexivity|].
  cbn [prefix_len]. destruct (is_sp c); reflexivity.
Qed.

(** The pieces between runs of white space, put together, are the text
    without its white space, and no piece holds white space. *)
Lemma split_spaces_pieces (s : jsstring) :
  forall prev cur,
    Forall (fun c => is_space c = false) cur ->
    (concat (split_go no_flags (plus space) prev s cur 0) = rev cur ++ without_space s
     /\ Forall (Forall (fun c => is_space c = false))
               (split_go no_flags (plus space) prev s cur 0))
    /\ (concat (split_go no_flags (plus space) prev s cur (prefix_len is_sp s))
        = rev cur ++ without_space s
        /\ Forall (Forall (fun c => is_space c = false))
                  (split_go no_flags (plus space) prev s cur (prefix_len is_sp s))).
Proof.
  induction s as [|c t IH]; intros prev cur Hcur.
  - simpl. rewrite !app_nil_r.
    assert (Forall (fun c => is_space c = false) (rev cur))
      by (apply Forall_rev; exact Hcur).
    repeat split; try reflexivity; now constructor.
  - assert (Hscan :
      concat (split_go no_flags (plus space) prev (c :: t) cur 0)
      = rev cur ++ without_space (c :: t)
      /\ Forall (Forall (fun c => is_space c = false))
                (split_go no_flags (plus space) prev (c :: t) cur 0)).
    { rewrite split_spaces_scan. unfold without_space. cbn [filter].
      rewrite <- is_sp_space. destruct (is_sp c) eqn:Ec; cbn [negb].
      - destruct (IH (Some c) [] (Forall_nil _)) as [_ [H1 H2]].
        cbn [concat]. rewrite H1. split; [reflexivity|].
        constructor; [apply Forall_rev; exact Hcur | exact H2].
      - rewrite is_sp_space in Ec.
        destruct (IH (Some c) (c :: cur) (Forall_cons _ Ec Hcur)) as [[H1 H2] _].
        rewrite H1. cbn [rev]. rewrite <- app_assoc. split; [reflexivity | exact H2]. }
    split; [exact Hscan|].
    rewrite split_spaces_skip. destruct (is_sp c) eqn:Ec; [|exact Hscan].
    destruct (IH (Some c) cur Hcur) as [_ [H1 H2]].
    rewrite H1. unfold without_space. cbn [filter].
    rewrite <- is_sp_space, Ec. split; [reflexivity | exact H2].
Qed.

Lemma split_spaces (text : jsstring) :
  concat (split_re no_flags (plus space) text) = without_space text
  /\ Forall (Forall (fun c => is_space c = false)) (split_re no_flags (plus space) text).
Proof.
  destruct text as [|c t].
  - unfold split_re. rewrite match_here_spaces. simpl. split; [reflexivity|].
    repeat constructor.
  - unfold split_re. destruct (split_spaces_pieces (c :: t) None (Forall_nil _)) as [H _].
    exact H.
Qed.

Lemma concat_nonempty (ls : list jsstring) :
  concat (filter (fun w => 0 <? length w) ls) = concat ls.
Proof.
  induction ls as [|l ls IH]; [reflexivity|].
  destruct l as [|c l']; simpl; now rewrite IH.
Qed.

Lemma words_concat (text : jsstring) : concat (words text) = without_space text.
Proof. unfold words. rewrite concat_nonempty. apply split_spaces. Qed.

Lemma words_nonempty (text w : jsstring) : In w (words text) -> 1 <= length w.
Proof.
  unfold words. intros H. apply filter_In in H. destruct H as [_ H].
  now apply Nat.ltb_lt in H.
Qed.

Lemma words_nil (text : jsstring) : words text = [] <-> without_space text = [].
Proof.
  rewrite <- words_concat. split; [now intros ->|].
  intros H. destruct (words text) as [|w ws] eqn:E; [reflexivity|].
  assert (Hw : 1 <= length w) by (apply (@words_nonempty text); rewrite E; now left).
  destruct w; [simpl in Hw; lia | discriminate].
Qed.

Lemma without_space_nil (text : jsstring) :
  without_space text = [] <-> Forall (fun c => is_space c = true) text.
Proof.
  unfold without_space. induction text as [|c t IH]; simpl.
  - split; [constructor | reflexivity].
  - destruct (is_space c) eqn:E; simpl.
    + rewrite IH. split; [now constructor | now inversion 1].
    + split; [discriminate | inversion 1; congruence].
Qed.

(** The score of a text without words, in any arithmetic. *)
Lemma score_without_words (A : arith) (text : jsstring) :
  words text = [] -> scoreOCRQuality_in A text = of_nat A 0.
Proof.
  intros H. unfold scoreOCRQuality_in. destruct text as [|c t]; [reflexivity|].
  change (filter (fun w => 0 <? length w) (split_re no_flags (plus space) (c :: t)))
    with (words (c :: t)).
  now rewrite H.
Qed.

Lemma sum_lengths_from (ws : list jsstring) (lo hi : nat) :
  (forall w, In w ws -> lo <= length w <= hi) ->
  forall acc,
    acc + lo * length ws <= fold_left (fun sum w => sum + length w) ws acc
    <= acc + hi * length ws.
Proof.
  induction ws as [|w ws IH]; intros Hw acc; simpl; [lia|].
  assert (H1 : lo <= length w <= hi) by (apply Hw; now left).
  assert (H2 : forall w', In w' ws -> lo <= length w' <= hi)
    by (intros w' Hin; apply Hw; now right).
  specialize (IH H2 (acc + length w)). nia.
Qed.

Local Open Scope Q_scope.

Lemma ratio_bounds (a b lo hi : nat) :
  (0 < b)%nat -> (lo * b <= a <= hi * b)%nat ->
  inject_Z (Z.of_nat lo) <= inject_Z (Z.of_nat a) / inject_Z (Z.of_nat b)
  <= inject_Z (Z.of_nat hi).
Proof.
  intros Hb [H1 H2].
  assert (Hpos : 0 < inject_Z (Z.of_nat b)).
  { change 0 with (inject_Z 0). rewrite <- Zlt_Qlt. lia. }
  split.
  - apply Qle_shift_div_l; [exact Hpos|].
    rewrite <- inject_Z_mult, <- Zle_Qle. nia.
  - apply Qle_shift_div_r; [exact Hpos|].
    rewrite <- inject_Z_mult, <- Zle_Qle. nia.
Qed.

Lemma filter_ratio {T} (f : T -> bool) (l : list T) :
  (0 < length l)%nat ->
  0 <= inject_Z (Z.of_nat (length (filter f l))) / inject_Z (Z.of_nat (length l)) <= 1.
Proof.
  intros Hl.
  apply (@ratio_bounds (length (filter f l)) (length l) 0 1 Hl).
  pose proof (filter_length_le f l). lia.
Qed.

Lemma score_formula_bounds (avg rr mr L : Q) :
  1 <= avg <= L -> 0 <= rr <= 1 -> 0 <= mr <= 1 ->
  3 # 100 <= avg / inject_Z (Z.of_nat 10) * (inject_Z (Z.of_nat 3) / inject_Z (Z.of_nat 10))
             + rr * (inject_Z (Z.of_nat 4) / inject_Z (Z.of_nat 10))
             + mr * (inject_Z (Z.of_nat 3) / inject_Z (Z.of_nat 10))
          <= (7 # 10) + (3 # 100) * L.
Proof.
  intros Havg Hrr Hmr.
  change (inject_Z (Z.of_nat 10)) with 10.
  change (inject_Z (Z.of_nat 3)) with 3.
  change (inject_Z (Z.of_nat 4)) with 4.
  unfold Qdiv. change (/ 10) with (1 # 10).
  split; lra.
Qed.

End ScorerFacts.
Import ScorerFacts.

(** X8.  A text of white space only has no words, and its score is 0, as
    the program computes it and in exact arithmetic. *)
Theorem scorer_blank_text (text : jsstring) :
  Forall (fun c => is_space c = true) text ->
  words text = []
  /\ scoreOCRQuality text = 0%float
  /\ scoreOCRQuality_exact text = 0%Q.
Proof.
  intros H. apply without_space_nil in H. apply words_nil in H.
  split; [exact H|].
  unfold scoreOCRQuality, scoreOCRQuality_exact.
  rewrite !score_without_words by exact H. split; reflexivity.
Qed.

Lemma scorer_blank_text_witness :
  words [32%N; 9%N; NL; 0xA0%N; 32%N] = []
  /\ scoreOCRQuality [32%N; 9%N; NL; 0xA0%N; 32%N] = 0%float
  /\ scoreOCRQuality_exact [32%N; 9%N; NL; 0xA0%N; 32%N] = 0%Q.
Proof. apply scorer_blank_text. repeat constructor. Defined.

(** X9.  In exact arithmetic the score of a text with a code unit other
    than white space is at least 0.03, and at most 0.7 plus 0.03 times the
    length of its longest word: at most 1 when no word has more than 10
    code units. *)
Theorem scorer_exact_range (text : jsstring) (longest : nat) :
  without_space text <> [] ->
  (forall w, In w (words text) -> length w <= longest) ->
  (3 # 100 <= scoreOCRQuality_exact text
           <= (7 # 10) + (3 # 100) * inject_Z (Z.of_nat longest))%Q.
Proof.
  intros Hne Hlong.
  assert (Hw : words text <> []) by (intros H; apply Hne; now apply words_nil).
  unfold scoreOCRQuality_exact, scoreOCRQuality_in.
  destruct text as [|c t]; [now elim Hne|].
  change (filter (fun w => 0 <? length w) (split_re no_flags (plus space) (c :: t)))
    with (words (c :: t)).
  set (text := c :: t) in *.
  assert (Hlen : 0 < length (words text))
    by (destruct (words text); [now elim Hw | simpl; lia]).
  assert (Hsum : 1 * length (words text) <= sum_lengths (words text)
                 <= longest * length (words text)).
  { assert (Hall : forall w, In w (words text) -> 1 <= length w <= longest).
    { intros w Hin. split; [now apply (@words_nonempty text) | now apply Hlong]. }
    pose proof (@sum_lengths_from (words text) 1 longest Hall 0) as H.
    unfold sum_lengths. lia. }
  destruct (words text) as [|w ws] eqn:Ew; [now elim Hw|].
  rewrite <- Ew in *. clear Ew w ws.
  cbn [exact div add mul of_nat dec num].
  apply score_formula_bounds.
  - exact (@ratio_bounds _ _ 1 longest Hlen Hsum).
  - exact (@filter_ratio _ (fun w => (3 <=? length w) && (length w <=? 20)) _ Hlen).
  - destruct (0 <? length _) eqn:El.
    + apply Nat.ltb_lt in El. exact (@filter_ratio _ _ _ El).
    + split; [apply Qle_refl | discriminate].
Qed.

Lemma scorer_exact_range_witness :
  (3 # 100 <= scoreOCRQuality_exact (js "Hello World of text")
           <= (7 # 10) + (3 # 100) * inject_Z (Z.of_nat 10))%Q.
Proof.
  apply scorer_exact_range.
  - vm_compute. discriminate.
  - intros w Hin. vm_compute in Hin.
    repeat (destruct Hin as [<- | Hin]; [cbn [length]; lia|]).
    destruct Hin.
Defined.


(** ** The PDF path *)



(** X11.  The normalization of the PDF text only deletes code units, and
    the texts it leaves as they are are those without white space at
    either end and without three line feeds in a row. *)
Theorem pdf_normalize_shape (text : jsstring) :
  subseq (Pdf.normalize text) text
  /\ length (Pdf.normalize text) <= length text
  /\ (Pdf.normalize text = text <-> trim text = text /\ short_nl_runs text).
Proof.
  split; [apply PdfMore.normalize_subseq|].
  split; [apply subseq_length, PdfMore.normalize_subseq|].
  apply PdfMore.normalize_fixed.
Qed.

(** ** The OCR extractor *)

(** X12.  The life of the OCR worker.  When [createWorker] throws, the
    extractor throws that error and calls nothing else.  Otherwise the
    work on the image follows: the preprocessor, then the loop over the
    profiles, which leaves the candidates.  Then [terminate] is called.
    When it returns, the clean-up follows and the extractor ends with what
    the selection made of the candidates.  When it throws and the
    selection had thrown, the extractor ends there, with the error of
    [terminate].  When it throws and a text had been selected, [terminate]
    is called a second time, from the world the first call left: the
    clean-up follows and the extractor throws the report of the first
    error when the second call returns, and it ends there with the second
    error when that call throws too.  So [terminate] is called a second
    time exactly when the first call threw after a text was selected.
    [unlink] is called only on the preprocessed path, and only when that
    differs from the input path.  A text is returned only when the first
    call to [terminate] returned; it is the selected text, a sanitized
    text and not empty. *)
Theorem ocr_worker_lifecycle (World : Type) (rt : Ocr.Runtime World)
    (filePath : jsstring) (st : World * log) :
  match Ocr.createWorker rt (js "eng") (fst st) with
  | (Throw e, w0) =>
      Ocr.extractTextFromImage rt filePath st
      = (Throw e, (w0, snd st ++ [(EvCreateWorker (js "eng"), Threw)]))
  | (Ok _, w0) =>
      exists imagePath st1 results st2 work unlinks,
        Ocr.preprocessImage rt filePath (preprocessedPath filePath)
          (w0, snd st ++ [(EvCreateWorker (js "eng"), Returned)]) = (Ok imagePath, st1)
        /\ Ocr.run_configurations rt imagePath Ocr.configurations [] st1 = (Ok results, st2)
        /\ snd st2 = snd st ++ (EvCreateWorker (js "eng"), Returned) :: work
        /\ forallb is_work work = true
        /\ (unlinks = []
            \/ exists o, unlinks = [(EvUnlink (preprocessedPath filePath), o)]
                         /\ preprocessedPath filePath <> filePath)
        /\ match Ocr.terminate rt (fst st2) with
           | (Ok _, _) =>
               fst (Ocr.extractTextFromImage rt filePath st)
               = match Ocr.select results with
                 | Ok best => Ok best
                 | Throw message => Throw (Ocr.msg_failed_prefix ++ message)
                 end
               /\ snd (snd (Ocr.extractTextFromImage rt filePath st))
                  = snd st2 ++ (EvTerminate, Returned) :: unlinks
           | (Throw e1, w3) =>
               match Ocr.select results with
               | Throw _ =>
                   Ocr.extractTextFromImage rt filePath st
                   = (Throw e1, (w3, snd st2 ++ [(EvTerminate, Threw)]))
               | Ok _ =>
                   match Ocr.terminate rt w3 with
                   | (Ok _, _) =>
                       fst (Ocr.extractTextFromImage rt filePath st)
                       = Throw (Ocr.msg_failed_prefix ++ e1)
                       /\ snd (snd (Ocr.extractTextFromImage rt filePath st))
                          = snd st2 ++ (EvTerminate, Threw) :: (EvTerminate, Returned)
                                       :: unlinks
                   | (Throw e2, w4) =>
                       Ocr.extractTextFromImage rt filePath st
                       = (Throw e2,
                          (w4, snd st2 ++ [(EvTerminate, Threw); (EvTerminate, Threw)]))
                   end
               end
           end
        /\ (forall t,
              fst (Ocr.extractTextFromImage rt filePath st) = Ok t ->
              (exists u w3, Ocr.terminate rt (fst st2) = (Ok u, w3))
              /\ Ocr.select results = Ok t
              /\ t <> [] /\ exists raw, t = cleanOCRText raw)
  end.
Proof.
  pose proof (OcrMore.extractTextFromImage_exact rt filePath st) as H.
  pose proof (OcrMore.extractTextFromImage_ok rt filePath st) as Hok.
  destruct (Ocr.createWorker rt (js "eng") (fst st)) as [[u|e] w0]; [|exact H].
  destruct H as (imagePath & st1 & results & st2 & work & unlinks
                 & Ep & Er & _ & Hlog & Hwork & Hu & Hc).
  exists imagePath, st1, results, st2, work, unlinks.
  split; [exact Ep|]. split; [exact Er|]. split; [exact Hlog|]. split; [exact Hwork|].
  split; [|split].
  - destruct Hu as [Hu | (o & Hu & E)]; [left; exact Hu|]. right. exists o.
    split; [exact Hu|]. intros Heq.
    apply OcrMore.str_eqb_eq in Heq. rewrite Heq in E. discriminate E.
  - destruct (Ocr.terminate rt (fst st2)) as [[u2|e1] w3].
    + destruct Hc as (Hr & Hl & _). split; [exact Hr | exact Hl].
    + destruct (Ocr.select results) as [best|message]; [|exact Hc].
      destruct (Ocr.terminate rt w3) as [[u3|e2] w4]; [|exact Hc].
      destruct Hc as (Hr & Hl & _). split; [exact Hr | exact Hl].
  - intros t Ht. destruct (Hok t Ht) as [Hne Hraw].
    destruct (Ocr.terminate rt (fst st2)) as [[u2|e1] w3].
    + destruct Hc as (Hr & _). split; [exists u2, w3; reflexivity|].
      rewrite Hr in Ht.
      destruct (Ocr.select results) as [best|message]; [|discriminate Ht].
      split; [exact Ht|]. split; [exact Hne | exact Hraw].
    + exfalso. destruct (Ocr.select results) as [best|message].
      * destruct (Ocr.terminate rt w3) as [[u3|e2] w4].
        -- destruct Hc as (Hr & _). rewrite Hr in Ht. discriminate Ht.
        -- rewrite Hc in Ht. discriminate Ht.
      * rewrite Hc in Ht. discriminate Ht.
Qed.

(** A worker whose [terminate] always throws: the recognized text is
    lost, and the extractor throws the error of the second call. *)
Example ocr_worker_never_terminates :
  Ocr.extractTextFromImage (unterminated (js "Hello World")) (js "shot.png") (tt, [])
  = (Throw (js "worker is gone"),
     (tt, [ (EvCreateWorker (js "eng"), Returned);
            (EvSetParameters (js "6") (js "1"), Returned);
            (EvRecognize (js "shot.png"), Returned);
            (EvSetParameters (js "3") (js "1"), Returned);
            (EvRecognize (js "shot.png"), Returned);
            (EvSetParameters (js "11") (js "1"), Returned);
            (EvRecognize (js "shot.png"), Returned);
            (EvSetParameters (js "6") (js "0"), Returned);
            (EvRecognize (js "shot.png"), Returned);
            (EvTerminate, Threw); (EvTerminate, Threw) ])).
Proof. vm_compute. reflexivity. Qed.


(** ** The upload route *)

Module UploadFacts.
Import Upload.

Lemma unlinks_of_app (p : jsstring) (a b : log) :
  unlinks_of p (a ++ b) = unlinks_of p a + unlinks_of p b.
Proof. unfold unlinks_of. now rewrite filter_app, length_app. Qed.

Lemma unlinks_of_none (P : event * outcome -> bool) (p : jsstring) (evs : log) :
  (forall entry, P entry = true -> is_unlink_of p entry = false) ->
  forallb P evs = true -> unlinks_of p evs = 0.
Proof.
  intros HP H. unfold unlinks_of. induction evs as [|x evs IH]; [reflexivity|].
  cbn [forallb] in H. apply andb_true_iff in H. destruct H as [Hx H].
  cbn [filter]. rewrite (HP x Hx). now apply IH.
Qed.

Lemma unlinks_of_self (p : jsstring) (o : outcome) : unlinks_of p [(EvUnlink p, o)] = 1.
Proof.
  unfold unlinks_of. cbn [filter is_unlink_of fst].
  now rewrite (proj2 (OcrMore.str_eqb_eq p p) eq_refl).
Qed.

Lemma pdf_call_no_unlink (p : jsstring) (entry : event * outcome) :
  is_pdf_call entry = true -> is_unlink_of p entry = false.
Proof. destruct entry as [[] o]; cbn; intros H; try discriminate H; reflexivity. Qed.

Lemma ocr_call_no_unlink (p : jsstring) (entry : event * outcome) :
  is_ocr_call p entry = true -> is_unlink_of p entry = false.
Proof.
  destruct entry as [[] o]; cbn; intros H; try discriminate H; try reflexivity.
  now apply negb_true_iff in H.
Qed.

Section Handler.

Variable World : Type.
Variable lib : Library.
Variable rt : Runtime World.

Lemma parse_emits (dataBuffer : jsstring) :
  emits is_pdf_call (Pdf.parse (pdf rt) dataBuffer).
Proof.
  unfold Pdf.parse. apply emits_try_catch; [now apply emits_call|].
  intros m. destruct (Pdf.mentions_xref m); [|apply emits_throw].
  apply emits_try_catch; [now apply emits_call | intros e; apply emits_throw].
Qed.

Lemma extractTextFromPDF_emits (filePath : jsstring) :
  emits is_pdf_call (Pdf.extractTextFromPDF (pdf rt) filePath).
Proof.
  unfold Pdf.extractTextFromPDF.
  apply emits_try_catch; [|intros e; apply emits_throw].
  apply emits_bind; [now apply emits_call|]. intros buf.
  apply emits_bind; [apply parse_emits|]. intros [[|c t]|]; try apply emits_throw.
  destruct (length (Pdf.normalize (c :: t)) =? 0); [apply emits_throw | apply emits_ret].
Qed.

(** [unlink] behind a [catch] that swallows. *)
Lemma swallow_unlink (p : jsstring) (st : World * log) :
  exists o w',
    swallow (call (EvUnlink p) (Ocr.unlink (ocr rt) p)) st
    = (Ok tt, (w', snd st ++ [(EvUnlink p, o)])).
Proof.
  unfold swallow, try_catch, call, ret. destruct st as [w lg]. cbn [fst snd].
  destruct (Ocr.unlink (ocr rt) p w) as [[[]|e] w1]; cbn [outcome_of]; eauto.
Qed.

(** The choice of the extractor, by cases. *)
Lemma extract_eq (p ext : jsstring) (st : World * log) :
  extract rt p ext st
  = if is_pdf ext then
      match Pdf.extractTextFromPDF (pdf rt) p st with
      | (Ok t, st1) => (Ok (inr t), st1)
      | (Throw e, st1) =>
          if includes (js "XRef") e || includes (js "corrupted") e
          then (Ok (inl (Respond 400 (structural_body e))), st1)
          else (Throw e, st1)
      end
    else if is_image ext then
      match Ocr.extractTextFromImage (ocr rt) p st with
      | (Ok t, st1) => (Ok (inr t), st1)
      | (Throw e, st1) => (Throw e, st1)
      end
    else
      match Ocr.unlink (ocr rt) p (fst st) with
      | (Ok _, w1) =>
          (Ok (inl (Respond 400 (error_body msg_unsupported))),
           (w1, snd st ++ [(EvUnlink p, Returned)]))
      | (Throw e, w1) => (Throw e, (w1, snd st ++ [(EvUnlink p, Threw)]))
      end.
Proof.
  unfold extract. destruct (is_pdf ext).
  - unfold try_catch, bind, ret, throw.
    destruct (Pdf.extractTextFromPDF (pdf rt) p st) as [[t|e] st1]; [reflexivity|].
    destruct (includes (js "XRef") e || includes (js "corrupted") e); reflexivity.
  - destruct (is_image ext).
    + unfold bind, ret.
      destruct (Ocr.extractTextFromImage (ocr rt) p st) as [[t|e] st1]; reflexivity.
    + unfold bind, call, ret. destruct st as [w lg]. cbn [fst snd].
      destruct (Ocr.unlink (ocr rt) p w) as [[u|e] w1]; reflexivity.
Qed.

(** The handler, by the outcome of the extraction. *)
Lemma handler_eq (f : file) (st : World * log) :
  handler lib rt (Some f) st
  = match extract rt (path f) (fileExtension lib f) st with
    | (Ok (inl early), st1) => (Ok early, st1)
    | (Ok (inr t), st1) =>
        (Ok (respond f (fileExtension lib f)
               (if is_pdf (fileExtension lib f) then js "pdf" else js "ocr") t),
         snd (swallow (call (EvUnlink (path f)) (Ocr.unlink (ocr rt) (path f))) st1))
    | (Throw e, st1) =>
        (Ok (Next e),
         if negb (length (path f) =? 0)
         then snd (swallow (call (EvUnlink (path f)) (Ocr.unlink (ocr rt) (path f))) st1)
         else st1)
    end.
Proof.
  unfold handler. unfold try_catch at 1. unfold bind at 1.
  change (toLowerCase lib (extname lib (originalname f))) with (fileExtension lib f).
  destruct (extract rt (path f) (fileExtension lib f) st) as [[[early|t]|e] st1].
  - reflexivity.
  - unfold bind at 1.
    destruct (swallow_unlink (path f) st1) as (o & w' & E). rewrite E. reflexivity.
  - unfold bind at 1.
    destruct (negb (length (path f) =? 0)); [|reflexivity].
    destruct (swallow_unlink (path f) st1) as (o & w' & E). rewrite E. reflexivity.
Qed.

Lemma respond_text (f : file) (ext method t : jsstring) :
  t <> [] -> trim t = t ->
  respond f ext method t
  = Respond 200 (success_body (originalname f)
                   (if is_pdf ext then js "pdf" else js "image") t method).
Proof.
  intros Hne Ht. unfold respond. rewrite Ht.
  destruct t as [|c t']; [congruence|]. reflexivity.
Qed.

(** The calls of the handler stay within those of the extractor chosen by
    the extension, and [unlink] of the upload. *)
Lemma handler_emits (f : file) :
  emits (is_upload_call (fileExtension lib f) (path f)) (handler lib rt (Some f)).
Proof.
  set (ext := fileExtension lib f). set (p := path f).
  assert (Hunlink : forall o, is_upload_call ext p (EvUnlink p, o) = true).
  { intros o. unfold is_upload_call. cbn [is_unlink_of is_pdf_call is_ocr_call fst].
    rewrite (proj2 (OcrMore.str_eqb_eq p p) eq_refl).
    destruct (is_pdf ext); [reflexivity|]. destruct (is_image ext); reflexivity. }
  assert (Hu : emits (is_upload_call ext p)
                 (swallow (call (EvUnlink p) (Ocr.unlink (ocr rt) p)))).
  { apply emits_swallow, emits_call; apply Hunlink. }
  unfold handler. fold p.
  change (toLowerCase lib (extname lib (originalname f))) with ext.
  apply emits_try_catch.
  - apply emits_bind.
    + unfold extract. destruct (is_pdf ext) eqn:Epdf.
      * apply emits_try_catch.
        -- apply emits_bind; [|intros t; apply emits_ret].
           apply (@emits_weaken _ _ is_pdf_call); [|apply extractTextFromPDF_emits].
           intros entry H. unfold is_upload_call. now rewrite Epdf, H.
        -- intros e. destruct (includes (js "XRef") e || includes (js "corrupted") e);
             [apply emits_ret | apply emits_throw].
      * destruct (is_image ext) eqn:Eimg.
        -- apply emits_bind; [|intros t; apply emits_ret].
           apply (@emits_weaken _ _ (is_ocr_call p));
             [|apply OcrMore.extractTextFromImage_emits].
           intros entry H. unfold is_upload_call. now rewrite Epdf, Eimg, H.
        -- apply emits_bind; [|intros u; apply emits_ret].
           apply emits_call; apply Hunlink.
    + intros [early|t]; [apply emits_ret|].
      apply emits_bind; [exact Hu | intros u; apply emits_ret].
  - intros e. apply emits_bind; [|intros u; apply emits_ret].
    destruct (negb (length p =? 0)); [exact Hu | apply emits_ret].
Qed.

(** A request with a PDF. *)
Lemma handler_pdf_run (f : file) (st : World * log) :
  is_pdf (fileExtension lib f) = true ->
  exists evs tail,
    forallb is_pdf_call evs = true
    /\ snd (snd (handler lib rt (Some f) st)) = snd st ++ evs ++ tail
    /\ match Pdf.extractTextFromPDF (pdf rt) (path f) st with
       | (Ok t, _) =>
           t <> [] /\ trim t = t
           /\ fst (handler lib rt (Some f) st)
              = Ok (Respond 200 (success_body (originalname f) (js "pdf") t (js "pdf")))
           /\ exists o, tail = [(EvUnlink (path f), o)]
       | (Throw e, _) =>
           (exists m, e = Pdf.failure_message m)
           /\ if includes (js "XRef") e || includes (js "corrupted") e
              then fst (handler lib rt (Some f) st) = Ok (Respond 400 (structural_body e))
                   /\ tail = []
              else fst (handler lib rt (Some f) st) = Ok (Next e)
                   /\ (if length (path f) =? 0 then tail = []
                       else exists o, tail = [(EvUnlink (path f), o)])
       end.
Proof.
  intros Epdf. rewrite handler_eq, extract_eq, Epdf.
  destruct (Pdf.extractTextFromPDF (pdf rt) (path f) st) as [[t|e] st1] eqn:E.
  - destruct (@emits_run _ _ _ _ _ _ _ (extractTextFromPDF_emits (path f)) E)
      as (evs & Hlog & Hall).
    destruct (swallow_unlink (path f) st1) as (o & w' & Eu). rewrite Eu.
    destruct (PdfMore.extractTextFromPDF_ok _ _ _ E)
      as (raw & buf & relaxed & w & w2 & _ & Et & Hne & _).
    assert (Htrim : trim t = t).
    { rewrite Et. unfold Pdf.normalize. apply trim_idempotent. }
    exists evs, [(EvUnlink (path f), o)]. cbn [fst snd].
    split; [exact Hall|]. split; [rewrite Hlog; now rewrite <- app_assoc|].
    split; [exact Hne|]. split; [exact Htrim|]. split; [|now exists o].
    rewrite (respond_text f _ _ Hne Htrim), Epdf. reflexivity.
  - destruct (@emits_run _ _ _ _ _ _ _ (extractTextFromPDF_emits (path f)) E)
      as (evs & Hlog & Hall).
    destruct (PdfMore.extractTextFromPDF_throw _ _ _ E) as [m Hm].
    destruct (includes (js "XRef") e || includes (js "corrupted") e).
    + exists evs, []. cbn [fst snd]. rewrite app_nil_r.
      split; [exact Hall|]. split; [exact Hlog|]. split; [now exists m|].
      split; reflexivity.
    + destruct (length (path f) =? 0) eqn:Elen; cbn [negb fst snd].
      * exists evs, []. rewrite app_nil_r.
        split; [exact Hall|]. split; [exact Hlog|]. split; [now exists m|].
        split; reflexivity.
      * destruct (swallow_unlink (path f) st1) as (o & w' & Eu). rewrite Eu.
        exists evs, [(EvUnlink (path f), o)]. cbn [fst snd].
        split; [exact Hall|]. split; [rewrite Hlog; now rewrite <- app_assoc|].
        split; [now exists m|]. split; [reflexivity | now exists o].
Qed.

(** A request with an image. *)
Lemma handler_image_run (f : file) (st : World * log) :
  is_pdf (fileExtension lib f) = false ->
  is_image (fileExtension lib f) = true ->
  exists evs tail,
    forallb (is_ocr_call (path f)) evs = true
    /\ snd (snd (handler lib rt (Some f) st)) = snd st ++ evs ++ tail
    /\ match Ocr.extractTextFromImage (ocr rt) (path f) st with
       | (Ok t, _) =>
           t <> [] /\ trim t = t
           /\ fst (handler lib rt (Some f) st)
              = Ok (Respond 200 (success_body (originalname f) (js "image") t (js "ocr")))
           /\ exists o, tail = [(EvUnlink (path f), o)]
       | (Throw e, _) =>
           fst (handler lib rt (Some f) st) = Ok (Next e)
           /\ (if length (path f) =? 0 then tail = []
               else exists o, tail = [(EvUnlink (path f), o)])
       end.
Proof.
  intros Epdf Eimg. rewrite handler_eq, extract_eq, Epdf, Eimg.
  pose proof (OcrMore.extractTextFromImage_ok (ocr rt) (path f) st) as Hok.
  destruct (Ocr.extractTextFromImage (ocr rt) (path f) st) as [[t|e] st1] eqn:E.
  - destruct (@emits_run _ _ _ _ _ _ _
                (OcrMore.extractTextFromImage_emits (ocr rt) (path f)) E)
      as (evs & Hlog & Hall).
    destruct (swallow_unlink (path f) st1) as (o & w' & Eu). rewrite Eu.
    destruct (Hok t eq_refl) as (Hne & raw & Et).
    assert (Htrim : trim t = t).
    { rewrite Et. unfold cleanOCRText. apply trim_idempotent. }
    exists evs, [(EvUnlink (path f), o)]. cbn [fst snd].
    split; [exact Hall|]. split; [rewrite Hlog; now rewrite <- app_assoc|].
    split; [exact Hne|]. split; [exact Htrim|]. split; [|now exists o].
    rewrite (respond_text f _ _ Hne Htrim), Epdf. reflexivity.
  - destruct (@emits_run _ _ _ _ _ _ _
                (OcrMore.extractTextFromImage_emits (ocr rt) (path f)) E)
      as (evs & Hlog & Hall).
    destruct (length (path f) =? 0) eqn:Elen; cbn [negb fst snd].
    + exists evs, []. rewrite app_nil_r.
      split; [exact Hall|]. split; [exact Hlog|]. split; reflexivity.
    + destruct (swallow_unlink (path f) st1) as (o & w' & Eu). rewrite Eu.
      exists evs, [(EvUnlink (path f), o)]. cbn [fst snd].
      split; [exact Hall|]. split; [rewrite Hlog; now rewrite <- app_assoc|].
      split; [reflexivity | now exists o].
Qed.

(** A request with a file of another type. *)
Lemma handler_other_run (f : file) (st : World * log) :
  is_pdf (fileExtension lib f) = false ->
  is_image (fileExtension lib f) = false ->
  match Ocr.unlink (ocr rt) (path f) (fst st) with
  | (Ok _, w1) =>
      handler lib rt (Some f) st
      = (Ok (Respond 400 (error_body msg_unsupported)),
         (w1, snd st ++ [(EvUnlink (path f), Returned)]))
  | (Throw e, _) =>
      fst (handler lib rt (Some f) st) = Ok (Next e)
      /\ exists tail,
           snd (snd (handler lib rt (Some f) st))
           = snd st ++ (EvUnlink (path f), Threw) :: tail
           /\ (if length (path f) =? 0 then tail = []
               else exists o, tail = [(EvUnlink (path f), o)])
  end.
Proof.
  intros Epdf Eimg. rewrite handler_eq, extract_eq, Epdf, Eimg.
  destruct (Ocr.unlink (ocr rt) (path f) (fst st)) as [[u|e] w1]; [reflexivity|].
  destruct (length (path f) =? 0) eqn:Elen; cbn [negb fst snd].
  - split; [reflexivity|]. exists []. split; reflexivity.
  - destruct (swallow_unlink (path f) (w1, snd st ++ [(EvUnlink (path f), Threw)]))
      as (o & w' & Eu).
    rewrite Eu. cbn [fst snd]. split; [reflexivity|].
    exists [(EvUnlink (path f), o)]. split; [now rewrite <- app_assoc | now exists o].
Qed.

End Handler.

End UploadFacts.

Module ReportFacts.

(** Every report of the PDF extractor starts with [P] or [F]. *)
Lemma failure_message_head (m : jsstring) :
  exists c rest, Pdf.failure_message m = c :: rest /\ (c = 80%N \/ c = 70%N).
Proof.
  unfold Pdf.failure_message.
  destruct (Pdf.mentions_xref m); [|destruct (Pdf.mentions_password m)].
  - eexists _, _. split; [reflexivity | now left].
  - eexists _, _. split; [reflexivity | now left].
  - eexists _, _. split; [reflexivity | now right].
Qed.

(** The structural report names corruption, whatever the error behind it. *)
Lemma structural_report_corrupted (m : jsstring) :
  includes (js "corrupted") (Pdf.msg_structural m) = true.
Proof.
  unfold Pdf.msg_structural.
  change (js "This can happen with corrupted PDFs or PDFs created with certain software. ")
    with (js "This can happen with " ++ js "corrupted"
          ++ js " PDFs or PDFs created with certain software. ").
  rewrite !app_assoc. rewrite <- (app_assoc _ (js "corrupted")).
  rewrite <- (app_assoc _ (js "corrupted" ++ _)).
  rewrite <- (app_assoc (js "corrupted")).
  apply includes_app.
Qed.

(** The fixed prefix of the generic report names neither XRef nor
    corruption. *)
Lemma failed_xref (m : jsstring) :
  includes (js "XRef") (Pdf.msg_failed m) = includes (js "XRef") m.
Proof. reflexivity. Qed.

Lemma failed_corrupted (m : jsstring) :
  includes (js "corrupted") (Pdf.msg_failed m) = includes (js "corrupted") m.
Proof. reflexivity. Qed.

End ReportFacts.


(** An image of text, a structurally broken PDF, a text file and no file. *)
Example upload_answers_examples :
  fst (Upload.handler plain_names (serving (js "Hello World") [])
         (Some {| Upload.path := js "uploads/ab12"; Upload.originalname := js "Shot.PNG" |})
         (tt, []))
  = Ok (Upload.Respond 200
          (success_body (js "Shot.PNG") (js "image") (js "Hello World") (js "ocr")))
  /\ fst (Upload.handler plain_names (rejecting (js "Invalid XRef stream header"))
            (Some {| Upload.path := js "uploads/ab12";
                     Upload.originalname := js "report.pdf" |})
            (tt, []))
     = Ok (Upload.Respond 400
             (Upload.structural_body
                (Pdf.failure_message (Pdf.msg_corrupted (js "Invalid XRef stream header")))))
  /\ fst (Upload.handler plain_names (serving [] [])
            (Some {| Upload.path := js "uploads/ab12";
                     Upload.originalname := js "notes.txt" |})
            (tt, []))
     = Ok (Upload.Respond 400 (error_body Upload.msg_unsupported))
  /\ fst (Upload.handler plain_names (serving [] []) None (tt, []))
     = Ok (Upload.Respond 400 (error_body Upload.msg_no_file)).
Proof. vm_compute. repeat split. Qed.

(** X14.  What becomes of the uploaded file.  The handler calls [unlink]
    on it once when it sends the text, once when it rejects the file type,
    and once on the way to [next(error)] after an extractor threw; twice
    when the file type is rejected and the first [unlink] throws; and not
    at all when it answers 400 for a PDF with structural issues: that
    upload stays on disk. *)
Theorem upload_cleanup (World : Type) (lib : Upload.Library) (rt : Upload.Runtime World)
    (f : Upload.file) (st : World * log) :
  Upload.path f <> [] ->
  exists a st' evs,
    Upload.handler lib rt (Some f) st = (Ok a, st')
    /\ snd st' = snd st ++ evs
    /\ unlinks_of (Upload.path f) evs
       = match a with
         | Upload.Respond status _ =>
             if status =? 200 then 1
             else if Upload.is_pdf (fileExtension lib f) then 0 else 1
         | Upload.Next _ =>
             if Upload.is_pdf (fileExtension lib f) || Upload.is_image (fileExtension lib f)
             then 1 else 2
         end.
Proof.
  intros Hpath.
  assert (Hlen : (length (Upload.path f) =? 0) = false).
  { destruct (Upload.path f); [congruence | reflexivity]. }
  destruct (Upload.handler lib rt (Some f) st) as [r st'] eqn:Eh.
  destruct (Upload.is_pdf (fileExtension lib f)) eqn:Epdf.
  - destruct (UploadFacts.handler_pdf_run lib rt f st Epdf) as (evs & tail & Hall & Hlog & H).
    rewrite Eh in H, Hlog. cbn [fst snd] in H, Hlog.
    pose proof (UploadFacts.unlinks_of_none _ (Upload.path f) evs
                  (UploadFacts.pdf_call_no_unlink (Upload.path f)) Hall) as H0.
    destruct (Pdf.extractTextFromPDF (Upload.pdf rt) (Upload.path f) st) as [[t|e] st1].
    + destruct H as (_ & _ & -> & o & ->). eexists _, st', _.
      split; [reflexivity|]. split; [exact Hlog|].
      now rewrite UploadFacts.unlinks_of_app, H0, UploadFacts.unlinks_of_self.
    + destruct H as (_ & H).
      destruct (includes (js "XRef") e || includes (js "corrupted") e).
      * destruct H as [-> ->]. eexists _, st', _.
        split; [reflexivity|]. split; [exact Hlog|].
        now rewrite app_nil_r, H0.
      * rewrite Hlen in H. destruct H as (-> & o & ->). eexists _, st', _.
        split; [reflexivity|]. split; [exact Hlog|].
        now rewrite UploadFacts.unlinks_of_app, H0, UploadFacts.unlinks_of_self.
  - destruct (Upload.is_image (fileExtension lib f)) eqn:Eimg.
    + destruct (UploadFacts.handler_image_run lib rt f st Epdf Eimg)
        as (evs & tail & Hall & Hlog & H).
      rewrite Eh in H, Hlog. cbn [fst snd] in H, Hlog.
      pose proof (UploadFacts.unlinks_of_none _ (Upload.path f) evs
                    (UploadFacts.ocr_call_no_unlink (Upload.path f)) Hall) as H0.
      destruct (Ocr.extractTextFromImage (Upload.ocr rt) (Upload.path f) st)
        as [[t|e] st1].
      * destruct H as (_ & _ & -> & o & ->). eexists _, st', _.
        split; [reflexivity|]. split; [exact Hlog|].
        now rewrite UploadFacts.unlinks_of_app, H0, UploadFacts.unlinks_of_self.
      * rewrite Hlen in H. destruct H as (-> & o & ->). eexists _, st', _.
        split; [reflexivity|]. split; [exact Hlog|].
        now rewrite UploadFacts.unlinks_of_app, H0, UploadFacts.unlinks_of_self.
    + pose proof (UploadFacts.handler_other_run lib rt f st Epdf Eimg) as H.
      rewrite Eh in H.
      destruct (Ocr.unlink (Upload.ocr rt) (Upload.path f) (fst st)) as [[u|e] w1].
      * injection H as -> ->. eexists _, _, _.
        split; [reflexivity|]. split; [reflexivity|].
        apply UploadFacts.unlinks_of_self.
      * rewrite Hlen in H. cbn [fst snd] in H.
        destruct H as (-> & tail & Hlog & o & ->). eexists _, st', _.
        split; [reflexivity|]. split; [exact Hlog|].
        change ((EvUnlink (Upload.path f), Threw) :: [(EvUnlink (Upload.path f), o)])
          with ([(EvUnlink (Upload.path f), Threw)] ++ [(EvUnlink (Upload.path f), o)]).
        now rewrite UploadFacts.unlinks_of_app, !UploadFacts.unlinks_of_self.
Qed.

Lemma upload_cleanup_witness :
  exists a st' evs,
    Upload.handler plain_names (rejecting (js "Invalid XRef stream header"))
      (Some {| Upload.path := js "uploads/ab12"; Upload.originalname := js "report.pdf" |})
      (tt, [])
    = (Ok a, st')
    /\ snd st' = snd (tt, @nil (event * outcome)) ++ evs
    /\ unlinks_of (js "uploads/ab12") evs
       = match a with
         | Upload.Respond status _ =>
             if status =? 200 then 1
             else if Upload.is_pdf (js ".pdf") then 0 else 1
         | Upload.Next _ =>
             if Upload.is_pdf (js ".pdf") || Upload.is_image (js ".pdf") then 1 else 2
         end.
Proof.
  apply (@upload_cleanup unit plain_names (rejecting (js "Invalid XRef stream header"))
           {| Upload.path := js "uploads/ab12"; Upload.originalname := js "report.pdf" |}
           (tt, [])).
  discriminate.
Defined.

(** The upload of a PDF with a broken cross-reference table is answered
    with status 400 and is not deleted; a text file is deleted before it is
    rejected; and where [unlink] throws, the rejection of a text file ends
    in [next(error)] after two calls to [unlink]. *)
Example upload_cleanup_examples :
  Upload.handler plain_names (rejecting (js "Invalid XRef stream header"))
    (Some {| Upload.path := js "uploads/ab12"; Upload.originalname := js "report.pdf" |})
    (tt, [])
  = (Ok (Upload.Respond 400
           (Upload.structural_body
              (Pdf.failure_message (Pdf.msg_corrupted (js "Invalid XRef stream header"))))),
     (tt, [ (EvReadFile (js "uploads/ab12"), Returned);
            (EvPdfParse false, Threw); (EvPdfParse true, Threw) ]))
  /\ Upload.handler plain_names (serving [] [])
       (Some {| Upload.path := js "uploads/ab12"; Upload.originalname := js "notes.txt" |})
       (tt, [])
     = (Ok (Upload.Respond 400 (error_body Upload.msg_unsupported)),
        (tt, [ (EvUnlink (js "uploads/ab12"), Returned) ]))
  /\ Upload.handler plain_names read_only
       (Some {| Upload.path := js "uploads/ab12"; Upload.originalname := js "notes.txt" |})
       (tt, [])
     = (Ok (Upload.Next (js "EACCES: permission denied")),
        (tt, [ (EvUnlink (js "uploads/ab12"), Threw);
               (EvUnlink (js "uploads/ab12"), Threw) ])).
Proof. vm_compute. repeat split. Qed.

(** X15.  The handler calls one extractor at most, chosen by the
    extension.  Without a file it calls nothing.  For [.pdf] its calls are
    those of the PDF extractor; for [.png], [.jpg] and [.jpeg] those of
    the OCR extractor, which never unlinks the upload; for any other
    extension no extractor is called.  The only other call, in each case,
    is [unlink] of the upload. *)
Theorem upload_dispatch (World : Type) (lib : Upload.Library) (rt : Upload.Runtime World)
    (req_file : option Upload.file) (st : World * log) :
  exists evs,
    snd (snd (Upload.handler lib rt req_file st)) = snd st ++ evs
    /\ match req_file with
       | None => evs = []
       | Some f =>
           forallb (is_upload_call (fileExtension lib f) (Upload.path f)) evs = true
           /\ (Upload.is_pdf (fileExtension lib f) = false ->
               forallb (fun entry => negb (is_pdf_call entry)) evs = true)
           /\ (Upload.is_pdf (fileExtension lib f) = true ->
               forallb (fun entry => is_pdf_call entry
                                     || is_unlink_of (Upload.path f) entry) evs = true)
           /\ (Upload.is_pdf (fileExtension lib f) = false ->
               Upload.is_image (fileExtension lib f) = false ->
               forallb (is_unlink_of (Upload.path f)) evs = true)
       end.
Proof.
  destruct req_file as [f|].
  2:{ exists []. cbn. now rewrite app_nil_r. }
  destruct (UploadFacts.handler_emits lib rt f st) as (evs & Hlog & Hall).
  exists evs. split; [exact Hlog|]. split; [exact Hall|].
  rewrite forallb_forall in Hall. unfold is_upload_call in Hall.
  split; [|split].
  - intros Epdf. rewrite Epdf in Hall. apply forallb_forall. intros x Hx.
    specialize (Hall x Hx). destruct x as [[] o]; try reflexivity;
      destruct (Upload.is_image (fileExtension lib f)); cbn in Hall; discriminate Hall.
  - intros Epdf. rewrite Epdf in Hall. apply forallb_forall. exact Hall.
  - intros Epdf Eimg. rewrite Epdf, Eimg in Hall. apply forallb_forall. exact Hall.
Qed.

(** X16.  A PDF the extractor fails on, by the cause of the failure:
    what [readFile] or the first parse threw, the corruption message made
    of an XRef error when the second parse throws too, or one of the two
    messages for a PDF without text.  When the cause names XRef, as the
    corruption message always does, the client is sent status 400 with the
    structural report and the suggestion to convert.  Otherwise, when the
    cause names a password or encryption, the client is sent status 500
    with the password report.  Otherwise the report is the cause behind
    the fixed prefix, sent with status 400 and the suggestion when the
    cause names corruption and with status 500 when not, as for the two
    messages of a PDF without text. *)
Theorem upload_pdf_failure (World : Type) (lib : Upload.Library) (rt : Upload.Runtime World)
    (f : Upload.file) (st : World * log) (m : jsstring) :
  Upload.is_pdf (fileExtension lib f) = true ->
  pdf_cause (Upload.pdf rt) (Upload.path f) (fst st) m ->
  fst (Pdf.extractTextFromPDF (Upload.pdf rt) (Upload.path f) st)
  = Throw (Pdf.failure_message m)
  /\ fst (Server.upload lib rt (Some f) st)
     = Ok (if Pdf.mentions_xref m then
             Upload.Respond 400
               (Upload.structural_body
                  (js "PDF parsing error: The PDF file appears to have structural issues ("
                   ++ m
                   ++ js "). This can happen with corrupted PDFs or PDFs created with certain software. Try: 1) Re-saving the PDF, 2) Converting to an image and uploading as PNG/JPEG, or 3) Using a different PDF file."))
           else if Pdf.mentions_password m then
             Upload.Respond 500
               (error_body
                  (js "PDF is password-protected or encrypted. Please remove the password and try again."))
           else if includes (js "corrupted") m then
             Upload.Respond 400
               (Upload.structural_body (js "Failed to extract text from PDF: " ++ m))
           else
             Upload.Respond 500 (error_body (js "Failed to extract text from PDF: " ++ m)))
  /\ (m = js "No text could be extracted from the PDF. The PDF may contain only images."
      \/ m = js "PDF appears to contain no extractable text. It may be an image-based PDF. Please try uploading as an image file instead." ->
      fst (Server.upload lib rt (Some f) st)
      = Ok (Upload.Respond 500 (error_body (js "Failed to extract text from PDF: " ++ m))))
  /\ (forall m0,
        Pdf.mentions_xref m0 = true ->
        m = js "PDF appears to be corrupted or uses unsupported features. Error: " ++ m0
            ++ js ". Please try converting the PDF to a standard format or use an image version of the document." ->
        Pdf.mentions_xref m = true).
Proof.
  intros Epdf Hcause.
  assert (Ee : fst (Pdf.extractTextFromPDF (Upload.pdf rt) (Upload.path f) st)
               = Throw (Pdf.failure_message m)).
  { apply PdfMore.extractTextFromPDF_fails. exists m. split; [exact Hcause | reflexivity]. }
  assert (Hup : fst (Server.upload lib rt (Some f) st)
                = Ok (if includes (js "XRef") (Pdf.failure_message m)
                         || includes (js "corrupted") (Pdf.failure_message m)
                      then Upload.Respond 400 (Upload.structural_body (Pdf.failure_message m))
                      else Upload.Respond 500 (error_body (Pdf.failure_message m)))).
  { destruct (UploadFacts.handler_pdf_run lib rt f st Epdf) as (evs & tail & _ & _ & H).
    destruct (Pdf.extractTextFromPDF (Upload.pdf rt) (Upload.path f) st) as [[t|e'] st1];
      cbn [fst] in Ee; [discriminate Ee|].
    injection Ee as ->. destruct H as (_ & H).
    unfold Server.upload, bind.
    destruct (Upload.handler lib rt (Some f) st) as [r st'].
    cbn [fst] in H.
    destruct (includes (js "XRef") (Pdf.failure_message m)
              || includes (js "corrupted") (Pdf.failure_message m)).
    - destruct H as [-> _]. reflexivity.
    - destruct H as [-> _]. unfold ret, Server.errorHandler, error_body. cbn [fst].
      destruct (ReportFacts.failure_message_head m) as (c & rest & Ec & _).
      rewrite Ec. reflexivity. }
  assert (Hgen : fst (Server.upload lib rt (Some f) st)
                 = Ok (if Pdf.mentions_xref m then
                         Upload.Respond 400 (Upload.structural_body (Pdf.msg_structural m))
                       else if Pdf.mentions_password m then
                         Upload.Respond 500 (error_body Pdf.msg_password)
                       else if includes (js "corrupted") m then
                         Upload.Respond 400 (Upload.structural_body (Pdf.msg_failed m))
                       else Upload.Respond 500 (error_body (Pdf.msg_failed m)))).
  { rewrite Hup. unfold Pdf.failure_message.
    destruct (Pdf.mentions_xref m) eqn:Ex.
    - rewrite ReportFacts.structural_report_corrupted, orb_true_r. reflexivity.
    - destruct (Pdf.mentions_password m).
      + reflexivity.
      + rewrite ReportFacts.failed_xref, ReportFacts.failed_corrupted.
        unfold Pdf.mentions_xref in Ex. apply orb_false_iff in Ex.
        destruct Ex as [Ex _]. rewrite Ex. reflexivity. }
  split; [exact Ee|]. split; [exact Hgen|]. split.
  - intros [Hm | Hm]; rewrite Hgen, Hm; reflexivity.
  - intros m0 Hx Hm. rewrite Hm, <- PdfMore.msg_corrupted_eq.
    exact (PdfMore.msg_corrupted_xref m0 Hx).
Qed.

Lemma upload_pdf_failure_witness :
  fst (Server.upload plain_names (rejecting (js "File is encrypted"))
         (Some {| Upload.path := js "uploads/ab12"; Upload.originalname := js "Report.PDF" |})
         (tt, []))
  = Ok (Upload.Respond 500
          (error_body
             (js "PDF is password-protected or encrypted. Please remove the password and try again."))).
Proof.
  refine (proj1 (proj2
    (@upload_pdf_failure unit plain_names (rejecting (js "File is encrypted"))
       {| Upload.path := js "uploads/ab12"; Upload.originalname := js "Report.PDF" |}
       (tt, []) (js "File is encrypted") _ _))).
  - vm_compute. reflexivity.
  - apply cause_parse with (buf := []) (w1 := tt) (w2 := tt); reflexivity.
Defined.

(** An XRef error on both parses is answered with status 400, the
    structural report around the corruption message, and the suggestion. *)
Example upload_broken_pdf :
  fst (Server.upload plain_names (rejecting (js "Invalid XRef stream"))
         (Some {| Upload.path := js "uploads/ab12"; Upload.originalname := js "report.pdf" |})
         (tt, []))
  = Ok (Upload.Respond 400
          [ (js "error",
             Upload.JString
               (js "PDF parsing error: The PDF file appears to have structural issues (PDF appears to be corrupted or uses unsupported features. Error: Invalid XRef stream. Please try converting the PDF to a standard format or use an image version of the document.). This can happen with corrupted PDFs or PDFs created with certain software. Try: 1) Re-saving the PDF, 2) Converting to an image and uploading as PNG/JPEG, or 3) Using a different PDF file."));
            (js "suggestion",
             Upload.JString
               (js "This PDF appears to have structural issues. Try converting it to an image (PNG/JPEG) and uploading that instead, or re-save the PDF using a different PDF creator.")) ]).
Proof. vm_compute. reflexivity. Qed.

(** A PDF of scanned pages, which parses to no text, is answered with
    status 500 and the report of the extractor. *)
Example upload_scanned_pdf :
  fst (Server.upload plain_names (serving [] [NL; 32%N; NL])
         (Some {| Upload.path := js "uploads/ab12"; Upload.originalname := js "scan.pdf" |})
         (tt, []))
  = Ok (Upload.Respond 500
          (error_body
             (js "Failed to extract text from PDF: PDF appears to contain no extractable text. It may be an image-based PDF. Please try uploading as an image file instead."))).
Proof. vm_compute. reflexivity. Qed.

(** ** The preprocessed image, once the text is read *)

Module CleanupFacts.

Lemma filter_none {T} (P Q : T -> bool) (l : list T) :
  (forall x, P x = true -> Q x = false) -> forallb P l = true -> filter Q l = [].
Proof.
  intros HPQ H. induction l as [|x l IH]; [reflexivity|].
  cbn [forallb] in H. apply andb_true_iff in H. destruct H as [Hx H].
  cbn [filter]. rewrite (HPQ x Hx). now apply IH.
Qed.

Lemma work_no_terminate (entry : event * outcome) :
  is_work entry = true -> is_terminate entry = false.
Proof. destruct entry as [[] o]; cbn; intros H; try discriminate H; reflexivity. Qed.

Lemma work_no_unlink (p : jsstring) (entry : event * outcome) :
  is_work entry = true -> is_unlink_of p entry = false.
Proof. destruct entry as [[] o]; cbn; intros H; try discriminate H; reflexivity. Qed.

(** The preprocessed path is empty for the empty path only. *)
Lemma preprocessedPath_nil (filePath : jsstring) :
  preprocessedPath filePath = [] -> filePath = [].
Proof.
  unfold preprocessedPath, replace_first. destruct filePath as [|c t]; [reflexivity|].
  cbn [replace_first_go].
  destruct (match_here no_flags Ocr.re_extension None (c :: t)); discriminate.
Qed.

End CleanupFacts.

(** X17.  With a worker that can be created and terminated, the extractor
    calls [terminate] exactly once, whether it returns a text or throws,
    and leaves no preprocessed image behind unasked: [unlink] is called on
    the preprocessed path exactly once when that differs from the input
    path (the input path has an extension), and not at all otherwise; the
    input file itself is never unlinked. *)
Theorem ocr_temp_file_cleanup (World : Type) (rt : Ocr.Runtime World)
    (filePath : jsstring) (st : World * log) :
  (forall lang w, exists u, fst (Ocr.createWorker rt lang w) = Ok u) ->
  (forall w, exists u, fst (Ocr.terminate rt w) = Ok u) ->
  exists evs,
    snd (snd (Ocr.extractTextFromImage rt filePath st)) = snd st ++ evs
    /\ filter is_terminate evs = [(EvTerminate, Returned)]
    /\ unlinks_of (preprocessedPath filePath) evs
       = (if str_eqb (preprocessedPath filePath) filePath then 0 else 1)
    /\ (preprocessedPath filePath <> filePath -> unlinks_of filePath evs = 0).
Proof.
  intros Hcreate Hterminate.
  pose proof (OcrMore.extractTextFromImage_run rt filePath st) as H.
  destruct (Hcreate (js "eng") (fst st)) as [u Hu].
  destruct (Ocr.createWorker rt (js "eng") (fst st)) as [[u'|e] w0];
    [|cbn [fst] in Hu; discriminate Hu].
  destruct H as (results & work & closing & unlinks & _ & Hlog & Hwork & Hunl & Hc).
  assert (Hclose : closing = [(EvTerminate, Returned)]
                   /\ length unlinks
                      = if negb (length (preprocessedPath filePath) =? 0)
                           && negb (str_eqb (preprocessedPath filePath) filePath)
                        then 1 else 0).
  { destruct Hc as [(Hc & _ & Hn) | [(_ & (w & e & He) & _) | (_ & (w & e & He) & _)]].
    - split; assumption.
    - destruct (Hterminate w) as [u2 Hu2]. congruence.
    - destruct (Hterminate w) as [u2 Hu2]. congruence. }
  destruct Hclose as [-> Hn].
  eexists. split; [exact Hlog|].
  assert (Hun : forall p, is_unlink_of p (EvCreateWorker (js "eng"), Returned) = false)
    by reflexivity.
  split; [|split].
  - cbn [filter is_terminate fst]. rewrite !filter_app.
    rewrite (@CleanupFacts.filter_none _ is_work is_terminate work
               CleanupFacts.work_no_terminate Hwork).
    destruct Hunl as [-> | (o & -> & _)]; reflexivity.
  - unfold unlinks_of. cbn [filter is_unlink_of fst]. rewrite !filter_app.
    rewrite (@CleanupFacts.filter_none _ is_work _ work
               (CleanupFacts.work_no_unlink (preprocessedPath filePath)) Hwork).
    cbn [filter is_unlink_of fst app].
    destruct (str_eqb (preprocessedPath filePath) filePath) eqn:Eq.
    + rewrite andb_false_r in Hn. destruct unlinks; [reflexivity | discriminate Hn].
    + destruct Hunl as [-> | (o & -> & _)].
      * exfalso. destruct (preprocessedPath filePath) as [|c t] eqn:Ep.
        -- apply CleanupFacts.preprocessedPath_nil in Ep. subst filePath.
           discriminate Eq.
        -- discriminate Hn.
      * cbn [filter is_unlink_of fst].
        now rewrite (proj2 (OcrMore.str_eqb_eq _ _) eq_refl).
  - intros Hneq. unfold unlinks_of. cbn [filter is_unlink_of fst]. rewrite !filter_app.
    rewrite (@CleanupFacts.filter_none _ is_work _ work
               (CleanupFacts.work_no_unlink filePath) Hwork).
    cbn [filter is_unlink_of fst app].
    destruct Hunl as [-> | (o & -> & E)]; [reflexivity|].
    cbn [filter is_unlink_of fst]. now rewrite E.
Qed.

Lemma ocr_temp_file_cleanup_witness :
  exists evs,
    snd (snd (Ocr.extractTextFromImage Examples.blind (js "uploads/shot.png") (tt, [])))
    = snd (tt, @nil (event * outcome)) ++ evs
    /\ filter is_terminate evs = [(EvTerminate, Returned)]
    /\ unlinks_of (preprocessedPath (js "uploads/shot.png")) evs
       = (if str_eqb (preprocessedPath (js "uploads/shot.png")) (js "uploads/shot.png")
          then 0 else 1)
    /\ (preprocessedPath (js "uploads/shot.png") <> js "uploads/shot.png" ->
        unlinks_of (js "uploads/shot.png") evs = 0).
Proof.
  apply (@ocr_temp_file_cleanup unit Examples.blind (js "uploads/shot.png") (tt, [])).
  - intros lang w. exists tt. reflexivity.
  - intros w. exists tt. reflexivity.
Defined.

(** When every recognition throws, the worker is still terminated and the
    preprocessed image still unlinked. *)
Example ocr_cleanup_after_failure :
  snd (snd (Ocr.extractTextFromImage Examples.blind (js "uploads/shot.png") (tt, [])))
  = [ (EvCreateWorker (js "eng"), Returned);
      (EvSetParameters (js "6") (js "1"), Returned);
      (EvRecognize (js "uploads/shot.png"), Threw);
      (EvSetParameters (js "3") (js "1"), Returned);
      (EvRecognize (js "uploads/shot.png"), Threw);
      (EvSetParameters (js "11") (js "1"), Returned);
      (EvRecognize (js "uploads/shot.png"), Threw);
      (EvSetParameters (js "6") (js "0"), Returned);
      (EvRecognize (js "uploads/shot.png"), Threw);
      (EvTerminate, Returned);
      (EvUnlink (js "uploads/shot_preprocessed.png"), Returned) ].
Proof. vm_compute. reflexivity. Qed.

(** ** The one report of a failed recognition *)

Module FailureFacts.

Lemma select_throw (results : list Ocr.candidate) (message : jsstring) :
  Ocr.select results = Throw message -> message = Ocr.msg_no_text.
Proof.
  unfold Ocr.select. destruct (Ocr.sort_by Ocr.by_quality results) as [|best rest].
  - now intros [= <-].
  - destruct (length (Ocr.text best) =? 0); [now intros [= <-] | discriminate].
Qed.

Lemma extractTextFromImage_throw (World : Type) (rt : Ocr.Runtime World)
    (filePath : jsstring) (st : World * log) (e : jsstring) :
  (forall lang w, exists u, fst (Ocr.createWorker rt lang w) = Ok u) ->
  (forall w, exists u, fst (Ocr.terminate rt w) = Ok u) ->
  fst (Ocr.extractTextFromImage rt filePath st) = Throw e ->
  e = Ocr.msg_failed_prefix ++ Ocr.msg_no_text.
Proof.
  intros Hcreate Hterminate He.
  pose proof (OcrMore.extractTextFromImage_run rt filePath st) as H.
  destruct (Hcreate (js "eng") (fst st)) as [u Hu].
  destruct (Ocr.createWorker rt (js "eng") (fst st)) as [[u'|e'] w0];
    [|cbn [fst] in Hu; discriminate Hu].
  destruct H as (results & work & closing & unlinks & _ & _ & _ & _ & Hc).
  destruct Hc as [(_ & Hr & _) | [(_ & (w & e2 & He2) & _) | (_ & (w & e2 & He2) & _)]].
  - rewrite Hr in He. destruct (Ocr.select results) as [best|message] eqn:Es;
      [discriminate He|].
    injection He as <-. now rewrite (select_throw _ Es).
  - destruct (Hterminate w) as [u2 Hu2]. congruence.
  - destruct (Hterminate w) as [u2 Hu2]. congruence.
Qed.

End FailureFacts.

(** X18.  With a worker that can be created and terminated, the extractor
    has one report for every failure: the fixed prefix and "No text could
    be extracted from the image".  What sharp, [setParameters] or
    [recognize] threw never reaches the caller. *)
Theorem ocr_failure_report (World : Type) (rt : Ocr.Runtime World)
    (filePath : jsstring) (st : World * log) :
  (forall lang w, exists u, fst (Ocr.createWorker rt lang w) = Ok u) ->
  (forall w, exists u, fst (Ocr.terminate rt w) = Ok u) ->
  (forall t, fst (Ocr.extractTextFromImage rt filePath st) <> Ok t) ->
  fst (Ocr.extractTextFromImage rt filePath st)
  = Throw (js "Failed to extract text from image: No text could be extracted from the image").
Proof.
  intros Hcreate Hterminate Hno.
  destruct (fst (Ocr.extractTextFromImage rt filePath st)) as [t|e] eqn:He.
  - now elim (Hno t).
  - now rewrite (FailureFacts.extractTextFromImage_throw rt filePath st Hcreate Hterminate He).
Qed.

Lemma ocr_failure_report_witness :
  fst (Ocr.extractTextFromImage Examples.blind (js "uploads/shot.png") (tt, []))
  = Throw (js "Failed to extract text from image: No text could be extracted from the image").
Proof.
  apply (@ocr_failure_report unit Examples.blind (js "uploads/shot.png") (tt, [])).
  - intros lang w. exists tt. reflexivity.
  - intros w. exists tt. reflexivity.
  - intros t. vm_compute. discriminate.
Defined.

(** X19.  An image the extractor fails on, with a worker that can be
    created and terminated: the client is sent status 500 with the one
    report of the extractor, not the 400 with a suggestion that the
    handler has for an empty text. *)
Theorem upload_image_failure (World : Type) (lib : Upload.Library)
    (rt : Upload.Runtime World) (f : Upload.file) (st : World * log) (e : jsstring) :
  Upload.is_pdf (fileExtension lib f) = false ->
  Upload.is_image (fileExtension lib f) = true ->
  (forall lang w, exists u, fst (Ocr.createWorker (Upload.ocr rt) lang w) = Ok u) ->
  (forall w, exists u, fst (Ocr.terminate (Upload.ocr rt) w) = Ok u) ->
  fst (Ocr.extractTextFromImage (Upload.ocr rt) (Upload.path f) st) = Throw e ->
  fst (Upload.handler lib rt (Some f) st)
  = Ok (Upload.Next (Ocr.msg_failed_prefix ++ Ocr.msg_no_text))
  /\ fst (Server.upload lib rt (Some f) st)
     = Ok (Upload.Respond 500 (error_body (Ocr.msg_failed_prefix ++ Ocr.msg_no_text))).
Proof.
  intros Epdf Eimg Hcreate Hterminate He.
  pose proof (FailureFacts.extractTextFromImage_throw _ _ _ Hcreate Hterminate He) as ->.
  destruct (UploadFacts.handler_image_run lib rt f st Epdf Eimg) as (evs & tail & _ & _ & H).
  destruct (Ocr.extractTextFromImage (Upload.ocr rt) (Upload.path f) st) as [[t|e'] st1];
    cbn [fst] in He; [discriminate He|].
  injection He as ->. destruct H as [Hr _].
  split; [exact Hr|].
  unfold Server.upload, bind.
  destruct (Upload.handler lib rt (Some f) st) as [r st']. cbn [fst] in Hr. subst r.
  reflexivity.
Qed.

Lemma upload_image_failure_witness :
  fst (Upload.handler plain_names (serving [0x25CF%N; 0x25CF%N] [])
         (Some {| Upload.path := js "uploads/ab12"; Upload.originalname := js "shot.JPG" |})
         (tt, []))
  = Ok (Upload.Next (Ocr.msg_failed_prefix ++ Ocr.msg_no_text))
  /\ fst (Server.upload plain_names (serving [0x25CF%N; 0x25CF%N] [])
            (Some {| Upload.path := js "uploads/ab12";
                     Upload.originalname := js "shot.JPG" |})
            (tt, []))
     = Ok (Upload.Respond 500 (error_body (Ocr.msg_failed_prefix ++ Ocr.msg_no_text))).
Proof.
  apply (@upload_image_failure unit plain_names (serving [0x25CF%N; 0x25CF%N] [])
           {| Upload.path := js "uploads/ab12"; Upload.originalname := js "shot.JPG" |}
           (tt, []) (Ocr.msg_failed_prefix ++ Ocr.msg_no_text)).
  - vm_compute. reflexivity.
  - vm_compute. reflexivity.
  - intros lang w. exists tt. reflexivity.
  - intros w. exists tt. reflexivity.
  - vm_compute. reflexivity.
Defined.

